(** * PathFinder+ : a shallow embedding of PathFinder_plus.py

    The development follows the source file function by function:
    the segment enumerator ([print_all_paths_util], [print_all_paths]),
    the segment reducer (Step 1B of [generate_paths]), the logic parser
    ([parse_mission]), the travel-time report of Step 4, the Step 1A
    scheduling loop and the assembler's combination function [perm].

    Python values are modelled as follows: [int] is [Z]; [str] is [string];
    a [list] is a [list] (index reads are [!!], out-of-range reads raise);
    a [dict] is a [gmap] (a read of a missing key raises); an exception is
    [None] in the [option] monad.  A [float] is an IEEE 754 double,
    [spec_float] at precision 53 and maximal exponent 1024, with the
    operations of the standard library's specification of binary floating
    point (round to nearest, ties to even). *)

From Stdlib Require Import ZArith QArith Qround Qpower Lia Ascii SpecFloat.
From stdpp Require Import base option list gmap strings pretty.

Local Open Scope Z_scope.

(** ** Python helpers *)

(** A [for] loop whose body may raise: the state is threaded from left to
    right and the first exception stops the loop. *)
Fixpoint for_each {S A : Type} (body : S → A → option S) (l : list A) (s : S) : option S :=
  match l with
  | [] => Some s
  | x :: r => s' ← body s x; for_each body r s'
  end.

(** The characters [str.strip()] removes (ASCII part of [str.isspace]). *)
Definition is_space (c : ascii) : bool :=
  let n := nat_of_ascii c in
  ((9 <=? n)%nat && (n <=? 13)%nat) || ((28 <=? n)%nat && (n <=? 32)%nat).

Fixpoint lstrip (s : string) : string :=
  match s with
  | String c r => if is_space c then lstrip r else s
  | EmptyString => EmptyString
  end.

Definition strip (s : string) : string :=
  String.rev (lstrip (String.rev (lstrip s))).

(** [c in s] for a one-character string [c]. *)
Fixpoint contains (c : ascii) (s : string) : bool :=
  match s with
  | EmptyString => false
  | String a r => if Ascii.eqb a c then true else contains c r
  end.

(** [s.split(sep)] for a one-character separator. *)
Fixpoint split (sep : ascii) (s : string) : list string :=
  match s with
  | EmptyString => [EmptyString]
  | String a r =>
      if Ascii.eqb a sep then EmptyString :: split sep r
      else match split sep r with
           | h :: t => String a h :: t
           | [] => [String a EmptyString]
           end
  end.

(** [sep.join(l)]. *)
Fixpoint join (sep : string) (l : list string) : string :=
  match l with
  | [] => EmptyString
  | [x] => x
  | x :: r => x +:+ sep +:+ join sep r
  end.

(** [s[-1]]: raises on the empty string. *)
Fixpoint last_char (s : string) : option ascii :=
  match s with
  | EmptyString => None
  | String a EmptyString => Some a
  | String _ r => last_char r
  end.

(** ** Segment enumerator: [print_all_paths_util] and [print_all_paths] *)

(** The [datapack] dictionary built at lines 393-405. *)
Record datapack := {
  dp_start : nat;
  dp_dest : nat;
  dp_g : gmap nat (list nat);
  dp_node_id : list string;
  dp_node_consum : gmap string Z;
  dp_node_time : gmap string Z;
  dp_node_tools : gmap string (list Z);
  dp_max_time : Z;
  dp_max_consumables : Z;
  dp_max_weight : Z
}.

(** The running values of the loop [for item in path] (lines 1486-1503). *)
Record totals := {
  my_path : string;
  total_consum : Z;
  total_time : Z;
  total_weight : Z;
  new_tools : list Z
}.

(** [my_list], the value stored in [segment_pathdata] (lines 1512-1517). *)
Record pathdata := {
  pd_time : Z;
  pd_consum : Z;
  pd_weight : Z;
  pd_tools : list Z
}.

(** The two dictionaries the enumerator fills. *)
Record segments := {
  segment_paths : gmap string (list string);
  segment_pathdata : gmap string pathdata
}.

(** The mutable objects threaded through the recursion. *)
Record dfs_state := {
  visited : gmap nat bool;
  path : list nat;
  found : segments
}.

(** Body of [for i in range(0, 19)] (lines 1500-1503). *)
Definition tool_step (old_tools : list Z) (acc : list Z * Z) (i : nat) : option (list Z * Z) :=
  let '(tools, weight) := acc in
  o ← old_tools !! i;
  n ← tools !! i;
  let tools' := if bool_decide (n < o) then <[i:=o]> tools else tools in
  n' ← tools' !! i;
  Some (tools', weight + n').

(** Body of [for item in path] (lines 1490-1503). *)
Definition item_step (dp : datapack) (a : totals) (item : nat) : option totals :=
  raw_id ← dp_node_id dp !! item;
  let item_id := strip raw_id in
  let my_path' :=
    if bool_decide (1 < String.length (my_path a))%nat
    then my_path a +:+ "-" +:+ item_id
    else item_id in
  c ← dp_node_consum dp !! item_id;
  let total_consum' := total_consum a + c in
  t ← dp_node_time dp !! item_id;
  let total_time' := total_time a + t in
  old_tools ← dp_node_tools dp !! item_id;
  '(tools', weight') ← for_each (tool_step old_tools) (seq 0 19) (new_tools a, total_consum');
  Some {| my_path := my_path'; total_consum := total_consum';
          total_time := total_time'; total_weight := weight'; new_tools := tools' |}.

Definition totals0 : totals :=
  {| my_path := ""; total_consum := 0; total_time := 0; total_weight := 0;
     new_tools := replicate 20 0 |}.

(** The whole accumulation loop over a completed path. *)
Definition path_totals (dp : datapack) (p : list nat) : option totals :=
  for_each (item_step dp) p totals0.

(** The resource check of line 1507. *)
Definition within_budgets (dp : datapack) (a : totals) : bool :=
  bool_decide (total_consum a ≤ dp_max_consumables dp)
  && bool_decide (total_time a ≤ dp_max_time dp)
  && bool_decide (total_weight a ≤ dp_max_weight dp).

Definition totals_data (a : totals) : pathdata :=
  {| pd_time := total_time a; pd_consum := total_consum a;
     pd_weight := total_weight a; pd_tools := new_tools a |}.

(** [this_key] (lines 1483-1485). *)
Definition segment_key (dp : datapack) (p : list nat) : option string :=
  first ← head p;
  final ← last p;
  start_node ← dp_node_id dp !! first;
  dest_node ← dp_node_id dp !! final;
  Some (start_node +:+ ":" +:+ dest_node).

(** The branch [if u == d] (lines 1482-1521): record the completed path. *)
Definition record_path (dp : datapack) (sg : segments) (p : list nat) : option segments :=
  this_key ← segment_key dp p;
  a ← path_totals dp p;
  let paths1 :=
    match segment_paths sg !! this_key with
    | None => <[this_key := []]> (segment_paths sg)
    | Some _ => segment_paths sg
    end in
  if within_budgets dp a then
    let working_segs := default [] (paths1 !! this_key) in
    Some {| segment_paths := <[this_key := working_segs ++ [my_path a]]> paths1;
            segment_pathdata := <[my_path a := totals_data a]> (segment_pathdata sg) |}
  else
    Some {| segment_paths := paths1; segment_pathdata := segment_pathdata sg |}.

(** [print_all_paths_util] (lines 1467-1530).  [fuel] bounds the recursion
    depth; the recursion itself follows the source: mark, append, either
    record or recurse into the unvisited neighbours, pop, unmark. *)
Fixpoint print_all_paths_util (fuel : nat) (dp : datapack) (u d : nat)
    (st : dfs_state) : option dfs_state :=
  match fuel with
  | O => None
  | S fuel' =>
      let st1 := {| visited := <[u := true]> (visited st);
                    path := path st ++ [u];
                    found := found st |} in
      st2 ← (if bool_decide (u = d) then
               sg ← record_path dp (found st1) (path st1);
               Some {| visited := visited st1; path := path st1; found := sg |}
             else
               neighbours ← dp_g dp !! u;
               for_each (λ (s : dfs_state) (i : nat),
                   match visited s !! i with
                   | None => None
                   | Some true => Some s
                   | Some false => print_all_paths_util fuel' dp i d s
                   end)
                 neighbours st1);
      Some {| visited := <[u := false]> (visited st2);
              path := removelast (path st2);
              found := found st2 |}
  end.

(** [print_all_paths] (lines 1410-1443), up to the hand-over to
    [save_this_data]: the dictionaries that are written to disk. *)
Definition print_all_paths (fuel : nat) (dp : datapack) : option segments :=
  let s := dp_start dp in
  let d := dp_dest dp in
  let visited0 : gmap nat bool :=
    list_to_map ((λ i, (i, false)) <$> seq 0 (length (dp_node_id dp))) in
  st ← print_all_paths_util fuel dp s d
         {| visited := visited0; path := [];
            found := {| segment_paths := ∅; segment_pathdata := ∅ |} |};
  start_node ← dp_node_id dp !! s;
  dest_node ← dp_node_id dp !! d;
  let this_key := start_node +:+ ":" +:+ dest_node in
  match segment_paths (found st) !! this_key with
  | Some _ => Some (found st)
  | None => Some {| segment_paths := <[this_key := []]> (segment_paths (found st));
                    segment_pathdata := segment_pathdata (found st) |}
  end.

(** ** Segment reducer: Step 1B of [generate_paths] (lines 443-502) *)

(** One line of a [PathData_*.txt] file, by what the loop reads from it:
    [mission] is the text before the colon and [data_list] the numbers after
    it (time, consumables, total weight, then the tool weights).  Two lines
    are the same text exactly when these fields agree. *)
Record pathdata_line := {
  mission : string;
  data_list : list Z
}.

#[global] Instance pathdata_line_eq_dec : EqDecision pathdata_line.
Proof. solve_decision. Defined.

(** [l.pop()]: raises on the empty list. *)
Definition pop {A : Type} (l : list A) : option (list A) :=
  match l with
  | [] => None
  | _ => Some (removelast l)
  end.

(** Lines 468-472 for [fastest] and 473-477 for [lightest]: the same code on
    two lists.  [acc] is the list kept so far with its cutoff value. *)
Definition keep_line (cutoff value : Z) (x_line : pathdata_line)
    (acc : list pathdata_line * Z) : option (list pathdata_line * Z) :=
  let '(kept, cutoff_value) := acc in
  if bool_decide (value < cutoff_value) then
    if bool_decide (cutoff ≤ Z.of_nat (length kept)) then
      kept' ← pop kept;
      Some (kept' ++ [x_line], value)
    else Some (kept ++ [x_line], cutoff_value)
  else Some acc.

(** Body of [for x_line in content] (lines 453-477). *)
Definition reduce_step (cutoff_fastest cutoff_lightest : Z)
    (st : (list pathdata_line * Z) * (list pathdata_line * Z))
    (x_line : pathdata_line) : option ((list pathdata_line * Z) * (list pathdata_line * Z)) :=
  this_line_time ← data_list x_line !! 0%nat;
  this_line_consum ← data_list x_line !! 1%nat;
  fast ← keep_line cutoff_fastest this_line_time x_line st.1;
  light ← keep_line cutoff_lightest this_line_consum x_line st.2;
  Some (fast, light).

(** Lines 483-486: [combo] is [fastest] followed by the lines of [lightest]
    that are not in it yet. *)
Definition combine_lists (fastest lightest : list pathdata_line) : list pathdata_line :=
  foldl (λ combo x_line, if decide (x_line ∈ combo) then combo else combo ++ [x_line])
        fastest lightest.

(** The reduction of one file: the lines kept for the segment. *)
Definition reduce_segment (cutoff_fastest cutoff_lightest : Z)
    (content : list pathdata_line) : option (list pathdata_line) :=
  st ← for_each (reduce_step cutoff_fastest cutoff_lightest) content
         (([], 999999), ([], 999999));
  Some (combine_lists st.1.1 st.2.1).

(** ** Logic parser: [parse_mission] (lines 1000-1047) *)

(** [path_strings] holds strings and, in the [+] branch, a list of strings. *)
#[warnings="-register-all"]
Inductive pyval :=
  | PStr (s : string)
  | PList (l : list pyval).

(** [listdepth] (lines 974-981); [max] of an empty sequence raises. *)
Fixpoint listdepth (v : pyval) : option nat :=
  match v with
  | PStr _ => Some O
  | PList l =>
      m ← (fix max_depth (l : list pyval) : option nat :=
             match l with
             | [] => None
             | x :: r =>
                 dx ← listdepth x;
                 match r with
                 | [] => Some dx
                 | _ => dr ← max_depth r; Some (Nat.max dx dr)
                 end
             end) l;
      Some (S m)
  end.

(** What iterating over a value yields: the items of a list, the characters
    of a string. *)
Definition iter_items (v : pyval) : list pyval :=
  match v with
  | PList l => l
  | PStr s => (λ c, PStr (String c EmptyString)) <$> String.list_ascii_of_string s
  end.

(** [itertools.chain] over the unpacked [path_strings], as a list. *)
Definition chain (path_strings : list pyval) : list pyval :=
  path_strings ≫= iter_items.

(** The loop [while listdepth(path_strings) > 1] (lines 1042-1046). *)
Fixpoint flatten_while (fuel : nat) (path_strings : list pyval) : option (list pyval) :=
  depth ← listdepth (PList path_strings);
  if bool_decide (1 < depth)%nat then
    match fuel with
    | O => None
    | S fuel' => flatten_while fuel' (chain path_strings)
    end
  else Some path_strings.

(** The pairs (element, remaining elements) of a list, by position. *)
Fixpoint select_each {A : Type} (l : list A) : list (A * list A) :=
  match l with
  | [] => []
  | x :: r => (x, r) :: ((λ yr : A * list A, (yr.1, x :: yr.2)) <$> select_each r)
  end.

(** [itertools.permutations(l)]: all orderings, in lexicographic order of
    the positions. *)
Fixpoint permutations_of_length {A : Type} (n : nat) (l : list A) : list (list A) :=
  match n with
  | O => [[]]
  | S n' => select_each l ≫= λ xr, cons xr.1 <$> permutations_of_length n' xr.2
  end.

Definition itertools_permutations {A : Type} (l : list A) : list (list A) :=
  permutations_of_length (length l) l.

(** Lines 1018-1021 and 1028-1031: append a node and a colon, unless the node
    already ends with one. *)
Definition add_node (acc node : string) : option string :=
  c ← last_char node;
  if Ascii.eqb c ":" then Some (acc +:+ node) else Some (acc +:+ node +:+ ":").

(** Lines 1036-1039: both branches append a colon. *)
Definition add_option (step : string) : option string :=
  c ← last_char step;
  if Ascii.eqb c ":" then Some (step +:+ ":") else Some (step +:+ ":").

Definition parse_mission (mission_fragment : string) : option (list pyval) :=
  path_strings ←
    (if contains "+" mission_fragment then
       let actions := split "+" mission_fragment in
       let permutations := itertools_permutations actions in
       options ← mapM (λ combo, for_each add_node combo EmptyString) permutations;
       Some [PList (PStr <$> options)]
     else if contains "_" mission_fragment then
       let actions := split "_" mission_fragment in
       mystring ← for_each add_node actions EmptyString;
       Some [PStr mystring]
     else if contains "," mission_fragment then
       let actions := split "," mission_fragment in
       steps ← mapM add_option actions;
       Some (PStr <$> steps)
     else Some [PStr mission_fragment]);
  depth ← listdepth (PList path_strings);
  flatten_while depth path_strings.

(** ** Python floats

    The three operations of the report and of [perm] on doubles. *)
Definition float_add : spec_float → spec_float → spec_float := SFadd 53 1024.
Definition float_mul : spec_float → spec_float → spec_float := SFmul 53 1024.
Definition float_div : spec_float → spec_float → spec_float := SFdiv 53 1024.

(** The exact value of a finite double. *)
Definition float_value (x : spec_float) : option Q :=
  match x with
  | S754_zero _ => Some 0%Q
  | S754_finite s m e => Some (inject_Z (cond_Zopp s (Zpos m)) * Qpower 2 e)%Q
  | S754_infinity _ | S754_nan => None
  end.

(** An integer as a float with exponent 0; it is not normalised, and is
    only used as an operand of [float_div], which rounds the exact quotient
    of any two mantissas. *)
Definition int_as_float (n : Z) : spec_float :=
  match n with
  | Z0 => S754_zero false
  | Zpos p => S754_finite false p 0
  | Zneg p => S754_finite true p 0
  end.

(** [float(s)] for a decimal numeral [s] that denotes the rational [q], and
    a float literal: the double nearest to [q], infinite when [q] is too
    large. *)
Definition nearest_float (q : Q) : spec_float :=
  float_div (int_as_float (Qnum q)) (int_as_float (Zpos (Qden q))).

(** The double nearest to an integer: the conversion of an [int] operand.
    [negative_zero] is the sign given to zero. *)
Definition int_to_float (n : Z) (negative_zero : bool) : spec_float :=
  binary_normalize 53 1024 n 0 negative_zero.

(** An [int] operand of mixed arithmetic, as in [d * ascend_fatigue]: an
    integer too large for a double raises [OverflowError]. *)
Definition float_of_int (n : Z) : option spec_float :=
  match int_to_float n false with
  | S754_infinity _ => None
  | x => Some x
  end.

(** [a / b] on two [int]s: the double nearest to the quotient;
    [ZeroDivisionError] for [b = 0], [OverflowError] when the quotient is
    too large. *)
Definition int_true_div (a b : Z) : option spec_float :=
  if bool_decide (b = 0) then None
  else match float_div (int_as_float a) (int_as_float b) with
       | S754_infinity _ => None
       | q => Some q
       end.

(** [round(x)]: to the nearest integer, ties to the even one. *)
Definition py_round (x : Q) : Z :=
  let f := Qfloor x in
  match (x - inject_Z f ?= 1 # 2)%Q with
  | Lt => f
  | Gt => f + 1
  | Eq => if Z.even f then f else f + 1
  end.

(** [int(x)]: truncation toward zero. *)
Definition py_int (x : Q) : Z := Z.quot (Qnum x) (Zpos (Qden x)).

(** [round(x)] and [int(x)] on a float: both work on its exact value and
    raise on an infinity ([OverflowError]) and on a NaN ([ValueError]). *)
Definition float_round (x : spec_float) : option Z := py_round <$> float_value x.
Definition float_int (x : spec_float) : option Z := py_int <$> float_value x.

(** ** Travel time of one edge: Step 4 of [generate_paths] (lines 686-699) *)

(** The three constants of the report, as the numbers the configuration
    gives: [adv_speed] is an [int] (lines 1658 and 1680); the two fatigue
    factors are turned into floats (lines 1662-1663 and 1688-1690), which
    [move_time] does where it reads them. *)
Record setup := {
  adv_speed : Z;
  ascend_fatigue : Q;
  descend_fatigue : Q
}.

(** Lines 687-699 for one pair of consecutive nodes.  [ABN] and [delta_H]
    hold the numbers of the connection file as they are written there;
    [get_all_nodes] stores each as a float (lines 1085-1086), which is done
    here where the value is read.  A missing edge key, a zero speed and a
    value that is not finite raise. *)
Definition move_time (ABN delta_H : gmap string Q) (cfg : setup)
    (last_node node : string) : option Z :=
  let key := last_node +:+ "-" +:+ node in
  '(move_dist, d) ←
    (if String.eqb key "start-PA" then Some (0, 0)
     else a ← ABN !! key;
          move_dist ← float_round (nearest_float a);
          h ← delta_H !! key;
          d ← float_round (nearest_float h);
          Some (move_dist, d));
  fd ← float_of_int d;
  let vertical :=
    if bool_decide (0 < d) then float_mul fd (nearest_float (ascend_fatigue cfg))
    else float_mul fd (nearest_float (descend_fatigue cfg)) in
  q ← int_true_div move_dist (adv_speed cfg);
  float_int (float_add (float_add q vertical) (nearest_float (51 # 1000))).

(** ** More string helpers: [find], [rfind], slices, number formats *)

Fixpoint find_from (c : ascii) (s : string) (i : Z) : Z :=
  match s with
  | EmptyString => -1
  | String a r => if Ascii.eqb a c then i else find_from c r (i + 1)
  end.

(** [s.find(c)] for a one-character string [c]: [-1] when absent. *)
Definition find (c : ascii) (s : string) : Z := find_from c s 0.

Fixpoint rfind_from (c : ascii) (s : string) (i best : Z) : Z :=
  match s with
  | EmptyString => best
  | String a r => rfind_from c r (i + 1) (if Ascii.eqb a c then i else best)
  end.

(** [s.rfind(c)]. *)
Definition rfind (c : ascii) (s : string) : Z := rfind_from c s 0 (-1).

(** A slice bound as Python normalises it: negative bounds count from the
    end, and every bound is clipped to the string. *)
Definition clip (len i : Z) : Z :=
  if bool_decide (i < 0) then Z.max 0 (i + len) else Z.min i len.

(** [s[lo:hi]]; [None] is an omitted bound. *)
Definition slice (lo hi : option Z) (s : string) : string :=
  let len := Z.of_nat (String.length s) in
  let a := from_option (clip len) 0 lo in
  let b := from_option (clip len) len hi in
  String.substring (Z.to_nat a) (Z.to_nat (b - a)) s.

(** [s.replace(a, b)] for one-character strings. *)
Fixpoint replace_char (a b : ascii) (s : string) : string :=
  match s with
  | EmptyString => EmptyString
  | String c r => String (if Ascii.eqb c a then b else c) (replace_char a b r)
  end.

(** [l.remove(x)]: the first occurrence goes. *)
Fixpoint remove_first {A : Type} `{EqDecision A} (x : A) (l : list A) : list A :=
  match l with
  | [] => []
  | y :: r => if decide (y = x) then r else y :: remove_first x r
  end.

(** ** Step 1A of [generate_paths]: the scheduling loop (lines 379-416) *)

Record sched_config := {
  n_processors : Z;
  node_id : list string;
  current_directory : string
}.

(** Where the main process stands in [while queue or working: for ... in queue]. *)
Inductive control :=
  | AtWhile
  | InFor (index : nat)
  | AfterLoop.

(** [queue], [working], [ready4dict] and [step1_log] are the lists of the
    source ([working] and [ready4dict] are shared with the workers).
    [started] lists the segments a worker process was started for, and
    [running] the [pathdata] files of the workers that have not finished. *)
Record sched := {
  queue : list string;
  working : list string;
  ready4dict : list string;
  step1_log : list string;
  started : list string;
  running : list string;
  at_line : control
}.

Definition pathdata_filename (cfg : sched_config) (my_segment : string) : string :=
  current_directory cfg +:+ "\Path_Files\PathData_" +:+ replace_char ":" "_" my_segment +:+ ".txt".

(** [k1] and [k2] of lines 389-391. *)
Definition segment_from (my_segment : string) : string :=
  slice None (Some (find ":" my_segment)) my_segment.

Definition segment_to (my_segment : string) : string :=
  slice (Some (find ":" my_segment + 1)) None my_segment.

(** Body of [for my_segment in queue] (lines 381-416); time stamps are left
    out of the log lines. *)
Definition for_body (cfg : sched_config) (st : sched) (my_segment : string) : sched :=
  if bool_decide (Z.of_nat (length (working st)) < n_processors cfg - 1) then
    let f_pathdata := pathdata_filename cfg my_segment in
    let working1 := working st ++ [f_pathdata] in
    let log1 := step1_log st ++ ["Finding paths for " +:+ my_segment] in
    let k1 := segment_from my_segment in
    let k2 := segment_to my_segment in
    if bool_decide (k1 ∈ node_id cfg) && bool_decide (k2 ∈ node_id cfg) then
      {| queue := remove_first my_segment (queue st);
         working := working1;
         ready4dict := ready4dict st;
         step1_log := log1;
         started := started st ++ [my_segment];
         running := running st ++ [f_pathdata];
         at_line := at_line st |}
    else
      let log2 := if bool_decide (k1 ∈ node_id cfg) then log1
                  else log1 ++ [k1 +:+ " is not in node_id - skipping"] in
      let log3 := if bool_decide (k2 ∈ node_id cfg) then log2
                  else log2 ++ [k2 +:+ " is not in node_id - skipping"] in
      {| queue := queue st;
         working := working1;
         ready4dict := ready4dict st;
         step1_log := log3;
         started := started st;
         running := running st;
         at_line := at_line st |}
  else st.

Definition set_line (st : sched) (c : control) : sched :=
  {| queue := queue st; working := working st; ready4dict := ready4dict st;
     step1_log := step1_log st; started := started st; running := running st;
     at_line := c |}.

(** The end of a worker ([save_this_data], lines 1462-1463): its file is
    appended to [ready4dict] and removed from [working]. *)
Definition worker_finishes (st : sched) (pathdata_file : string) : sched :=
  {| queue := queue st;
     working := remove_first pathdata_file (working st);
     ready4dict := ready4dict st ++ [pathdata_file];
     step1_log := step1_log st;
     started := started st;
     running := remove_first pathdata_file (running st);
     at_line := at_line st |}.

(** One step of the main process or of a worker.  The [for] loop reads
    [queue] by position, as Python's list iterator does while the body
    removes items. *)
Inductive sched_step (cfg : sched_config) : sched → sched → Prop :=
  | step_enter st :
      at_line st = AtWhile →
      queue st ≠ [] ∨ working st ≠ [] →
      sched_step cfg st (set_line st (InFor 0))
  | step_exit st :
      at_line st = AtWhile →
      queue st = [] →
      working st = [] →
      sched_step cfg st (set_line st AfterLoop)
  | step_body st i my_segment :
      at_line st = InFor i →
      queue st !! i = Some my_segment →
      sched_step cfg st (set_line (for_body cfg st my_segment) (InFor (S i)))
  | step_leave st i :
      at_line st = InFor i →
      queue st !! i = None →
      sched_step cfg st (set_line st AtWhile)
  | step_worker st pathdata_file :
      pathdata_file ∈ running st →
      sched_step cfg st (worker_finishes st pathdata_file).

(** ** Mission assembler: [perm] (lines 1274-1347) *)

Definition digit_of (c : ascii) : option Z :=
  let n := nat_of_ascii c in
  if ((48 <=? n)%nat && (n <=? 57)%nat)%bool then Some (Z.of_nat (n - 48)) else None.

Fixpoint parse_digits (s : string) (acc : Z) : option Z :=
  match s with
  | EmptyString => Some acc
  | String c r => d ← digit_of c; parse_digits r (10 * acc + d)
  end.

(** [int(s)] on the numbers the segment files hold: optional blanks and
    sign, then decimal digits.  Any other text is taken to raise
    [ValueError]. *)
Definition parse_number (s : string) : option Z :=
  match strip s with
  | EmptyString => None
  | String c r =>
      if Ascii.eqb c "-" then
        match r with EmptyString => None | _ => Z.opp <$> parse_digits r 0 end
      else if Ascii.eqb c "+" then
        match r with EmptyString => None | _ => parse_digits r 0 end
      else parse_digits (String c r) 0
  end.

(** [float(s)] on the same texts (fractions and exponents do not occur in
    these files): the double nearest to the integer, infinite when it is too
    large; [-0] reads as the negative zero. *)
Definition float_of_text (s : string) : option spec_float :=
  match strip s with
  | EmptyString => None
  | String c r =>
      if Ascii.eqb c "-" then
        match r with
        | EmptyString => None
        | _ => n ← parse_digits r 0; Some (int_to_float (- n) true)
        end
      else if Ascii.eqb c "+" then
        match r with
        | EmptyString => None
        | _ => n ← parse_digits r 0; Some (int_to_float n false)
        end
      else n ← parse_digits (String c r) 0; Some (int_to_float n false)
  end.

(** ["{:.0f}".format(x)]: the exact value rounded to the nearest integer,
    ties to even, after the sign of the float. *)
Definition format_0f (x : spec_float) : string :=
  match x with
  | S754_nan => "nan"
  | S754_infinity s => if s then "-inf" else "inf"
  | S754_zero s => if s then "-0" else "0"
  | S754_finite s m e =>
      (if s then "-" else "") +:+ pretty (py_round (inject_Z (Zpos m) * Qpower 2 e)%Q)
  end.

(** [x > n] for a float [x] and an [int] [n]: the comparison of the two
    exact values; a NaN is not greater than anything. *)
Definition float_gt_int (x : spec_float) (n : Z) : bool :=
  match x with
  | S754_nan => false
  | S754_infinity s => negb s
  | _ => match float_value x with
         | Some v => match (inject_Z n ?= v)%Q with Lt => true | _ => false end
         | None => false
         end
  end.

Fixpoint zeros (n : nat) : string :=
  match n with
  | O => EmptyString
  | S n' => String "0" (zeros n')
  end.

(** [s.zfill(width)]: the zeros go after a leading sign. *)
Definition zfill (width : nat) (s : string) : string :=
  let pad := zeros (width - String.length s) in
  match s with
  | String c r =>
      if (Ascii.eqb c "-" || Ascii.eqb c "+")%bool then String c (pad +:+ r) else pad +:+ s
  | EmptyString => pad
  end.

(** Body of [for i in range(0, len(toolvalues1) - 1)] (lines 1323-1325). *)
Definition merge_tool (toolvalues1 : list string) (toolvalues2 : list string) (i : nat)
    : option (list string) :=
  s1 ← toolvalues1 !! i;
  v1 ← parse_number s1;
  s2 ← toolvalues2 !! i;
  v2 ← parse_number s2;
  if bool_decide (v2 < v1) then Some (<[i := s1]> toolvalues2) else Some toolvalues2.

(** Lines 1298-1335: the combination of one item of the next-to-last list
    ([item2]) with one item of the last list ([item1]).  The three totals
    are read as floats, added as floats and written with ["{:.0f}"]; the
    tool weights are read as [int]s.  The result is the flag [valid] and the
    new string. *)
Definition combine_items (t c nc : Z) (item2 item1 : string) : option (bool * string) :=
  let values1 := split "," (slice (Some 1) (Some (find "]" item1)) item1) in
  let values2 := split "," (slice (Some 1) (Some (find "]" item2)) item2) in
  t1 ← values1 !! 0%nat ≫= float_of_text;
  t2 ← values2 !! 0%nat ≫= float_of_text;
  c1 ← values1 !! 1%nat ≫= float_of_text;
  c2 ← values2 !! 1%nat ≫= float_of_text;
  w1 ← values1 !! 2%nat ≫= float_of_text;
  w2 ← values2 !! 2%nat ≫= float_of_text;
  let new_ET := float_add t1 t2 in
  let new_consum := float_add c1 c2 in
  let new_nonconsum := float_add w1 w2 in
  let new_values :=
    "[" +:+ zfill 5 (format_0f new_ET) +:+ "," +:+ zfill 3 (format_0f new_consum) +:+ ","
        +:+ zfill 3 (format_0f new_nonconsum) +:+ "] " in
  let valid :=
    negb (float_gt_int new_ET t || float_gt_int new_consum c
          || float_gt_int new_nonconsum nc) in
  let toolvalues1 :=
    split "," (slice (Some (rfind "<" item1 + 1)) (Some (find ">" item1)) item1) in
  let toolvalues2 :=
    split "," (slice (Some (rfind "<" item2 + 1)) (Some (find ">" item2)) item2) in
  merged ← for_each (merge_tool toolvalues1) (seq 0 (length toolvalues1 - 1)) toolvalues2;
  let new_toolstring := "<" +:+ join "," merged +:+ ">" in
  let path1 := slice (Some (rfind ">" item1 + 1)) None item1 in
  let path1 := slice (Some (find "-" path1)) None path1 in
  let path2 := slice (Some (rfind ">" item2 + 1)) None item2 in
  let new_items := path2 +:+ path1 in
  Some (valid, new_values +:+ new_toolstring +:+ new_items).

(** *** The store of list objects

    [perm] works on a list of lists and copies it only one level deep, so the
    lists are modelled as objects in a store: a list object holds strings or
    references to other list objects. *)
Definition loc := nat.

Inductive pyobj :=
  | ListOfLists (items : list loc)
  | ListOfStr (items : list string).

(** The store and the text appended to [Invalid_Paths.txt]. *)
Record world := {
  heap : gmap loc pyobj;
  invalid_file : list string
}.

(** A computation on the store that may raise: the store is kept in both
    outcomes. *)
Definition py (A : Type) : Type := world → world * option A.

Definition py_ret {A : Type} (a : A) : py A := λ w, (w, Some a).

Definition py_bind {A B : Type} (m : py A) (k : A → py B) : py B :=
  λ w, match m w with
       | (w', Some a) => k a w'
       | (w', None) => (w', None)
       end.

Definition py_raise {A : Type} : py A := λ w, (w, None).

Definition py_lift {A : Type} (o : option A) : py A := λ w, (w, o).

Notation "'py_do' x ← m ; k" := (py_bind m (λ x, k))
  (at level 20, x name, m at level 100, k at level 200, only parsing).

(** A new list object. *)
Definition new_object (o : pyobj) : py loc :=
  λ w, let l := fresh (dom (heap w)) in
       ({| heap := <[l := o]> (heap w); invalid_file := invalid_file w |}, Some l).

Definition read_object (l : loc) : py pyobj := λ w, (w, heap w !! l).

(** An update in place of the object at [l]. *)
Definition write_object (l : loc) (o : pyobj) : py unit :=
  λ w, ({| heap := <[l := o]> (heap w); invalid_file := invalid_file w |}, Some tt).

Definition read_lists (l : loc) : py (list loc) :=
  py_do o ← read_object l;
  match o with ListOfLists items => py_ret items | ListOfStr _ => py_raise end.

Definition read_strings (l : loc) : py (list string) :=
  py_do o ← read_object l;
  match o with ListOfStr items => py_ret items | ListOfLists _ => py_raise end.

(** [invalid.writelines(line)]. *)
Definition write_invalid (line : string) : py unit :=
  λ w, ({| heap := heap w; invalid_file := invalid_file w ++ [line] |}, Some tt).

(** A [for] loop in [py]. *)
Fixpoint py_for {A : Type} (body : A → py unit) (l : list A) : py unit :=
  match l with
  | [] => py_ret tt
  | x :: r => py_do _ ← body x; py_for body r
  end.

(** [not my_segment] for a list object. *)
Definition is_empty_list (l : loc) : py bool :=
  py_do o ← read_object l;
  match o with
  | ListOfLists items => py_ret (bool_decide (items = []))
  | ListOfStr items => py_ret (bool_decide (items = []))
  end.

(** Lines 1283-1287: is one of the lists empty?  The loop stops at the first. *)
Fixpoint any_empty (segments : list loc) : py bool :=
  match segments with
  | [] => py_ret false
  | my_segment :: r =>
      py_do e ← is_empty_list my_segment;
      if e then py_ret true else any_empty r
  end.

(** [result[-1][0] == ""] (line 1288). *)
Definition first_is_blank (l : loc) : py bool :=
  py_do o ← read_object l;
  match o with
  | ListOfStr (s :: _) => py_ret (bool_decide (s = EmptyString))
  | ListOfLists (_ :: _) => py_ret false
  | _ => py_raise
  end.

(** [l[-k]] for [k = 1, 2]. *)
Definition from_end {A : Type} (k : nat) (l : list A) : option A :=
  if bool_decide (k ≤ length l)%nat then l !! (length l - k)%nat else None.

(** Lines 1298-1339 for one pair of items: the new string goes to [new_list]
    or to the invalid file. *)
Definition combine_into (t c nc : Z) (new_list : loc) (item2 item1 : string) : py unit :=
  py_do r ← py_lift (combine_items t c nc item2 item1);
  if r.1 then
    py_do items ← read_strings new_list;
    write_object new_list (ListOfStr (items ++ [r.2]))
  else write_invalid r.2.

(** One round of the loop [while n > 1] (lines 1292-1345): the last two
    lists are combined into one.  The value is the new [n]. *)
Definition perm_round (t c nc : Z) (result new_list : loc) : py nat :=
  py_do lists ← read_lists result;
  py_do list1 ← py_lift (from_end 1 lists);
  py_do list2 ← py_lift (from_end 2 lists);
  py_do items2 ← read_strings list2;
  py_do _ ← py_for (λ item2,
         py_do items1 ← read_strings list1;
         py_for (combine_into t c nc new_list item2) items1) items2;
  py_do lists ← read_lists result;
  py_do _ ← (if bool_decide (1 < length lists)%nat then
         py_do items ← read_strings new_list;
         py_do copy ← new_object (ListOfStr items);
         py_do _ ← write_object result
                (ListOfLists (removelast (<[(length lists - 2)%nat := copy]> lists)));
         write_object new_list (ListOfStr [])
       else py_ret tt);
  py_do lists ← read_lists result;
  py_ret (length lists).

(** The loop [while n > 1] (lines 1291-1345). *)
Fixpoint perm_loop (fuel : nat) (t c nc : Z) (result new_list : loc) (n : nat) : py unit :=
  if bool_decide (1 < n)%nat then
    match fuel with
    | O => py_raise
    | S fuel' =>
        py_do n' ← perm_round t c nc result new_list;
        perm_loop fuel' t c nc result new_list n'
    end
  else py_ret tt.

(** [perm(scenario, t, c, nc)]; the value is the list object returned. *)
Definition perm (scenario : loc) (t c nc : Z) : py loc :=
  py_do segments ← read_lists scenario;
  py_do result ← new_object (ListOfLists segments);
  let n := length segments in
  py_do e ← any_empty segments;
  if e then new_object (ListOfLists [])
  else
    py_do last_list ← py_lift (from_end 1 segments);
    py_do blank ← first_is_blank last_list;
    py_do _ ← (if blank then write_object result (ListOfLists (removelast segments))
         else py_ret tt);
    py_do new_list ← new_object (ListOfStr []);
    py_do _ ← perm_loop n t c nc result new_list n;
    py_ret result.

(** ** Notions used to state the properties *)

(** [y] is listed among the neighbours of [x]. *)
Definition edge (g : gmap nat (list nat)) (x y : nat) : Prop :=
  ∃ neighbours, g !! x = Some neighbours ∧ y ∈ neighbours.

(** Consecutive nodes are joined by edges. *)
Fixpoint is_walk (g : gmap nat (list nat)) (p : list nat) : Prop :=
  match p with
  | [] => True
  | x :: r =>
      match r with
      | [] => True
      | y :: _ => edge g x y ∧ is_walk g r
      end
  end.

(** A simple path from [s] to [d]: a walk with no repeated node. *)
Definition simple_path (g : gmap nat (list nat)) (s d : nat) (p : list nat) : Prop :=
  head p = Some s ∧ last p = Some d ∧ NoDup p ∧ is_walk g p.

(** The paths the depth-first walk completes, in the order it completes
    them, when it enters [u] with [prefix] as the path so far. *)
Fixpoint dfs_paths (fuel : nat) (g : gmap nat (list nat)) (d : nat)
    (prefix : list nat) (u : nat) : list (list nat) :=
  match fuel with
  | O => []
  | S fuel' =>
      if bool_decide (u = d) then [prefix ++ [u]]
      else default [] (g !! u) ≫= λ i,
             if bool_decide (i ∈ prefix ++ [u]) then []
             else dfs_paths fuel' g d (prefix ++ [u]) i
  end.

(** What [load_g_from_file] and [get_all_breaches] establish: the two end
    points are node numbers, every node number has a neighbour list of node
    numbers, and every node identity has its breach time, consumable weight
    and at least the 19 tool weights the loop reads. *)
Record wf_datapack (dp : datapack) : Prop := {
  wf_start : (dp_start dp < length (dp_node_id dp))%nat;
  wf_dest : (dp_dest dp < length (dp_node_id dp))%nat;
  wf_graph : ∀ u, (u < length (dp_node_id dp))%nat →
      ∃ neighbours, dp_g dp !! u = Some neighbours
        ∧ ∀ i, i ∈ neighbours → (i < length (dp_node_id dp))%nat;
  wf_nodes : ∀ i raw_id, dp_node_id dp !! i = Some raw_id →
      is_Some (dp_node_consum dp !! strip raw_id)
      ∧ is_Some (dp_node_time dp !! strip raw_id)
      ∧ ∃ tools, dp_node_tools dp !! strip raw_id = Some tools ∧ (19 ≤ length tools)%nat
}.

(** The totals of the paths that pass the resource check, in order. *)
Definition admitted (dp : datapack) (paths : list (list nat)) : list totals :=
  omap (λ p, a ← path_totals dp p; if within_budgets dp a then Some a else None) paths.

(** The key of the segment a [datapack] asks for. *)
Definition requested_key (dp : datapack) : option string :=
  start_node ← dp_node_id dp !! dp_start dp;
  dest_node ← dp_node_id dp !! dp_dest dp;
  Some (start_node +:+ ":" +:+ dest_node).

(** The consumable weight and the breach time [node_consum] and [node_time]
    give for node number [i] (0 for a number that is not a node). *)
Definition node_consum_of (dp : datapack) (i : nat) : Z :=
  default 0 (raw_id ← dp_node_id dp !! i; dp_node_consum dp !! strip raw_id).

Definition node_time_of (dp : datapack) (i : nat) : Z :=
  default 0 (raw_id ← dp_node_id dp !! i; dp_node_time dp !! strip raw_id).

(** Weight [k] of the tools of node number [i]. *)
Definition node_tool_of (dp : datapack) (k i : nat) : Z :=
  default 0 (raw_id ← dp_node_id dp !! i;
             tools ← dp_node_tools dp !! strip raw_id;
             tools !! k).

Definition sum_over (f : nat → Z) (p : list nat) : Z :=
  foldr (λ i acc, f i + acc) 0 p.

(** [segment_pathdata[my_path] = my_list]. *)
Definition store_data (m : gmap string pathdata) (a : totals) : gmap string pathdata :=
  <[my_path a := totals_data a]> m.

(** [visited] marks exactly the nodes of [path], which has no repeated node
    and holds node numbers only. *)
Definition tracks (n : nat) (st : dfs_state) : Prop :=
  (∀ i, (i < n)%nat → visited st !! i = Some (bool_decide (i ∈ path st)))
  ∧ NoDup (path st)
  ∧ (∀ i, i ∈ path st → (i < n)%nat).


(** The node identities of a path, as the loop reads them. *)
Definition path_ids (dp : datapack) (p : list nat) : list string :=
  omap (λ i, strip <$> dp_node_id dp !! i) p.

(** A dash before every identity: what the loop appends after the first. *)
Definition dash_tail (ids : list string) : string :=
  foldr (λ id acc, "-" +:+ id +:+ acc) EmptyString ids.

(** ** The specification's formulas, in its own words

    These definitions follow the text of the specification, not the source;
    they are what the source is compared with. *)

(** "vertical_surcharge = delta_h * ascend_fatigue if delta_h > 0, else
    delta_h * descend_fatigue". *)
Definition spec_vertical_surcharge (cfg : setup) (delta_h : Q) : Q :=
  match (0 ?= delta_h)%Q with
  | Lt => (delta_h * ascend_fatigue cfg)%Q
  | _ => (delta_h * descend_fatigue cfg)%Q
  end.

(** "travel_time = round_down(distance / adv_speed + vertical_surcharge + 0.051)". *)
Definition spec_travel_time (cfg : setup) (distance delta_h : Q) : Z :=
  Qfloor (distance / inject_Z (adv_speed cfg) + spec_vertical_surcharge cfg delta_h
          + (51 # 1000))%Q.

(** "total_consumable = sum of consumable_weight of each distinct breached
    node after the first". *)
Definition spec_total_consumable (dp : datapack) (p : list nat) : Z :=
  sum_over (node_consum_of dp) (tail p).

(** The travel times of the edges of a path given by its node identities. *)
Fixpoint spec_travel_sum (ABN delta_H : gmap string Q) (cfg : setup) (ids : list string) : Z :=
  match ids with
  | [] => 0
  | a :: r =>
      match r with
      | [] => 0
      | b :: _ =>
          spec_travel_time cfg (default 0%Q (ABN !! (a +:+ "-" +:+ b)))
                               (default 0%Q (delta_H !! (a +:+ "-" +:+ b)))
          + spec_travel_sum ABN delta_H cfg r
      end
  end.

(** "total_time includes travel time for each edge traversed, plus breach
    time for the first visit of each node after the origin". *)
Definition spec_total_time (dp : datapack) (ABN delta_H : gmap string Q) (cfg : setup)
    (p : list nat) : Z :=
  spec_travel_sum ABN delta_H cfg (omap (λ i, dp_node_id dp !! i) p)
  + sum_over (node_time_of dp) (tail p).

(** ** Concrete facilities *)

(** Scenario A of the specification: one edge from [start] to [T1]; the
    breach of [T1] takes 100 s, 10 lb of consumables and one 5 lb tool, the
    first of the twenty. *)
Definition scenario_a : datapack := {|
  dp_start := 0;
  dp_dest := 1;
  dp_g := {[ 0%nat := [1%nat]; 1%nat := [] ]};
  dp_node_id := ["start"; "T1"]%string;
  dp_node_consum := {[ "start"%string := 0; "T1"%string := 10 ]};
  dp_node_time := {[ "start"%string := 0; "T1"%string := 100 ]};
  dp_node_tools := {[ "start"%string := replicate 21 0; "T1"%string := 5 :: replicate 19 0 ]};
  dp_max_time := 200;
  dp_max_consumables := 50;
  dp_max_weight := 50
|}.

(** Its edge table (11 ft, level) and the default speed and fatigue factors
    of [main]. *)
Definition scenario_a_ABN : gmap string Q := {[ "start-T1"%string := 11%Q ]}.
Definition scenario_a_delta_H : gmap string Q := {[ "start-T1"%string := 0%Q ]}.
Definition default_setup : setup :=
  {| adv_speed := 11; ascend_fatigue := 1 # 2; descend_fatigue := 1 # 20 |}.

(** The same facility with the 5 lb tool in the last of the twenty columns
    of the breach table. *)
Definition scenario_a_last_tool : datapack := {|
  dp_start := 0;
  dp_dest := 1;
  dp_g := {[ 0%nat := [1%nat]; 1%nat := [] ]};
  dp_node_id := ["start"; "T1"]%string;
  dp_node_consum := {[ "start"%string := 0; "T1"%string := 10 ]};
  dp_node_time := {[ "start"%string := 0; "T1"%string := 100 ]};
  dp_node_tools := {[ "start"%string := replicate 21 0; "T1"%string := replicate 19 0 ++ [5] ]};
  dp_max_time := 200;
  dp_max_consumables := 50;
  dp_max_weight := 50
|}.

(** Two targets reachable from [start] and from each other; the segment
    asked for goes from [T1] to [T2].  Each breach takes 50 s and 5 lb. *)
Definition two_targets : datapack := {|
  dp_start := 1;
  dp_dest := 2;
  dp_g := {[ 0%nat := [1%nat; 2%nat]; 1%nat := [2%nat]; 2%nat := [1%nat] ]};
  dp_node_id := ["start"; "T1"; "T2"]%string;
  dp_node_consum := {[ "start"%string := 0; "T1"%string := 5; "T2"%string := 5 ]};
  dp_node_time := {[ "start"%string := 0; "T1"%string := 50; "T2"%string := 50 ]};
  dp_node_tools := {[ "start"%string := replicate 21 0; "T1"%string := replicate 20 0;
                      "T2"%string := replicate 20 0 ]};
  dp_max_time := 2222;
  dp_max_consumables := 333;
  dp_max_weight := 444
|}.

(** Scenario B of the specification: the same facility with the targets
    named [A] and [B]; the segment asked for goes from [A] to [B]. *)
Definition scenario_b : datapack := {|
  dp_start := 1;
  dp_dest := 2;
  dp_g := {[ 0%nat := [1%nat; 2%nat]; 1%nat := [2%nat]; 2%nat := [1%nat] ]};
  dp_node_id := ["start"; "A"; "B"]%string;
  dp_node_consum := {[ "start"%string := 0; "A"%string := 5; "B"%string := 5 ]};
  dp_node_time := {[ "start"%string := 0; "A"%string := 50; "B"%string := 50 ]};
  dp_node_tools := {[ "start"%string := replicate 21 0; "A"%string := replicate 20 0;
                      "B"%string := replicate 20 0 ]};
  dp_max_time := 2222;
  dp_max_consumables := 333;
  dp_max_weight := 444
|}.

(** Three lines of a [PathData] file, in file order: the second is the
    fastest, the first the lightest, the third the slowest and heaviest. *)
Definition line_1 : pathdata_line :=
  {| mission := "start-N1-T1"; data_list := [5; 1; 1] ++ replicate 20 0 |}.
Definition line_2 : pathdata_line :=
  {| mission := "start-N2-T1"; data_list := [1; 2; 2] ++ replicate 20 0 |}.
Definition line_3 : pathdata_line :=
  {| mission := "start-N3-T1"; data_list := [9; 3; 3] ++ replicate 20 0 |}.

(** ** Notions used for the logic parser *)

(** A node identity as the logic file may use it: not empty and free of the
    operator characters and of the colon. *)
Definition is_node_id (s : string) : Prop :=
  s ≠ EmptyString
  ∧ contains "+" s = false
  ∧ contains "_" s = false
  ∧ contains "," s = false
  ∧ contains ":" s = false.

(** A waypoint sequence as a mission string: every node followed by a colon. *)
Fixpoint waypoints (nodes : list string) : string :=
  match nodes with
  | [] => EmptyString
  | node :: r => node +:+ ":" +:+ waypoints r
  end.

(** ** Notions used for the scheduling loop *)

(** One of the end points of the segment key is not a known node. *)
Definition unknown_endpoint (cfg : sched_config) (my_segment : string) : Prop :=
  segment_from my_segment ∉ node_id cfg ∨ segment_to my_segment ∉ node_id cfg.

(** A facility with the nodes [start] and [T1], four processors, and a queue
    that asks for the segment to [T1] and for one to [X9], which is not a
    node. *)
Definition small_site : sched_config :=
  {| n_processors := 4; node_id := ["start"; "T1"]%string; current_directory := "C:\run" |}.

Definition queue_with_unknown : sched :=
  {| queue := ["start:X9"; "start:T1"]%string; working := []; ready4dict := [];
     step1_log := []; started := []; running := []; at_line := AtWhile |}.

(** One pass of the loop over [queue_with_unknown] and the end of the worker
    it started. *)
Definition after_one_pass : sched :=
  set_line
    (worker_finishes
       (set_line (for_body small_site
                    (set_line (for_body small_site (set_line queue_with_unknown (InFor 0))
                                 "start:X9") (InFor 1))
                    "start:T1") (InFor 2))
       (pathdata_filename small_site "start:T1"))
    AtWhile.

(** ** Notions used for [perm] *)

(** The computation [m] leaves every object of [D] as it is, whether it
    returns or raises, and a value it returns satisfies [Q]. *)
Definition keeps (D : gset loc) {A : Type} (m : py A) (Q : A → Prop) : Prop :=
  ∀ w, D ⊆ dom (heap w) →
    (∀ l, l ∈ D → heap (m w).1 !! l = heap w !! l)
    ∧ D ⊆ dom (heap (m w).1)
    ∧ ∀ a, (m w).2 = Some a → Q a.

(** A scenario of two legs, one path for the first and two for the second. *)
Definition leg_1 : string :=
  "[00050,005,010], <005,000,000,000,000,000,000,000,000,000,000,000,000,000,000,000,000,000,000,007>, start-T1".
Definition leg_2a : string :=
  "[00100,010,013], <003,000,000,000,000,000,000,000,000,000,000,000,000,000,000,000,000,000,000,009>, T1-T2".
Definition leg_2b : string :=
  "[03000,010,013], <003,000,000,000,000,000,000,000,000,000,000,000,000,000,000,000,000,000,000,009>, T1-N1-T2".

Definition two_leg_world : world :=
  {| heap := {[ 0%nat := ListOfLists [1%nat; 2%nat];
                1%nat := ListOfStr [leg_1];
                2%nat := ListOfStr [leg_2a; leg_2b] ]};
     invalid_file := [] |}.

(** * Further parts of the program

    The definitions below embed the functions around the ones above: the
    loader of the graph ([load_g_from_file]), the list of connections of
    Step 1A, the helpers of the logic parser ([paren_depth], [deconstruct],
    [last_occurrence]) and the notions their properties are stated with. *)

(** ** Notions for the recorded totals *)

(** The largest value of [f] over the nodes of a path, 0 at least. *)
Definition max_over (f : nat → Z) (p : list nat) : Z :=
  foldr (λ i acc, Z.max (f i) acc) 0 p.

Definition sum_Z (l : list Z) : Z := foldr Z.add 0 l.

(** The totals of a path, written as sums over its nodes: the breach times
    and the consumable weights of all its nodes, the merged weight of each of
    the 20 tools, and the consumables plus the merged tools. *)
Definition path_time (dp : datapack) (p : list nat) : Z := sum_over (node_time_of dp) p.

Definition path_consum (dp : datapack) (p : list nat) : Z := sum_over (node_consum_of dp) p.

Definition path_tools (dp : datapack) (p : list nat) : list Z :=
  (λ k, max_over (node_tool_of dp k) p) <$> seq 0 20.

Definition path_weight (dp : datapack) (p : list nat) : Z :=
  path_consum dp p + sum_Z (path_tools dp p).

Definition path_data (dp : datapack) (p : list nat) : pathdata :=
  {| pd_time := path_time dp p; pd_consum := path_consum dp p;
     pd_weight := path_weight dp p; pd_tools := path_tools dp p |}.

(** The three budgets, on these totals. *)
Definition meets_budgets (dp : datapack) (p : list nat) : Prop :=
  path_consum dp p ≤ dp_max_consumables dp
  ∧ path_time dp p ≤ dp_max_time dp
  ∧ path_weight dp p ≤ dp_max_weight dp.

(** The identity of the origin has more than one character. *)
Definition long_origin (dp : datapack) : Prop :=
  ∃ raw_id, dp_node_id dp !! dp_start dp = Some raw_id
            ∧ (1 < String.length (strip raw_id))%nat.

(** The node identities are pairwise different and free of dashes. *)
Definition distinct_ids (dp : datapack) : Prop :=
  NoDup (strip <$> dp_node_id dp)
  ∧ Forall (λ raw_id, contains "-" (strip raw_id) = false) (dp_node_id dp).

(** No node needs the last of the 20 tools. *)
Definition last_tool_unused (dp : datapack) : Prop :=
  ∀ i, node_tool_of dp 19 i = 0.

(** The string of a path: its node identities joined by dashes. *)
Definition dashed_path (dp : datapack) (p : list nat) : string :=
  join "-" (path_ids dp p).

(** "total_weight = total_consumable + sum of tool_weights[i]", with
    "tool_weights[i] = max over distinct breached nodes of their
    tool_weights[i]", the breached nodes being those after the first. *)
Definition spec_total_weight (dp : datapack) (p : list nat) : Z :=
  spec_total_consumable dp p
  + sum_Z ((λ k, max_over (node_tool_of dp k) (tail p)) <$> seq 0 20).

(** "whose PathMetadata satisfies all three budget constraints". *)
Definition spec_within_budgets (dp : datapack) (ABN delta_H : gmap string Q) (cfg : setup)
    (p : list nat) : Prop :=
  spec_total_time dp ABN delta_H cfg p ≤ dp_max_time dp
  ∧ spec_total_consumable dp p ≤ dp_max_consumables dp
  ∧ spec_total_weight dp p ≤ dp_max_weight dp.

(** [two_targets] with 7 lb of consumables allowed, and scenario A with
    100 s allowed. *)
Definition two_targets_tight : datapack := {|
  dp_start := 1;
  dp_dest := 2;
  dp_g := dp_g two_targets;
  dp_node_id := dp_node_id two_targets;
  dp_node_consum := dp_node_consum two_targets;
  dp_node_time := dp_node_time two_targets;
  dp_node_tools := dp_node_tools two_targets;
  dp_max_time := 2222;
  dp_max_consumables := 7;
  dp_max_weight := 444
|}.

(** Two routes from [start] to [T1]: the edge itself, and the way over
    [N1], whose breach takes the time over the 200 s allowed. *)
Definition two_routes : datapack := {|
  dp_start := 0;
  dp_dest := 2;
  dp_g := {[ 0%nat := [1%nat; 2%nat]; 1%nat := [2%nat]; 2%nat := [] ]};
  dp_node_id := ["start"; "N1"; "T1"]%string;
  dp_node_consum := {[ "start"%string := 0; "N1"%string := 3; "T1"%string := 10 ]};
  dp_node_time := {[ "start"%string := 0; "N1"%string := 150; "T1"%string := 100 ]};
  dp_node_tools := {[ "start"%string := replicate 21 0; "N1"%string := 4 :: replicate 19 0;
                      "T1"%string := 5 :: replicate 19 0 ]};
  dp_max_time := 200;
  dp_max_consumables := 50;
  dp_max_weight := 50
|}.

Definition scenario_a_tight : datapack := {|
  dp_start := 0;
  dp_dest := 1;
  dp_g := dp_g scenario_a;
  dp_node_id := dp_node_id scenario_a;
  dp_node_consum := dp_node_consum scenario_a;
  dp_node_time := dp_node_time scenario_a;
  dp_node_tools := dp_node_tools scenario_a;
  dp_max_time := 100;
  dp_max_consumables := 50;
  dp_max_weight := 50
|}.

(** Scenario A asked backwards: from [T1], which has no neighbour, to
    [start]. *)
Definition scenario_a_back : datapack := {|
  dp_start := 1;
  dp_dest := 0;
  dp_g := dp_g scenario_a;
  dp_node_id := dp_node_id scenario_a;
  dp_node_consum := dp_node_consum scenario_a;
  dp_node_time := dp_node_time scenario_a;
  dp_node_tools := dp_node_tools scenario_a;
  dp_max_time := 200;
  dp_max_consumables := 50;
  dp_max_weight := 50
|}.

(** The state in which [print_all_paths] enters the recursion for
    [two_targets]: nothing visited, the path empty. *)
Definition two_targets_entry : dfs_state :=
  {| visited := {[ 0%nat := false; 1%nat := false; 2%nat := false ]}; path := [];
     found := {| segment_paths := ∅; segment_pathdata := ∅ |} |}.

(** ** Notions for the scheduling loop *)

(** What every step keeps: the queue only loses keys, a started key has two
    known end points and was queued, every running worker has its file in
    [working], and [working] holds fewer than [n_processors] files. *)
Definition sched_inv (cfg : sched_config) (st0 st : sched) : Prop :=
  queue st ⊆ queue st0
  ∧ (∀ k, k ∈ started st →
       k ∈ started st0
       ∨ (k ∈ queue st0 ∧ segment_from k ∈ node_id cfg ∧ segment_to k ∈ node_id cfg))
  ∧ (∃ leaked, working st ≡ₚ running st ++ leaked)
  ∧ Z.of_nat (length (working st))
    ≤ Z.max (Z.of_nat (length (working st0))) (n_processors cfg - 1).


(** ** Notions for [perm] *)

(** The object at [l] is a list with at least one item. *)
Definition nonempty_list_at (w : world) (l : loc) : Prop :=
  ∃ o, heap w !! l = Some o ∧ o ≠ ListOfLists [] ∧ o ≠ ListOfStr [].


(** ** Notions for the logic parser *)

(** A string free of the three operator characters of the logic file. *)
Definition operator_free (s : string) : Prop :=
  contains "+" s = false ∧ contains "_" s = false ∧ contains "," s = false.

(** ** The graph loader: [load_g_from_file] (lines 1383-1407) *)

(** The first loop (lines 1392-1395): every node identity gets its position
    as number, a later duplicate replacing an earlier one, and every number
    gets an empty neighbour list. *)
Fixpoint number_nodes (node_id : list string) (i : nat)
    (acc : gmap string nat * gmap nat (list nat)) : gmap string nat * gmap nat (list nat) :=
  match node_id with
  | [] => acc
  | node :: r => number_nodes r (S i) (<[node := i]> acc.1, <[i := []]> acc.2)
  end.

(** [k1] and [k2] of lines 1397-1399: the key is cut at its first dash. *)
Definition edge_from (k : string) : string :=
  slice None (Some (find "-" k)) k.

Definition edge_to (k : string) : string :=
  slice (Some (find "-" k + 1)) None k.

(** Body of the second loop (lines 1397-1407); a key that names an unknown
    node raises [KeyError]. *)
Definition add_connection (node_number : gmap string nat) (g : gmap nat (list nat))
    (k : string) : option (gmap nat (list nat)) :=
  x1 ← node_number !! edge_from k;
  x2 ← node_number !! edge_to k;
  let g_list := default [] (g !! x1) in
  Some (<[x1 := g_list ++ [x2]]> g).

(** [load_g_from_file]: [ABN_keys] are the keys of the dictionary [ABN] in
    the order of insertion; the value is [(node_number, g)]. *)
Definition load_g_from_file (node_id : list string) (ABN_keys : list string)
    : option (gmap string nat * gmap nat (list nat)) :=
  let numbered := number_nodes node_id 0 (∅, ∅) in
  g ← for_each (add_connection numbered.1) ABN_keys numbered.2;
  Some (numbered.1, g).

(** ** The connections Step 1A asks for (lines 339-344) *)

Definition needed_connections (TSet_targets : list string) : list string :=
  TSet_targets ≫= λ node1,
    ("start:" +:+ node1)
      :: ((λ node2, node1 +:+ ":" +:+ node2) <$> filter (λ node2, node1 ≠ node2) TSet_targets).

(** ** Helpers of the logic parser *)

(** [paren_depth] (lines 984-997): the loop, from the running depth
    [n_depth] and the largest depth seen [max_depth]. *)
Fixpoint paren_depth_from (line : string) (n_depth max_depth : Z) : Z :=
  match line with
  | EmptyString => max_depth
  | String c r =>
      let n1 := if Ascii.eqb c "(" then n_depth + 1 else n_depth in
      let n2 := if Ascii.eqb c ")" then n1 - 1 else n1 in
      paren_depth_from r n2 (if bool_decide (max_depth < n2) then n2 else max_depth)
  end.

Definition paren_depth (line : string) : Z := paren_depth_from line 0 0.

(** [last_occurrence] (lines 1236-1247). *)
Fixpoint last_occurrence_from (node : string) (path : list string) (i_loop foundit : nat) : nat :=
  match path with
  | [] => foundit
  | checknode :: r =>
      last_occurrence_from node r (S i_loop)
        (if decide (checknode = node) then i_loop else foundit)
  end.

Definition last_occurrence (node : string) (path : list string) : nat :=
  last_occurrence_from node path 0 0.

(** What the second loop keeps: the keys of [g] are the node numbers, and
    every neighbour is a node number. *)
Definition graph_over (n : nat) (g : gmap nat (list nat)) : Prop :=
  ∀ u, if bool_decide (u < n)%nat
       then ∃ ns, g !! u = Some ns ∧ ∀ i, i ∈ ns → (i < n)%nat
       else g !! u = None.


(** ** The node tables: [get_all_breaches] (lines 1092-1152) *)

(** The globals the function fills. *)
Record node_tables := {
  nt_node_id : list string;
  nt_node_time : gmap string Z;
  nt_node_consum : gmap string Z;
  nt_node_tools : gmap string (list Z)
}.

(** [s[0]]: raises on the empty string. *)
Definition first_char (s : string) : option ascii :=
  match s with
  | String c _ => Some c
  | EmptyString => None
  end.

(** Body of the loop over the lines of [Breaches.csv] (lines 1126-1132). *)
Definition read_technique (breach_techniques : gmap string string) (line : string)
    : option (gmap string string) :=
  let val := split "," line in
  my_key ← val !! 0%nat;
  if bool_decide (my_key ≠ "#"%string) && bool_decide (my_key ≠ EmptyString)
  then Some (<[my_key := join "," (take 22 (drop 1 val))]> breach_techniques)
  else Some breach_techniques.

(** Body of the loop over the lines of [AON.csv] (lines 1135-1151): a blank
    line, a line with fewer than three fields, an unknown material and a
    technique with fewer than 22 numbers raise. *)
Definition read_node (breach_techniques : gmap string string) (tb : node_tables)
    (line0 : string) : option node_tables :=
  let line := strip line0 in
  let var := split "," line in
  c0 ← first_char line;
  if Ascii.eqb c0 "#" then Some tb
  else
    id0 ← var !! 0%nat;
    let id := strip id0 in
    matl ← var !! 2%nat;
    tech ← breach_techniques !! matl;
    let technique := split "," tech in
    t ← technique !! 0%nat ≫= parse_number;
    c ← technique !! 1%nat ≫= parse_number;
    tool ← mapM (λ i, technique !! i ≫= parse_number) (seq 2 20);
    Some {| nt_node_id := nt_node_id tb ++ [id];
            nt_node_time := <[id := t]> (nt_node_time tb);
            nt_node_consum := <[id := c]> (nt_node_consum tb);
            nt_node_tools := <[id := tool]> (nt_node_tools tb) |}.

(** The tables before the first line is read (lines 1111-1118). *)
Definition start_tables : node_tables :=
  {| nt_node_id := ["start"%string];
     nt_node_time := {[ "start"%string := 0 ]};
     nt_node_consum := {[ "start"%string := 0 ]};
     nt_node_tools := {[ "start"%string := replicate 21 0 ]} |}.

(** [get_all_breaches] on the lines of the two files. *)
Definition get_all_breaches (breach_lines aon_lines : list string) : option node_tables :=
  breach_techniques ← for_each read_technique breach_lines ∅;
  for_each (read_node breach_techniques) aon_lines start_tables.

(** [l.index(x)]: the first position of [x]; raises when [x] is not in [l]. *)
Definition list_index (x : string) (l : list string) : option nat :=
  fst <$> list_find (λ y, y = x) l.

(** The [datapack] of lines 393-405 for the segment [my_segment]; [None]
    stands for the branch of line 409, where none is built because an end
    point is not in [node_id]. *)
Definition make_datapack (tb : node_tables) (g : gmap nat (list nat))
    (max_time max_consumables max_weight : Z) (my_segment : string) : option datapack :=
  s ← list_index (segment_from my_segment) (nt_node_id tb);
  d ← list_index (segment_to my_segment) (nt_node_id tb);
  Some {| dp_start := s; dp_dest := d; dp_g := g;
          dp_node_id := nt_node_id tb;
          dp_node_consum := nt_node_consum tb;
          dp_node_time := nt_node_time tb;
          dp_node_tools := nt_node_tools tb;
          dp_max_time := max_time;
          dp_max_consumables := max_consumables;
          dp_max_weight := max_weight |}.

(** Every node of [node_id] is stripped of blanks and has its breach time,
    its consumable weight and at least 20 tool weights. *)
Definition tables_complete (tb : node_tables) : Prop :=
  ∀ id, id ∈ nt_node_id tb →
    strip id = id
    ∧ is_Some (nt_node_time tb !! id)
    ∧ is_Some (nt_node_consum tb !! id)
    ∧ ∃ tools, nt_node_tools tb !! id = Some tools ∧ (20 ≤ length tools)%nat.

(** A small facility on file: two breach techniques and two nodes. *)
Definition breaches_csv : list string :=
  ["#,Time,Consumables,Tools
";
   "Conc_30,270,35,5,0,0,0,0,0,0,0,0,0,0,0,0,0,0,0,0,0,0,7
";
   "Door,20,0,0,3,0,0,0,0,0,0,0,0,0,0,0,0,0,0,0,0,0,0
"]%string.

Definition aon_csv : list string :=
  ["# Node, Description, Material
";
   "T1 ,Vault wall,Conc_30
";
   " T2,Vault door,Door
"]%string.

(** The string is empty or begins with a character that is not a blank. *)
Definition starts_clean (s : string) : Prop :=
  match s with
  | String c _ => is_space c = false
  | EmptyString => True
  end.


(** ** The driver of the logic parser: [deconstruct] (lines 907-971) *)

(** ["::" in s]. *)
Fixpoint has_double_colon (s : string) : bool :=
  match s with
  | EmptyString => false
  | String c r =>
      match r with
      | String c' _ => (Ascii.eqb c ":" && Ascii.eqb c' ":") || has_double_colon r
      | EmptyString => false
      end
  end.

(** [s.replace("::", ":")]: from the left, every two colons become one. *)
Fixpoint replace_double_colon (s : string) : string :=
  match s with
  | EmptyString => EmptyString
  | String c r =>
      match r with
      | String c' r' =>
          if Ascii.eqb c ":" && Ascii.eqb c' ":" then String ":" (replace_double_colon r')
          else String c (replace_double_colon r)
      | EmptyString => String c EmptyString
      end
  end.

(** The scan of lines 938-961: the position of the first opening
    parenthesis that brings the running depth to [max_depth]. *)
Fixpoint find_group (mission : string) (j : nat) (n_depth max_depth : Z) : option nat :=
  match mission with
  | EmptyString => None
  | String c r =>
      if Ascii.eqb c "(" then
        if bool_decide (n_depth + 1 = max_depth) then Some j
        else find_group r (S j) (n_depth + 1) max_depth
      else find_group r (S j) (if Ascii.eqb c ")" then n_depth - 1 else n_depth) max_depth
  end.

(** Lines 943-956: the strings that replace the group opened at position
    [j]; adding a list to a string raises. *)
Definition expand_group (mission : string) (j : nat) : option (list string) :=
  let pre_mission := slice (Some 0) (Some (Z.of_nat j)) mission in
  let mission_fragment := slice (Some (Z.of_nat j + 1)) None mission in
  let r_paren := find ")" mission_fragment in
  let post_mission := slice (Some (r_paren + 1)) None mission_fragment in
  let mission_fragment := slice None (Some r_paren) mission_fragment in
  new_missions ← parse_mission mission_fragment;
  mapM (λ item,
          match item with
          | PStr item =>
              let new_string := pre_mission +:+ item +:+ post_mission in
              Some (if has_double_colon new_string then replace_double_colon new_string
                    else new_string)
          | PList _ => None
          end) new_missions.

(** The loop [while current_depth == max_depth] (lines 937-964); the value
    is the new [to_process]. *)
Fixpoint deconstruct_inner (fuel : nat) (mission : string) (max_depth current_depth : Z)
    (to_process : list string) : option (list string) :=
  if bool_decide (current_depth = max_depth) then
    match fuel with
    | O => None
    | S fuel' =>
        match find_group mission 0 0 max_depth with
        | Some j =>
            new ← expand_group mission j;
            deconstruct_inner fuel' mission max_depth (0 - 1) (tail (to_process ++ new))
        | None =>
            deconstruct_inner fuel' mission max_depth (current_depth - 1) (tail to_process)
        end
    end
  else Some to_process.

(** The loop [while len(to_process) > 0] (lines 920-964). *)
Fixpoint deconstruct_loop (fuel : nat) (to_process processed : list string)
    : option (list string) :=
  match to_process with
  | [] => Some processed
  | mission :: _ =>
      if bool_decide (length to_process = 1%nat) && bool_decide (mission = EmptyString)
      then Some processed
      else
        match fuel with
        | O => None
        | S fuel' =>
            let max_depth := paren_depth mission in
            '(mission, processed) ←
              (if bool_decide (max_depth = 0) then
                 c ← last_char mission;
                 let mission := if Ascii.eqb c ":" then mission else mission +:+ ":" in
                 Some (mission, processed ++ [mission])
               else Some (mission, processed));
            to_process ← deconstruct_inner fuel mission max_depth max_depth to_process;
            deconstruct_loop fuel' to_process processed
        end
  end.

Definition deconstruct (fuel : nat) (line : string) : option (list string) :=
  deconstruct_loop fuel [line] [].

(** A node identity as it may stand inside a group of the logic file: a node
    identity free of parentheses. *)
Definition group_node (s : string) : Prop :=
  is_node_id s ∧ contains "(" s = false ∧ contains ")" s = false.

(** A finished mission string: not empty, free of opening parentheses and
    of double colons, ending with a colon. *)
Definition finished_mission (s : string) : Prop :=
  contains "(" s = false ∧ last_char s = Some ":"%char ∧ has_double_colon s = false.

(** ** Step 2: the missions of a logic line (lines 549-563) *)

(** [s.replace(c, "")] for a one-character string [c]. *)
Fixpoint remove_char (c : ascii) (s : string) : string :=
  match s with
  | EmptyString => EmptyString
  | String a r => if Ascii.eqb a c then remove_char c r else String a (remove_char c r)
  end.

(** Lines 553-560: what is taken out of a mission string. *)
Definition clean_item (item : string) : string :=
  let item := if has_double_colon item then replace_double_colon item else item in
  let item := if contains "+" item then remove_char "+" item else item in
  let item := if contains "(" item then remove_char "(" item else item in
  if contains ")" item then remove_char ")" item else item.

(** Lines 553-563 for one item; [logic] is the line without its newline. *)
Definition add_mission (logic : string) (missions : list string) (item : string)
    : list string :=
  let item := clean_item item in
  if decide (item ∈ missions) then missions
  else missions ++ [item +:+ " (TSet= " +:+ logic +:+ ")"].

(** The loop [for item in new_mission_paths]. *)
Definition add_missions (logic : string) (missions new_mission_paths : list string)
    : list string :=
  foldl (add_mission logic) missions new_mission_paths.

(** ** Step 3: the legs of a mission (lines 597-614) *)

(** The loop [for node in tset_path_nodes]: it stops at an empty or blank
    node. *)
Fixpoint leg_keys (last_node : string) (tset_path_nodes : list string) : list string :=
  match tset_path_nodes with
  | [] => []
  | node :: r =>
      if bool_decide (node = EmptyString ∨ node = " "%string) then []
      else (last_node +:+ "-" +:+ node) :: leg_keys node r
  end.

(** The keys looked up in [eval_segments] for one entry of [missions]. *)
Definition mission_leg_keys (item : string) : list string :=
  let tset_loc := find "(" item in
  let tset_path := slice (Some 0) (Some (tset_loc - 1)) item in
  leg_keys "start" (split ":" tset_path).

(** [route_list_options] for one entry of [missions]: a missing key gives
    the empty list. *)
Definition route_list_options (eval_segments : gmap string (list string)) (item : string)
    : list (list string) :=
  (λ this_key, default [] (eval_segments !! this_key)) <$> mission_leg_keys item.

(** The keys of the legs through the way points [nodes], from [last_node]. *)
Fixpoint legs (last_node : string) (nodes : list string) : list string :=
  match nodes with
  | [] => []
  | node :: r => (last_node +:+ "-" +:+ node) :: legs node r
  end.

(** [eval_segments] with paths for the leg from [start] to [T1] only. *)
Definition one_leg_segments : gmap string (list string) :=
  {[ "start-T1"%string := [leg_1] ]}.

(** ** The reduced path strings: [list2string] (lines 1597-1608) *)

(** [list2string(this_path, this_data)]: [this_data] holds the 23 numbers of
    a line as text; [int()] of a missing or malformed one raises. *)
Definition list2string (this_path : string) (this_data : list string) : option string :=
  t ← this_data !! 0%nat ≫= parse_number;
  c ← this_data !! 1%nat ≫= parse_number;
  nc ← this_data !! 2%nat ≫= parse_number;
  let data_string :=
    "[" +:+ zfill 5 (pretty t) +:+ "," +:+ zfill 3 (pretty c) +:+ ","
        +:+ zfill 3 (pretty nc) +:+ "], <" in
  data_string ←
    for_each (λ data_string i,
                w ← this_data !! i ≫= parse_number;
                Some (data_string +:+ zfill 3 (pretty w) +:+ ","))
             (seq 3 19) data_string;
  w ← this_data !! 22%nat ≫= parse_number;
  Some (data_string +:+ zfill 3 (pretty w) +:+ ">, " +:+ this_path).

(** *** Notions for the path strings *)

(** A string of decimal digits. *)
Fixpoint all_digits (s : string) : bool :=
  match s with
  | EmptyString => true
  | String c r => match digit_of c with Some _ => all_digits r | None => false end
  end.

(** What a path string stands for: total time, consumables, total weight,
    the tool weights and the path. *)
Record path_item := {
  pi_time : Z;
  pi_consum : Z;
  pi_weight : Z;
  pi_tools : list Z;
  pi_path : string
}.

(** The text of a path string; [gap] is what stands between the closing
    bracket and the tools: a comma and a blank in the strings of
    [list2string], a blank in the strings [perm] builds. *)
Definition item_string (gap : string) (x : path_item) : string :=
  "[" +:+ zfill 5 (pretty (pi_time x)) +:+ "," +:+ zfill 3 (pretty (pi_consum x)) +:+ ","
      +:+ zfill 3 (pretty (pi_weight x)) +:+ "]" +:+ gap +:+ "<"
      +:+ join "," (zfill 3 ∘ pretty <$> pi_tools x) +:+ ">" +:+ ", " +:+ pi_path x.

(** Numbers that are not negative, at least one tool weight, and a path free
    of angle brackets. *)
Definition item_ok (x : path_item) : Prop :=
  0 ≤ pi_time x ∧ 0 ≤ pi_consum x ∧ 0 ≤ pi_weight x
  ∧ Forall (λ w, 0 ≤ w) (pi_tools x) ∧ pi_tools x ≠ []
  ∧ contains "<" (pi_path x) = false ∧ contains ">" (pi_path x) = false.

(** The tool weights [perm] keeps for two legs: the larger weight for all
    tools but the last of the later leg, and the weights of the earlier leg
    from there on. *)
Definition merged_tools (tools1 tools2 : list Z) : list Z :=
  zip_with Z.max (take (length tools1 - 1) tools1) tools2
  ++ drop (length tools1 - 1) tools2.

(** The three totals of a path string as text, and its tool weights as
    text. *)
Definition item_values (x : path_item) : string :=
  zfill 5 (pretty (pi_time x)) +:+ "," +:+ zfill 3 (pretty (pi_consum x)) +:+ ","
    +:+ zfill 3 (pretty (pi_weight x)).

Definition item_tools (x : path_item) : string :=
  join "," (zfill 3 ∘ pretty <$> pi_tools x).

(** The path string [perm] makes of an earlier leg [x2] and a later leg [x1]
    whose path continues with [rest] after its first node. *)
Definition combined_item (x2 x1 : path_item) (rest : string) : path_item :=
  {| pi_time := pi_time x1 + pi_time x2;
     pi_consum := pi_consum x1 + pi_consum x2;
     pi_weight := pi_weight x1 + pi_weight x2;
     pi_tools := merged_tools (pi_tools x1) (pi_tools x2);
     pi_path := pi_path x2 +:+ "-" +:+ rest |}.

(** Two legs as path items: [start] to [T1], and [T1] to [T2]. *)
Definition item_start_T1 : path_item :=
  {| pi_time := 50; pi_consum := 5; pi_weight := 10;
     pi_tools := [5; 0; 0; 0; 0; 0; 0; 0; 0; 0; 0; 0; 0; 0; 0; 0; 0; 0; 0; 7];
     pi_path := "start-T1" |}.

Definition item_T1_T2 : path_item :=
  {| pi_time := 100; pi_consum := 10; pi_weight := 13;
     pi_tools := [3; 0; 0; 0; 0; 0; 0; 0; 0; 0; 0; 0; 0; 0; 0; 0; 0; 0; 0; 9];
     pi_path := "T1-T2" |}.

(** The 23 numbers of the reduced line of [item_start_T1], as the reducer
    splits them off the line. *)
Definition data_start_T1 : list string :=
  [" 50"; " 5"; " 10"; " 5"]%string ++ replicate 18 " 0"%string ++ [" 7 "%string].

(** ** Notions for the combinations of two legs *)

(** What lines 1298-1339 make of an earlier item [x2] and a later item [x1]:
    the flag [valid] and the new string. *)
Definition combination (t c nc : Z) (x2 x1 : path_item) : bool * string :=
  (bool_decide (pi_time x1 + pi_time x2 ≤ t ∧ pi_consum x1 + pi_consum x2 ≤ c
                ∧ pi_weight x1 + pi_weight x2 ≤ nc),
   item_string " " (combined_item x2 x1 (edge_to (pi_path x1)))).

(** The three sums of two items are below [2 ^ 53], so that the floats
    that hold them are exact. *)
Definition totals_fit (x2 x1 : path_item) : Prop :=
  pi_time x1 + pi_time x2 < 2 ^ 53
  ∧ pi_consum x1 + pi_consum x2 < 2 ^ 53
  ∧ pi_weight x1 + pi_weight x2 < 2 ^ 53.

(** All combinations, in the order of the two loops: the earlier leg in the
    outer loop. *)
Definition combinations (t c nc : Z) (xs2 xs1 : list path_item) : list (bool * string) :=
  xs2 ≫= λ x2, combination t c nc x2 <$> xs1.

(** The strings that go to [new_list], and those that go to the invalid
    file. *)
Definition valid_of (combos : list (bool * string)) : list string :=
  omap (λ p : bool * string, if p.1 then Some p.2 else None) combos.

Definition invalid_of (combos : list (bool * string)) : list string :=
  omap (λ p : bool * string, if p.1 then None else Some p.2) combos.

(** The store while the two loops run: [new_list] holds [acc] and the invalid
    file [inv]. *)
Definition collecting (h0 : gmap loc pyobj) (new_list : loc) (acc inv : list string) : world :=
  {| heap := <[new_list := ListOfStr acc]> h0; invalid_file := inv |}.

(** The second path of the later leg of [two_leg_world]. *)
Definition item_T1_N1_T2 : path_item :=
  {| pi_time := 3000; pi_consum := 10; pi_weight := 13;
     pi_tools := [3; 0; 0; 0; 0; 0; 0; 0; 0; 0; 0; 0; 0; 0; 0; 0; 0; 0; 0; 9];
     pi_path := "T1-N1-T2" |}.

(** ** The targets of the logic file: [get_nodes_in_logic] (lines 1188-1233) *)

From stdpp Require sorting.

Definition newline : ascii := ascii_of_nat 10.

(** [s.lstrip(c)] and [s.strip(c)] for a one-character string [c]. *)
Fixpoint lstrip_char (c : ascii) (s : string) : string :=
  match s with
  | String a r => if Ascii.eqb a c then lstrip_char c r else s
  | EmptyString => EmptyString
  end.

Definition strip_char (c : ascii) (s : string) : string :=
  String.rev (lstrip_char c (String.rev (lstrip_char c s))).

(** The loop over the characters of a logic line (lines 1218-1222):
    parentheses are dropped and operators become blanks. *)
Fixpoint blank_operators (logic : string) : string :=
  match logic with
  | EmptyString => EmptyString
  | String my_char r =>
      if Ascii.eqb my_char "(" || Ascii.eqb my_char ")" then blank_operators r
      else String (if Ascii.eqb my_char "+" || Ascii.eqb my_char "_" || Ascii.eqb my_char ","
                   then " "%char else my_char)
                  (blank_operators r)
  end.

(** Lines 1227-1229 for one node. *)
Definition add_target (TSet_targets : list string) (node : string) : list string :=
  if bool_decide ((node ∉ TSet_targets) ∧ node ≠ EmptyString ∧ node ≠ " "%string)
  then TSet_targets ++ [node]
  else TSet_targets.

(** Lines 1210-1229 for one line of the file. *)
Definition line_targets (TSet_targets : list string) (line : string) : list string :=
  if bool_decide (find "#" line < 0) then
    let logic := strip_char newline line in
    let working := blank_operators logic in
    let these_nodes := if contains " " working then split " " working else [working] in
    foldl add_target TSet_targets these_nodes
  else TSet_targets.

(** [get_nodes_in_logic] on the lines of the file; [list.sort()] orders the
    strings character by character. *)
Definition get_nodes_in_logic (lines : list string) : list string :=
  sorting.merge_sort String.le (foldl line_targets [] lines).

(** A target as the function can return it: not empty, and free of blanks,
    parentheses, operators and the comment sign. *)
Definition clean_target (node : string) : Prop :=
  node ≠ EmptyString
  ∧ Forall (λ c, contains c node = false)
      [" "; "("; ")"; "+"; "_"; ","; "#"]%char.

(** A logic file of two lines and a comment. *)
Definition tsets_file : list string :=
  ["# target sets
"; "(T2+T1)
"; "((T1,T3)_T2)
"]%string.

(** The targets kept so far are pairwise different and clean. *)
Definition targets_ok (TSet_targets : list string) : Prop :=
  NoDup TSet_targets ∧ Forall clean_target TSet_targets.


(** ** Notions for floats *)

(** The double that holds the positive integer [n] of at most 53 binary
    digits: the mantissa is [n] shifted to 53 digits. *)
Definition normal_float (negative : bool) (n : Z) : spec_float :=
  S754_finite negative (Z.to_pos (n * 2 ^ (53 - Zdigits2 n))) (Zdigits2 n - 53).

(** The double that holds a natural number below [2 ^ 53]. *)
Definition small_float (n : Z) : spec_float :=
  if bool_decide (n = 0) then S754_zero false else normal_float false n.

(** Not below zero: a zero of either sign, a positive number, the positive
    infinity, or a NaN. *)
Definition not_negative (x : spec_float) : Prop :=
  match x with
  | S754_finite true _ _ | S754_infinity true => False
  | _ => True
  end.
(** * Properties *)

Set Warnings "-clear-no-such-hyp".

(** ** Strings *)

Lemma contains_app (c : ascii) (a b : string) :
  contains c (a +:+ b) = contains c a || contains c b.
Proof.
  induction a as [|x a IH]; simpl; [done|]. destruct (Ascii.eqb x c); [done|]. exact IH.
Qed.

Lemma contains_one (c x : ascii) :
  contains c (String x EmptyString) = Ascii.eqb x c.
Proof. simpl. by destruct (Ascii.eqb x c). Qed.

Lemma contains_join_sep (c : ascii) (ids : list string) :
  (2 ≤ length ids)%nat → contains c (join (String c EmptyString) ids) = true.
Proof.
  destruct ids as [|a [|b r]]; simpl; try lia. intros _.
  rewrite !contains_app, contains_one, Ascii.eqb_refl. by rewrite orb_true_r.
Qed.

Lemma contains_join_other (c sep : ascii) (ids : list string) :
  Forall (λ s, contains c s = false) ids → Ascii.eqb sep c = false →
  contains c (join (String sep EmptyString) ids) = false.
Proof.
  intros Hall Hne. induction Hall as [|a r Ha Hr IH]; [done|].
  destruct r as [|b r]; [done|].
  change (join (String sep EmptyString) (a :: b :: r))
    with (a +:+ String sep EmptyString +:+ join (String sep EmptyString) (b :: r)).
  rewrite !contains_app, contains_one, Ha, Hne, IH. done.
Qed.

Lemma split_no_sep (sep : ascii) (a : string) :
  contains sep a = false → split sep a = [a].
Proof.
  induction a as [|x a IH]; simpl; [done|].
  destruct (Ascii.eqb x sep); [done|]. intros H. by rewrite IH.
Qed.

Lemma split_app_sep (sep : ascii) (a b : string) :
  contains sep a = false →
  split sep (a +:+ String sep EmptyString +:+ b) = a :: split sep b.
Proof.
  induction a as [|x a IH]; simpl.
  - intros _. by rewrite Ascii.eqb_refl.
  - destruct (Ascii.eqb x sep); [done|]. intros H. by rewrite IH.
Qed.

(** [split] undoes [join] on strings that are free of the separator. *)
Lemma split_join (sep : ascii) (ids : list string) :
  Forall (λ s, contains sep s = false) ids → ids ≠ [] →
  split sep (join (String sep EmptyString) ids) = ids.
Proof.
  intros Hall. induction Hall as [|a r Ha Hr IH]; [done|]. intros _.
  destruct r as [|b r]; [by apply split_no_sep|].
  change (join (String sep EmptyString) (a :: b :: r))
    with (a +:+ String sep EmptyString +:+ join (String sep EmptyString) (b :: r)).
  rewrite split_app_sep by done. f_equal. by apply IH.
Qed.

Lemma last_char_other (c : ascii) (s : string) :
  s ≠ EmptyString → contains c s = false →
  ∃ a, last_char s = Some a ∧ Ascii.eqb a c = false.
Proof.
  induction s as [|x s IH]; [done|]. intros _ Hc. simpl in Hc.
  destruct (Ascii.eqb x c) eqn:E; [done|].
  destruct s as [|y s]; [by exists x|].
  destruct IH as (a & Ha & Hne); [done | done |]. by exists a.
Qed.

Lemma string_app_assoc (a b c : string) : (a +:+ b) +:+ c = a +:+ (b +:+ c).
Proof.
  induction a as [|x a IH]; [done|].
  change (String x ((a +:+ b) +:+ c) = String x (a +:+ b +:+ c)). by rewrite IH.
Qed.

Lemma string_app_empty_r (a : string) : a +:+ EmptyString = a.
Proof.
  induction a as [|x a IH]; [done|].
  change (String x (a +:+ EmptyString) = String x a). by rewrite IH.
Qed.

Lemma string_length_app (a b : string) :
  String.length (a +:+ b) = (String.length a + String.length b)%nat.
Proof.
  induction a as [|x a IH]; [done|].
  change (S (String.length (a +:+ b)) = S (String.length a + String.length b)).
  by rewrite IH.
Qed.

Lemma join_dash_tail (id : string) (ids : list string) :
  join "-" (id :: ids) = id +:+ dash_tail ids.
Proof.
  revert id. induction ids as [|id' ids IH]; intros id.
  - simpl. by rewrite string_app_empty_r.
  - change (join "-" (id :: id' :: ids)) with (id +:+ "-" +:+ join "-" (id' :: ids)).
    by rewrite IH.
Qed.


(** ** The path string *)

Lemma path_ids_cons (dp : datapack) (item : nat) (p : list nat) (raw_id : string) :
  dp_node_id dp !! item = Some raw_id →
  path_ids dp (item :: p) = strip raw_id :: path_ids dp p.
Proof. intros Hraw. unfold path_ids. cbn [omap list_omap]. by rewrite Hraw. Qed.

Lemma item_step_my_path (dp : datapack) (a a' : totals) (item : nat) :
  item_step dp a item = Some a' →
  ∃ raw_id, dp_node_id dp !! item = Some raw_id
    ∧ my_path a' = if bool_decide (1 < String.length (my_path a))%nat
                   then my_path a +:+ "-" +:+ strip raw_id
                   else strip raw_id.
Proof.
  unfold item_step. intros Hstep.
  destruct (dp_node_id dp !! item) as [raw_id|]; [|done]. cbn -[for_each seq] in Hstep.
  destruct (dp_node_consum dp !! strip raw_id) as [c|]; [|done]. cbn -[for_each seq] in Hstep.
  destruct (dp_node_time dp !! strip raw_id) as [t|]; [|done]. cbn -[for_each seq] in Hstep.
  destruct (dp_node_tools dp !! strip raw_id) as [tools|]; [|done]. cbn -[for_each seq] in Hstep.
  destruct (for_each (tool_step tools) (seq 0 19) (new_tools a, total_consum a + c))
    as [[tools' weight']|]; [|done].
  cbn in Hstep. injection Hstep as <-. by exists raw_id.
Qed.

Lemma my_path_appends (dp : datapack) (p : list nat) :
  ∀ a0 a, for_each (item_step dp) p a0 = Some a →
    (1 < String.length (my_path a0))%nat →
    my_path a = my_path a0 +:+ dash_tail (path_ids dp p).
Proof.
  induction p as [|item p IH]; intros a0 a Hloop Hlen.
  - simpl in Hloop. injection Hloop as <-. simpl. by rewrite string_app_empty_r.
  - cbn [for_each] in Hloop.
    destruct (item_step dp a0 item) as [a1|] eqn:Hstep; [|done]. cbn in Hloop.
    destruct (item_step_my_path dp a0 a1 item Hstep) as (raw_id & Hraw & Hp).
    rewrite bool_decide_eq_true_2 in Hp by done.
    rewrite (IH a1 a Hloop).
    + rewrite (path_ids_cons dp item p raw_id Hraw). cbn [dash_tail foldr].
      rewrite Hp. by rewrite !string_app_assoc.
    + rewrite Hp, string_length_app. lia.
Qed.

(** When the identity of the first node has more than one character, the
    string written for a path is its node identities joined by dashes. *)
Lemma my_path_is_joined (dp : datapack) (p : list nat) (a : totals)
    (first : nat) (raw_id : string) :
  path_totals dp p = Some a → head p = Some first →
  dp_node_id dp !! first = Some raw_id → (1 < String.length (strip raw_id))%nat →
  my_path a = join "-" (path_ids dp p).
Proof.
  intros Ht Hh Hraw Hlen. destruct p as [|u q]; [done|]. simpl in Hh. injection Hh as ->.
  unfold path_totals in Ht. cbn [for_each] in Ht.
  destruct (item_step dp totals0 first) as [a1|] eqn:Hstep; [|done]. cbn in Ht.
  destruct (item_step_my_path dp totals0 a1 first Hstep) as (raw' & Hraw' & Hp).
  rewrite Hraw in Hraw'. injection Hraw' as <-.
  rewrite bool_decide_eq_false_2 in Hp by (simpl; lia).
  rewrite (my_path_appends dp q a1 a Ht) by (by rewrite Hp).
  rewrite (path_ids_cons dp first q raw_id Hraw).
  by rewrite join_dash_tail, Hp.
Qed.
(** ** Loops *)

Lemma for_each_app {S A : Type} (body : S → A → option S) (l1 l2 : list A) (s : S) :
  for_each body (l1 ++ l2) s = for_each body l1 s ≫= for_each body l2.
Proof.
  revert s. induction l1 as [|x l1 IH]; intros s; simpl; [done|].
  destruct (body s x); simpl; [apply IH|done].
Qed.

Lemma nodup_bounded_length (l : list nat) (n : nat) :
  NoDup l → (∀ i, i ∈ l → i < n)%nat → (length l ≤ n)%nat.
Proof.
  intros Hnd Hb. rewrite <- (length_seq n 0%nat).
  apply submseteq_length, NoDup_submseteq; [done|].
  intros x Hx. apply elem_of_seq. specialize (Hb x Hx). lia.
Qed.

(** ** The depth-first walk completes exactly the simple paths *)

Lemma dfs_paths_sound (g : gmap nat (list nat)) (d : nat) (fuel : nat) :
  ∀ prefix u p,
    NoDup (prefix ++ [u]) →
    p ∈ dfs_paths fuel g d prefix u →
    ∃ q, p = prefix ++ u :: q ∧ is_walk g (u :: q) ∧ last (u :: q) = Some d ∧ NoDup p.
Proof.
  induction fuel as [|fuel IH]; intros prefix u p Hnd Hin; simpl in Hin.
  - by apply elem_of_nil in Hin.
  - case_bool_decide as Hud.
    + apply list_elem_of_singleton in Hin as ->. exists []. subst u. done.
    + apply list_elem_of_bind in Hin as (i & Hin & Hi).
      case_bool_decide as Hseen; [by apply elem_of_nil in Hin|].
      destruct (g !! u) as [ns|] eqn:Hg; simpl in Hi; [|by apply elem_of_nil in Hi].
      apply IH in Hin as (q & -> & Hw & Hl & Hnd').
      * exists (i :: q). rewrite <- app_assoc in *. simpl in *.
        split; [done|]. split; [|done]. split; [|done]. by exists ns.
      * apply NoDup_app. split; [done|]. split; [|apply NoDup_singleton].
        intros x Hx Hx'. apply list_elem_of_singleton in Hx' as ->. done.
Qed.

Lemma dfs_paths_complete (g : gmap nat (list nat)) (d : nat) (fuel : nat) :
  ∀ prefix u q,
    is_walk g (u :: q) → last (u :: q) = Some d → NoDup (prefix ++ u :: q) →
    (length (u :: q) ≤ fuel)%nat →
    prefix ++ u :: q ∈ dfs_paths fuel g d prefix u.
Proof.
  induction fuel as [|fuel IH]; intros prefix u q Hw Hl Hnd Hlen; [simpl in Hlen; lia|].
  simpl. case_bool_decide as Hud.
  - destruct q as [|i q]; [set_solver|]. exfalso. subst d.
    apply NoDup_app in Hnd as (_ & _ & Hnd). apply NoDup_cons in Hnd as [Hnot _].
    apply Hnot. rewrite last_cons_cons in Hl. apply last_Some_elem_of in Hl. done.
  - destruct q as [|i q]; [simpl in Hl; congruence|].
    destruct Hw as [(ns & Hg & Hi) Hw]. rewrite Hg. simpl.
    apply list_elem_of_bind. exists i. split; [|done].
    rewrite bool_decide_eq_false_2.
    + replace (prefix ++ u :: i :: q) with ((prefix ++ [u]) ++ i :: q) by by rewrite <- app_assoc.
      apply IH; [exact Hw | exact Hl | by rewrite <- app_assoc | simpl in *; lia].
    + intros Hin. replace (prefix ++ u :: i :: q) with ((prefix ++ [u]) ++ i :: q) in Hnd
        by by rewrite <- app_assoc.
      apply NoDup_app in Hnd as (_ & Hdisj & _). apply (Hdisj i Hin). set_solver.
Qed.

Lemma walk_bounded (g : gmap nat (list nat)) (n : nat) :
  (∀ u, (u < n)%nat → ∃ ns, g !! u = Some ns ∧ ∀ i, i ∈ ns → (i < n)%nat) →
  ∀ p u, (u < n)%nat → is_walk g (u :: p) → ∀ i, i ∈ u :: p → (i < n)%nat.
Proof.
  intros Hg p. induction p as [|v p IH]; intros u Hu Hw i Hi.
  - apply list_elem_of_singleton in Hi as ->. done.
  - apply elem_of_cons in Hi as [->|Hi]; [done|].
    destruct Hw as [(ns & Hgu & Hv) Hw].
    destruct (Hg u Hu) as (ns' & Hgu' & Hb). rewrite Hgu in Hgu'. injection Hgu' as <-.
    apply (IH v); auto.
Qed.

Lemma dfs_paths_simple (g : gmap nat (list nat)) (n s d fuel : nat) (p : list nat) :
  (∀ u, (u < n)%nat → ∃ ns, g !! u = Some ns ∧ ∀ i, i ∈ ns → (i < n)%nat) →
  (s < n)%nat → (n ≤ fuel)%nat →
  p ∈ dfs_paths fuel g d [] s ↔ simple_path g s d p.
Proof.
  intros Hg Hs Hfuel. split.
  - intros Hin. apply dfs_paths_sound in Hin as (q & -> & Hw & Hl & Hnd).
    + done.
    + apply NoDup_singleton.
  - intros (Hh & Hl & Hnd & Hw). destruct p as [|u q]; [done|].
    simpl in Hh. injection Hh as ->.
    apply (dfs_paths_complete g d fuel [] s q); [done..|].
    etrans; [|exact Hfuel]. apply nodup_bounded_length; [done|].
    by apply (walk_bounded g n Hg).
Qed.

(** ** [print_all_paths_util] records the paths of the walk, in order *)

Lemma tracks_enter (n : nat) (st : dfs_state) (u : nat) :
  tracks n st → (u < n)%nat → u ∉ path st →
  tracks n {| visited := <[u := true]> (visited st); path := path st ++ [u];
              found := found st |}.
Proof.
  intros (Hv & Hnd & Hb) Hu Hnot. split; [|split]; simpl.
  - intros i Hi. destruct (decide (i = u)) as [->|Hne].
    + rewrite lookup_insert_eq. rewrite bool_decide_eq_true_2; [done|]. set_solver.
    + rewrite lookup_insert_ne by done. rewrite Hv by done. f_equal.
      apply bool_decide_ext. set_solver.
  - apply NoDup_app. split; [done|]. split; [|apply NoDup_singleton]. set_solver.
  - intros i Hi. apply elem_of_app in Hi as [Hi|Hi]; [auto|]. set_solver.
Qed.

Section Refinement.
Variable dp : datapack.
Variable d : nat.
Hypothesis graph_ok : ∀ u, (u < length (dp_node_id dp))%nat →
  ∃ neighbours, dp_g dp !! u = Some neighbours
    ∧ ∀ i, i ∈ neighbours → (i < length (dp_node_id dp))%nat.

Lemma util_refines (fuel : nat) : ∀ u st,
  tracks (length (dp_node_id dp)) st → (u < length (dp_node_id dp))%nat → u ∉ path st →
  (length (dp_node_id dp) ≤ fuel + length (path st))%nat →
  print_all_paths_util fuel dp u d st =
    (sg ← for_each (record_path dp) (dfs_paths fuel (dp_g dp) d (path st) u) (found st);
     Some {| visited := visited st; path := path st; found := sg |}).
Proof.
  induction fuel as [|fuel IH]; intros u st Htr Hu Hnot Hfuel.
  - exfalso. destruct Htr as (_ & Hnd & Hb).
    assert (length (u :: path st) ≤ length (dp_node_id dp))%nat.
    { apply nodup_bounded_length; [by constructor|]. set_solver. }
    simpl in *. lia.
  - pose proof (tracks_enter _ st u Htr Hu Hnot) as Htr1.
    assert (Hback : <[u := false]> (<[u := true]> (visited st)) = visited st).
    { rewrite insert_insert_eq. apply insert_id. destruct Htr as (Hv & _).
      rewrite Hv by done. by rewrite bool_decide_eq_false_2. }
    simpl. case_bool_decide as Hud.
    + simpl. destruct (record_path dp (found st) (path st ++ [u])) as [sg|]; simpl; [|done].
      rewrite Hback, removelast_last. done.
    + destruct (graph_ok u Hu) as (ns & Hg & Hns). rewrite Hg. simpl.
      set (st1 := {| visited := <[u := true]> (visited st); path := path st ++ [u];
                     found := found st |}) in *.
      assert (Hloop : ∀ ns' sg, (∀ i, i ∈ ns' → (i < length (dp_node_id dp))%nat) →
        for_each (λ (s : dfs_state) (i : nat),
            match visited s !! i with
            | None => None
            | Some true => Some s
            | Some false => print_all_paths_util fuel dp i d s
            end) ns' {| visited := visited st1; path := path st1; found := sg |} =
        (sg' ← for_each (record_path dp)
                 (ns' ≫= λ i, if bool_decide (i ∈ path st1) then []
                               else dfs_paths fuel (dp_g dp) d (path st1) i) sg;
         Some {| visited := visited st1; path := path st1; found := sg' |})).
      { induction ns' as [|i ns' IHns]; intros sg Hb; [done|].
        assert (Htr' : tracks (length (dp_node_id dp))
                         {| visited := visited st1; path := path st1; found := sg |}) by done.
        simpl. destruct Htr' as (Hv' & _). simpl in Hv'.
        rewrite Hv' by set_solver. case_bool_decide as Hin.
        - simpl. apply IHns. set_solver.
        - rewrite IH; [| done | set_solver | done | simpl; rewrite length_app; simpl; lia ].
          simpl. rewrite for_each_app.
          destruct (for_each (record_path dp)
                      (dfs_paths fuel (dp_g dp) d (path st ++ [u]) i) sg) as [sg1|];
            simpl; [|done].
          apply IHns. set_solver. }
      change st1 with {| visited := visited st1; path := path st1; found := found st |} at 1.
      rewrite Hloop by done. simpl.
      match goal with
      | |- context [for_each ?b ?l ?s] => destruct (for_each b l s) as [sg'|]
      end; simpl; [|done].
      rewrite Hback, removelast_last. done.
Qed.
End Refinement.

(** ** The accumulation loop and the recording of a path *)

Lemma tool_loop_ok (old_tools : list Z) (k : nat) :
  ∀ a tools w, (a + k ≤ length old_tools)%nat → (a + k ≤ length tools)%nat →
  ∃ tools' w', for_each (tool_step old_tools) (seq a k) (tools, w) = Some (tools', w')
    ∧ length tools' = length tools.
Proof.
  induction k as [|k IH]; intros a tools w Ho Ht; simpl.
  - by exists tools, w.
  - destruct (lookup_lt_is_Some_2 old_tools a) as [o Ho']; [lia|].
    destruct (lookup_lt_is_Some_2 tools a) as [t Ht']; [lia|].
    rewrite Ho', Ht'. simpl.
    set (tools1 := if bool_decide (t < o) then <[a:=o]> tools else tools).
    assert (Hlen : length tools1 = length tools).
    { unfold tools1. case_bool_decide; [apply length_insert|done]. }
    destruct (lookup_lt_is_Some_2 tools1 a) as [t1 Ht1]; [lia|].
    rewrite Ht1. simpl.
    destruct (IH (S a) tools1 (w + t1)) as (tools' & w' & Heq & Hlen'); [lia..|].
    exists tools', w'. split; [done|]. congruence.
Qed.

Section Totals.
Variable dp : datapack.
Hypothesis Hwf : wf_datapack dp.

Lemma item_step_ok (a : totals) (item : nat) :
  (item < length (dp_node_id dp))%nat → length (new_tools a) = 20%nat →
  ∃ a', item_step dp a item = Some a'
    ∧ length (new_tools a') = 20%nat
    ∧ total_consum a' = total_consum a + node_consum_of dp item
    ∧ total_time a' = total_time a + node_time_of dp item.
Proof.
  intros Hi Hlen. unfold item_step, node_consum_of, node_time_of.
  destruct (lookup_lt_is_Some_2 (dp_node_id dp) item Hi) as [raw Hraw].
  rewrite Hraw. cbn -[for_each seq].
  destruct (wf_nodes dp Hwf item raw Hraw) as ([c Hc] & [t Ht] & tools & Htools & Hl).
  rewrite Hc, Ht, Htools. cbn -[for_each seq].
  destruct (tool_loop_ok tools 19 0 (new_tools a) (total_consum a + c)) as (tools' & w' & Heq & Hlen');
    [simpl; lia..|].
  rewrite Heq. simpl. eexists. split; [done|]. simpl. split; [congruence|done].
Qed.

Lemma totals_loop_ok (p : list nat) :
  ∀ a, (∀ i, i ∈ p → (i < length (dp_node_id dp))%nat) → length (new_tools a) = 20%nat →
  ∃ a', for_each (item_step dp) p a = Some a'
    ∧ total_consum a' = total_consum a + sum_over (node_consum_of dp) p
    ∧ total_time a' = total_time a + sum_over (node_time_of dp) p.
Proof.
  induction p as [|item p IH]; intros a Hb Hlen; simpl.
  - exists a. split; [done|]. lia.
  - destruct (item_step_ok a item) as (a1 & Heq & Hlen1 & Hc & Ht); [set_solver | done |].
    rewrite Heq. simpl.
    destruct (IH a1) as (a' & Heq' & Hc' & Ht'); [set_solver | done |].
    exists a'. split; [done|]. lia.
Qed.

Lemma path_totals_ok (p : list nat) :
  (∀ i, i ∈ p → (i < length (dp_node_id dp))%nat) →
  ∃ a, path_totals dp p = Some a
    ∧ total_consum a = sum_over (node_consum_of dp) p
    ∧ total_time a = sum_over (node_time_of dp) p.
Proof.
  intros Hb. destruct (totals_loop_ok p totals0 Hb) as (a & Heq & Hc & Ht); [done|].
  exists a. split; [done|]. simpl in *. lia.
Qed.
End Totals.

Lemma record_path_eq (dp : datapack) (sg : segments) (p : list nat) (key : string) (a : totals) :
  segment_key dp p = Some key → path_totals dp p = Some a →
  ∃ sg', record_path dp sg p = Some sg'
    ∧ default [] (segment_paths sg' !! key)
      = default [] (segment_paths sg !! key)
        ++ (if within_budgets dp a then [my_path a] else [])
    ∧ segment_pathdata sg'
      = if within_budgets dp a then store_data (segment_pathdata sg) a
        else segment_pathdata sg.
Proof.
  intros Hkey Ha. unfold record_path. rewrite Hkey, Ha. simpl.
  set (paths1 := match segment_paths sg !! key with
                 | Some _ => segment_paths sg
                 | None => <[key:=[]]> (segment_paths sg)
                 end).
  assert (Hp1 : default [] (paths1 !! key) = default [] (segment_paths sg !! key)).
  { unfold paths1. destruct (segment_paths sg !! key) eqn:E; [by rewrite E|].
    by rewrite lookup_insert_eq. }
  destruct (within_budgets dp a); eexists; (split; [done|]); simpl.
  - rewrite lookup_insert_eq. simpl. by rewrite Hp1.
  - by rewrite Hp1, app_nil_r.
Qed.

Lemma record_all (dp : datapack) (key : string) (paths : list (list nat)) :
  ∀ sg,
    (∀ p, p ∈ paths → segment_key dp p = Some key ∧ is_Some (path_totals dp p)) →
    ∃ sg', for_each (record_path dp) paths sg = Some sg'
      ∧ default [] (segment_paths sg' !! key)
        = default [] (segment_paths sg !! key) ++ (my_path <$> admitted dp paths)
      ∧ segment_pathdata sg' = foldl store_data (segment_pathdata sg) (admitted dp paths).
Proof.
  induction paths as [|p paths IH]; intros sg Hall.
  - exists sg. simpl. by rewrite app_nil_r.
  - destruct (Hall p) as (Hkey & a & Ha); [set_solver|].
    destruct (record_path_eq dp sg p key a Hkey Ha) as (sg1 & Heq1 & Hsp1 & Hspd1).
    destruct (IH sg1) as (sg' & Heq & Hsp & Hspd); [set_solver|].
    exists sg'. cbn [for_each]. rewrite Heq1. simpl. split; [done|].
    rewrite Hsp, Hspd, Hsp1, Hspd1. unfold admitted. simpl. rewrite Ha. simpl.
    destruct (within_budgets dp a); simpl.
    + by rewrite <- app_assoc.
    + by rewrite app_nil_r.
Qed.

Lemma stored_data_lookup (l : list totals) :
  ∀ (m : gmap string pathdata) k v,
    foldl store_data m l !! k = Some v →
    m !! k = Some v ∨ ∃ a, a ∈ l ∧ my_path a = k ∧ totals_data a = v.
Proof.
  induction l as [|a l IH]; intros m k v Hl; simpl in *; [by left|].
  apply IH in Hl as [Hl|(a' & Ha' & Hk & Hv)].
  - unfold store_data in Hl. destruct (decide (my_path a = k)) as [<-|Hne].
    + rewrite lookup_insert_eq in Hl. injection Hl as <-. right. exists a. set_solver.
    + rewrite lookup_insert_ne in Hl by done. by left.
  - right. exists a'. set_solver.
Qed.

Lemma elem_of_admitted (dp : datapack) (paths : list (list nat)) (a : totals) :
  a ∈ admitted dp paths ↔
  ∃ p, p ∈ paths ∧ path_totals dp p = Some a ∧ within_budgets dp a = true.
Proof.
  unfold admitted. rewrite list_elem_of_omap. split.
  - intros (p & Hp & Hq). exists p. split; [done|].
    destruct (path_totals dp p) as [a'|]; simpl in Hq; [|done].
    destruct (within_budgets dp a') eqn:E; [|done]. injection Hq as ->. done.
  - intros (p & Hp & Ha & Hok). exists p. split; [done|]. rewrite Ha. simpl. by rewrite Hok.
Qed.

(** ** The whole run of [print_all_paths] *)

Lemma visited0_lookup (n i : nat) :
  (i < n)%nat →
  (list_to_map ((λ i, (i, false)) <$> seq 0 n) : gmap nat bool) !! i = Some false.
Proof.
  intros Hi. apply elem_of_list_to_map_1.
  - replace (((λ i : nat, (i, false)) <$> seq 0 n).*1) with (seq 0 n); [apply NoDup_seq|].
    induction (seq 0 n) as [|x l IH]; simpl; [done|]. f_equal. exact IH.
  - apply list_elem_of_fmap. exists i. split; [done|]. apply elem_of_seq. lia.
Qed.

Lemma simple_path_key (dp : datapack) (p : list nat) (key : string) :
  simple_path (dp_g dp) (dp_start dp) (dp_dest dp) p →
  requested_key dp = Some key → segment_key dp p = Some key.
Proof.
  intros (Hh & Hl & _) Hkey. unfold segment_key. rewrite Hh, Hl. exact Hkey.
Qed.

Lemma simple_path_bounded (dp : datapack) (p : list nat) :
  wf_datapack dp →
  simple_path (dp_g dp) (dp_start dp) (dp_dest dp) p →
  ∀ i, i ∈ p → (i < length (dp_node_id dp))%nat.
Proof.
  intros Hwf (Hh & _ & _ & Hw). destruct p as [|u q]; [done|].
  simpl in Hh. injection Hh as ->.
  apply (walk_bounded (dp_g dp) _ (wf_graph dp Hwf)); [apply (wf_start dp Hwf) | done].
Qed.

(** The whole run: what ends up in the two dictionaries. *)
Lemma print_all_paths_result (dp : datapack) (fuel : nat) :
  wf_datapack dp → (length (dp_node_id dp) ≤ fuel)%nat →
  ∃ sg key,
    print_all_paths fuel dp = Some sg
    ∧ requested_key dp = Some key
    ∧ segment_paths sg !! key
      = Some (my_path <$> admitted dp (dfs_paths fuel (dp_g dp) (dp_dest dp) [] (dp_start dp)))
    ∧ segment_pathdata sg
      = foldl store_data ∅ (admitted dp (dfs_paths fuel (dp_g dp) (dp_dest dp) [] (dp_start dp))).
Proof.
  intros Hwf Hfuel.
  destruct (lookup_lt_is_Some_2 _ _ (wf_start dp Hwf)) as [start_node Hs].
  destruct (lookup_lt_is_Some_2 _ _ (wf_dest dp Hwf)) as [dest_node Hd].
  assert (Hkey : requested_key dp = Some (start_node +:+ ":" +:+ dest_node)).
  { unfold requested_key. by rewrite Hs, Hd. }
  unfold print_all_paths.
  rewrite (util_refines dp (dp_dest dp) (wf_graph dp Hwf)); simpl.
  - destruct (record_all dp (start_node +:+ ":" +:+ dest_node)
                (dfs_paths fuel (dp_g dp) (dp_dest dp) [] (dp_start dp))
                {| segment_paths := ∅; segment_pathdata := ∅ |})
      as (sg' & Heq & Hsp & Hspd).
    { intros p Hp.
      apply (dfs_paths_simple _ (length (dp_node_id dp))) in Hp;
        [| apply (wf_graph dp Hwf) | apply (wf_start dp Hwf) | done].
      split; [by apply simple_path_key|].
      destruct (path_totals_ok dp Hwf p) as (a & Ha & _); [by apply simple_path_bounded|].
      by exists a. }
    rewrite Heq. simpl. rewrite Hs, Hd. simpl. simpl in Hsp, Hspd.
    rewrite lookup_empty in Hsp. simpl in Hsp.
    destruct (segment_paths sg' !! (start_node +:+ ":" +:+ dest_node)) as [l|] eqn:E;
      simpl in Hsp; eexists _, _; (split; [done|]); (split; [done|]); simpl.
    + rewrite E. split; congruence.
    + rewrite lookup_insert_eq. split; congruence.
  - split; [|split]; simpl.
    + intros i Hi. rewrite visited0_lookup by done. done.
    + constructor.
    + intros i Hi. by apply elem_of_nil in Hi.
  - apply (wf_start dp Hwf).
  - apply not_elem_of_nil.
  - lia.
Qed.

Lemma emitted_by_admitted (dp : datapack) (fuel : nat) (a : totals) :
  wf_datapack dp → (length (dp_node_id dp) ≤ fuel)%nat →
  a ∈ admitted dp (dfs_paths fuel (dp_g dp) (dp_dest dp) [] (dp_start dp)) ↔
  ∃ p, simple_path (dp_g dp) (dp_start dp) (dp_dest dp) p
    ∧ path_totals dp p = Some a ∧ within_budgets dp a = true.
Proof.
  intros Hwf Hfuel. rewrite elem_of_admitted.
  split; intros (p & Hp & Hr); exists p; (split; [|done]);
    by apply (dfs_paths_simple _ (length (dp_node_id dp)) _ _ fuel p
                (wf_graph dp Hwf) (wf_start dp Hwf) Hfuel).
Qed.

(** ** The tools and the weight of a path *)

Lemma tool_loop_spec (old_tools : list Z) (k : nat) :
  ∀ a tools w tools' w',
    for_each (tool_step old_tools) (seq a k) (tools, w) = Some (tools', w') →
    length tools' = length tools
    ∧ (∀ j, (a ≤ j < a + k)%nat →
         ∃ o n, old_tools !! j = Some o ∧ tools !! j = Some n
                ∧ tools' !! j = Some (Z.max n o))
    ∧ (∀ j, (j < a ∨ a + k ≤ j)%nat → tools' !! j = tools !! j)
    ∧ w' = w + sum_Z (take k (drop a tools')).
Proof.
  induction k as [|k IH]; intros a tools w tools' w' Hrun.
  - simpl in Hrun. injection Hrun as <- <-.
    split; [done|]. split; [intros; lia|]. split; [done|]. simpl. lia.
  - simpl in Hrun.
    destruct (old_tools !! a) as [o|] eqn:Ho; simpl in Hrun; [|done].
    destruct (tools !! a) as [n|] eqn:Hn; simpl in Hrun; [|done].
    set (tools1 := if bool_decide (n < o) then <[a:=o]> tools else tools) in *.
    assert (Hlen1 : length tools1 = length tools).
    { unfold tools1. case_bool_decide; [apply length_insert|done]. }
    assert (H1a : tools1 !! a = Some (Z.max n o)).
    { unfold tools1. case_bool_decide.
      - rewrite list_lookup_insert_eq by (by apply lookup_lt_Some in Hn).
        f_equal. lia.
      - rewrite Hn. f_equal. lia. }
    assert (H1ne : ∀ j, j ≠ a → tools1 !! j = tools !! j).
    { intros j Hj. unfold tools1. case_bool_decide; [|done].
      by rewrite list_lookup_insert_ne. }
    rewrite H1a in Hrun. simpl in Hrun.
    apply IH in Hrun as (Hlen & Hin & Hout & Hw).
    assert (Ha' : tools' !! a = Some (Z.max n o)).
    { rewrite Hout by lia. done. }
    split; [congruence|]. split; [|split].
    + intros j Hj. destruct (decide (j = a)) as [->|Hne].
      * by exists o, n.
      * destruct (Hin j) as (o' & n' & Ho' & Hn' & Hj'); [lia|].
        exists o', n'. rewrite <- H1ne by done. done.
    + intros j Hj. rewrite Hout by lia. apply H1ne. lia.
    + rewrite (drop_S _ _ _ Ha'). simpl. rewrite Hw. lia.
Qed.

(** One pass of the loop body: the first 19 tool weights become the larger
    of the old value and the node's, the rest stays, and the weight is the
    consumables so far plus the first 19 tool weights. *)
Lemma item_step_tools (dp : datapack) (a a' : totals) (item : nat) :
  item_step dp a item = Some a' →
  length (new_tools a') = length (new_tools a)
  ∧ (∀ k, (k < 19)%nat →
       ∃ n, new_tools a !! k = Some n
            ∧ new_tools a' !! k = Some (Z.max n (node_tool_of dp k item)))
  ∧ (∀ k, (19 ≤ k)%nat → new_tools a' !! k = new_tools a !! k)
  ∧ total_weight a' = total_consum a' + sum_Z (take 19 (new_tools a')).
Proof.
  unfold item_step. intros Hrun.
  destruct (dp_node_id dp !! item) as [raw|] eqn:Hraw; [|done].
  cbn [mbind option_bind] in Hrun.
  destruct (dp_node_consum dp !! strip raw) as [c|] eqn:Hc; [|done].
  cbn [mbind option_bind] in Hrun.
  destruct (dp_node_time dp !! strip raw) as [t|] eqn:Ht; [|done].
  cbn [mbind option_bind] in Hrun.
  destruct (dp_node_tools dp !! strip raw) as [old_tools|] eqn:Htools; [|done].
  cbn [mbind option_bind] in Hrun.
  destruct (for_each (tool_step old_tools) (seq 0 19) (new_tools a, total_consum a + c))
    as [[tools' w']|] eqn:Hloop; [|done].
  cbn [mbind option_bind] in Hrun. injection Hrun as <-. cbn [new_tools total_weight total_consum].
  apply tool_loop_spec in Hloop as (Hlen & Hin & Hout & Hw).
  split; [done|]. split; [|split].
  - intros k Hk. destruct (Hin k) as (o & n & Ho & Hn & Hk'); [lia|].
    exists n. split; [done|]. rewrite Hk'. f_equal. f_equal.
    unfold node_tool_of. rewrite Hraw. cbn [mbind option_bind]. rewrite Htools.
    cbn [mbind option_bind]. by rewrite Ho.
  - intros k Hk. apply Hout. lia.
  - rewrite drop_0 in Hw. exact Hw.
Qed.

Lemma totals_loop_tools (dp : datapack) (p : list nat) :
  ∀ a0 a, for_each (item_step dp) p a0 = Some a →
    (∀ k n, (k < 19)%nat → new_tools a0 !! k = Some n → 0 ≤ n) →
    length (new_tools a) = length (new_tools a0)
    ∧ (∀ k, (k < 19)%nat → (k < length (new_tools a0))%nat →
         ∃ n, new_tools a0 !! k = Some n
              ∧ new_tools a !! k = Some (Z.max n (max_over (node_tool_of dp k) p)))
    ∧ (∀ k, (19 ≤ k)%nat → new_tools a !! k = new_tools a0 !! k).
Proof.
  induction p as [|item p IH]; intros a0 a Hrun Hpos.
  - simpl in Hrun. injection Hrun as <-. split; [done|]. split; [|done].
    intros k Hk Hlen. destruct (lookup_lt_is_Some_2 _ _ Hlen) as [n Hn].
    exists n. split; [done|]. rewrite Hn. f_equal. simpl.
    specialize (Hpos k n Hk Hn). lia.
  - cbn [for_each] in Hrun.
    destruct (item_step dp a0 item) as [a1|] eqn:Hstep; [|done].
    cbn [mbind option_bind] in Hrun.
    apply item_step_tools in Hstep as (Hlen1 & Hin1 & Hout1 & _).
    apply IH in Hrun as (Hlen & Hin & Hout).
    2:{ intros k n Hk Hn. destruct (Hin1 k Hk) as (n0 & Hn0 & Hn1).
        rewrite Hn1 in Hn. injection Hn as <-. specialize (Hpos k n0 Hk Hn0). lia. }
    split; [congruence|]. split.
    + intros k Hk Hlt. destruct (Hin1 k Hk) as (n0 & Hn0 & Hn1).
      destruct (Hin k Hk) as (n1 & Hn1' & Hfin); [lia|].
      exists n0. split; [done|]. rewrite Hfin. f_equal.
      rewrite Hn1 in Hn1'. injection Hn1' as <-. simpl. lia.
    + intros k Hk. rewrite Hout by done. by apply Hout1.
Qed.

(** ** A path, its string and its record *)

Lemma path_ids_dash_free (dp : datapack) (p : list nat) :
  distinct_ids dp → Forall (λ s, contains "-" s = false) (path_ids dp p).
Proof.
  intros [_ Hfree]. apply Forall_forall. intros s Hs. unfold path_ids in Hs.
  apply list_elem_of_omap in Hs as (i & _ & Hi).
  destruct (dp_node_id dp !! i) as [raw_id|] eqn:Hraw; [|done].
  simpl in Hi. injection Hi as <-.
  rewrite Forall_forall in Hfree. apply Hfree. by eapply list_elem_of_lookup_2.
Qed.

Lemma path_ids_inj (dp : datapack) (p : list nat) :
  distinct_ids dp →
  ∀ p', (∀ i, i ∈ p → (i < length (dp_node_id dp))%nat) →
        (∀ i, i ∈ p' → (i < length (dp_node_id dp))%nat) →
        path_ids dp p = path_ids dp p' → p = p'.
Proof.
  intros [Hnd _]. induction p as [|i p IH]; intros p' Hb Hb' Heq.
  - destruct p' as [|j p']; [done|].
    destruct (lookup_lt_is_Some_2 (dp_node_id dp) j) as [raw_j Hj]; [apply Hb'; by left|].
    by rewrite (path_ids_cons dp j p' raw_j Hj) in Heq.
  - destruct (lookup_lt_is_Some_2 (dp_node_id dp) i) as [raw_i Hi]; [apply Hb; by left|].
    rewrite (path_ids_cons dp i p raw_i Hi) in Heq.
    destruct p' as [|j p']; [done|].
    destruct (lookup_lt_is_Some_2 (dp_node_id dp) j) as [raw_j Hj]; [apply Hb'; by left|].
    rewrite (path_ids_cons dp j p' raw_j Hj) in Heq. injection Heq as Hhead Htail.
    assert (i = j) as ->.
    { apply (NoDup_lookup _ i j (strip raw_i) Hnd).
      - by rewrite list_lookup_fmap, Hi.
      - by rewrite list_lookup_fmap, Hj, Hhead. }
    f_equal. apply IH; [|  |done].
    + intros k Hk. apply Hb. by right.
    + intros k Hk. apply Hb'. by right.
Qed.

Lemma path_ids_nonempty (dp : datapack) (p : list nat) :
  p ≠ [] → (∀ i, i ∈ p → (i < length (dp_node_id dp))%nat) → path_ids dp p ≠ [].
Proof.
  intros Hne Hb. destruct p as [|i p]; [done|].
  destruct (lookup_lt_is_Some_2 (dp_node_id dp) i) as [raw_i Hi]; [apply Hb; by left|].
  by rewrite (path_ids_cons dp i p raw_i Hi).
Qed.

(** Different paths have different strings. *)
Lemma dashed_path_inj (dp : datapack) (p p' : list nat) :
  distinct_ids dp → p ≠ [] → p' ≠ [] →
  (∀ i, i ∈ p → (i < length (dp_node_id dp))%nat) →
  (∀ i, i ∈ p' → (i < length (dp_node_id dp))%nat) →
  dashed_path dp p = dashed_path dp p' → p = p'.
Proof.
  intros Hids Hne Hne' Hb Hb' Heq. apply (path_ids_inj dp p Hids p' Hb Hb').
  unfold dashed_path in Heq.
  rewrite <- (split_join "-" (path_ids dp p)), <- (split_join "-" (path_ids dp p'));
    [by rewrite Heq | by apply path_ids_dash_free | by apply path_ids_nonempty
    | by apply path_ids_dash_free | by apply path_ids_nonempty].
Qed.

(** The record found under a string that one stored path only has. *)
Lemma stored_data_unique (l : list totals) (k : string) (a : totals) :
  my_path a = k →
  (∀ a', a' ∈ l → my_path a' = k → a' = a) →
  ∀ m : gmap string pathdata,
    m !! k = Some (totals_data a) ∨ a ∈ l →
    foldl store_data m l !! k = Some (totals_data a).
Proof.
  intros Hk. induction l as [|a0 l IH]; intros Huniq m Hin.
  - destruct Hin as [Hm|Hin]; [done|]. by apply elem_of_nil in Hin.
  - cbn [foldl]. apply IH; [intros a' Ha'; apply Huniq; by right|].
    unfold store_data. destruct (decide (my_path a0 = k)) as [Hk0|Hk0].
    + left. rewrite (Huniq a0) by (done || by left). rewrite Hk. apply lookup_insert_eq.
    + rewrite lookup_insert_ne by done. destruct Hin as [Hm|Hin]; [by left|].
      apply elem_of_cons in Hin as [->|Hin]; [done|by right].
Qed.

Lemma simple_path_nonempty (g : gmap nat (list nat)) (s d : nat) (p : list nat) :
  simple_path g s d p → p ≠ [].
Proof. intros (Hh & _) ->. done. Qed.

(** The whole run, path by path: for an origin with a long identity and
    pairwise different node identities free of dashes, the string of a
    simple path is stored exactly when the totals of the path pass the test
    of line 1507, and then its record is stored under its string. *)
Lemma enumerator_run (dp : datapack) (fuel : nat) :
  wf_datapack dp → (length (dp_node_id dp) ≤ fuel)%nat →
  long_origin dp → distinct_ids dp →
  ∃ sg key emitted,
    print_all_paths fuel dp = Some sg
    ∧ requested_key dp = Some key
    ∧ segment_paths sg !! key = Some emitted
    ∧ (∀ p, simple_path (dp_g dp) (dp_start dp) (dp_dest dp) p →
         ∃ a, path_totals dp p = Some a
           ∧ (dashed_path dp p ∈ emitted ↔ within_budgets dp a = true)
           ∧ (within_budgets dp a = true →
              segment_pathdata sg !! dashed_path dp p = Some (totals_data a)))
    ∧ (∀ s, s ∈ emitted →
         ∃ p, simple_path (dp_g dp) (dp_start dp) (dp_dest dp) p ∧ s = dashed_path dp p)
    ∧ (∀ s, is_Some (segment_pathdata sg !! s) → s ∈ emitted).
Proof.
  intros Hwf Hfuel (raw_id & Hraw & Hlong) Hids.
  destruct (print_all_paths_result dp fuel Hwf Hfuel) as (sg & key & Hrun & Hkey & Hsp & Hspd).
  set (stored := admitted dp (dfs_paths fuel (dp_g dp) (dp_dest dp) [] (dp_start dp))) in *.
  assert (Hstring : ∀ p a, simple_path (dp_g dp) (dp_start dp) (dp_dest dp) p →
                           path_totals dp p = Some a → my_path a = dashed_path dp p).
  { intros p a (Hh & _) Ha. by apply (my_path_is_joined dp p a (dp_start dp) raw_id). }
  assert (Hsame : ∀ p a a', simple_path (dp_g dp) (dp_start dp) (dp_dest dp) p →
                            path_totals dp p = Some a →
                            a' ∈ stored → my_path a' = dashed_path dp p → a' = a).
  { intros p a a' Hp Ha Ha' Hstr.
    apply emitted_by_admitted in Ha' as (p' & Hp' & Ha' & _); [|done..].
    rewrite (Hstring p' a' Hp' Ha') in Hstr.
    assert (p' = p) as ->; [|congruence].
    apply (dashed_path_inj dp p' p Hids); [|  |  |  |done].
    - by eapply simple_path_nonempty.
    - by eapply simple_path_nonempty.
    - by apply simple_path_bounded.
    - by apply simple_path_bounded. }
  exists sg, key, (my_path <$> stored). split; [done|]. split; [done|]. split; [done|].
  split; [|split].
  - intros p Hp.
    destruct (path_totals_ok dp Hwf p) as (a & Ha & _); [by apply simple_path_bounded|].
    exists a. split; [done|]. split; [split|].
    + intros Hin. apply list_elem_of_fmap in Hin as (a' & Hstr & Ha').
      rewrite (Hsame p a a' Hp Ha Ha') in Ha' by done.
      by apply emitted_by_admitted in Ha' as (p' & _ & _ & Hok).
    + intros Hok. apply list_elem_of_fmap. exists a. split; [by rewrite (Hstring p a)|].
      apply emitted_by_admitted; [done..|]. by exists p.
    + intros Hok. rewrite Hspd. apply stored_data_unique.
      * by apply Hstring.
      * intros a' Ha' Hstr. by apply (Hsame p a a' Hp Ha).
      * right. apply emitted_by_admitted; [done..|]. by exists p.
  - intros s Hs. apply list_elem_of_fmap in Hs as (a & -> & Ha).
    apply emitted_by_admitted in Ha as (p & Hp & Ha & _); [|done..].
    exists p. split; [done|]. by apply Hstring.
  - intros s [data Hs]. rewrite Hspd in Hs.
    apply stored_data_lookup in Hs as [Hs|(a & Ha & Hstr & _)];
      [by rewrite lookup_empty in Hs|].
    apply list_elem_of_fmap. by exists a.
Qed.

(** *** The totals of a path as sums *)

Lemma max_over_nonneg (f : nat → Z) (p : list nat) : 0 ≤ max_over f p.
Proof. induction p as [|i p IH]; simpl; lia. Qed.

Lemma max_over_zero (f : nat → Z) (p : list nat) : (∀ i, f i = 0) → max_over f p = 0.
Proof. intros Hf. induction p as [|i p IH]; simpl; [done|]. rewrite Hf, IH. done. Qed.

Lemma sum_Z_app (a b : list Z) : sum_Z (a ++ b) = sum_Z a + sum_Z b.
Proof. induction a as [|x a IH]; simpl; [done|]. rewrite IH. lia. Qed.

(** What the loop of lines 1486-1503 leaves for a path, when no node needs
    the last tool: the record of the sums. *)
Lemma path_totals_sums (dp : datapack) (p : list nat) (a : totals) :
  wf_datapack dp → last_tool_unused dp →
  (∀ i, i ∈ p → (i < length (dp_node_id dp))%nat) →
  path_totals dp p = Some a →
  totals_data a = path_data dp p
  ∧ (within_budgets dp a = true ↔ meets_budgets dp p).
Proof.
  intros Hwf Hlast Hb Ha.
  destruct (path_totals_ok dp Hwf p Hb) as (a' & Ha' & Hc & Ht).
  rewrite Ha in Ha'. injection Ha' as <-.
  assert (Htools : new_tools a = path_tools dp p).
  { pose proof Ha as Hrun. unfold path_totals in Hrun.
    apply totals_loop_tools in Hrun as (Hlen & Hin & Hout).
    2:{ intros k n _ Hn. unfold totals0 in Hn. cbn [new_tools] in Hn.
        apply lookup_replicate in Hn as [-> _]. done. }
    apply list_eq. intros k. unfold path_tools. rewrite list_lookup_fmap.
    destruct (decide (k < 19)%nat) as [Hk|Hk].
    - destruct (Hin k Hk) as (n & Hn & ->); [simpl; lia|].
      unfold totals0 in Hn. cbn [new_tools] in Hn. apply lookup_replicate in Hn as [-> _].
      rewrite lookup_seq_lt by lia. simpl. f_equal.
      pose proof (max_over_nonneg (node_tool_of dp k) p). lia.
    - rewrite Hout by lia. unfold totals0. cbn [new_tools].
      destruct (decide (k = 19%nat)) as [->|Hne].
      + simpl. f_equal. symmetry. by apply max_over_zero.
      + assert (replicate 20 0 !! k = None) as -> by (apply lookup_replicate_None; lia).
        by rewrite lookup_seq_ge by lia. }
  assert (Hweight : total_weight a = path_weight dp p).
  { assert (Hw : total_weight a = total_consum a + sum_Z (take 19 (new_tools a))).
    { unfold path_totals in Ha. destruct (decide (p = [])) as [->|Hne].
      - simpl in Ha. injection Ha as <-. reflexivity.
      - destruct (exists_last Hne) as (q & item & ->).
        rewrite for_each_app in Ha.
        destruct (for_each (item_step dp) q totals0) as [a1|]; [|done].
        cbn [mbind option_bind for_each] in Ha.
        destruct (item_step dp a1 item) as [a2|] eqn:Hstep; [|done].
        cbn [mbind option_bind] in Ha. injection Ha as <-.
        by apply item_step_tools in Hstep as (_ & _ & _ & Hw). }
    rewrite Hw, Hc, Htools. unfold path_weight, path_consum. f_equal.
    assert (Hsplit : path_tools dp p = take 19 (path_tools dp p) ++ [0]).
    { unfold path_tools. change (seq 0 20) with (seq 0 19 ++ [19%nat]).
      rewrite fmap_app, take_app_length' by (by rewrite length_fmap, length_seq).
      simpl. by rewrite (max_over_zero _ p Hlast). }
    rewrite Hsplit at 2. rewrite sum_Z_app. simpl. lia. }
  split.
  - unfold totals_data, path_data, path_time, path_consum. by rewrite Ht, Hc, Hweight, Htools.
  - unfold within_budgets, meets_budgets, path_time, path_consum.
    rewrite !andb_true_iff, !bool_decide_eq_true, Hc, Ht, Hweight. tauto.
Qed.

(** The example facilities are well formed. *)
Lemma two_targets_wf : wf_datapack two_targets.
Proof.
  split.
  - simpl. lia.
  - simpl. lia.
  - intros u Hu. simpl in Hu.
    destruct u as [|[|[|u]]]; [| | |lia]; eexists; (split; [reflexivity|]);
      intros i Hi; simpl; set_solver by lia.
  - intros i raw Hraw.
    destruct i as [|[|[|i]]]; simpl in Hraw; [| | |done]; injection Hraw as <-;
      (split; [by eexists|]); (split; [by eexists|]); eexists; (split; [reflexivity|]);
      simpl; lia.
Qed.

Lemma sum_over_origin (f : nat → Z) (s : nat) (p : list nat) :
  head p = Some s → f s = 0 → sum_over f p = sum_over f (tail p).
Proof.
  intros Hh Hf. destruct p as [|u q]; [done|]. simpl in *. injection Hh as ->. lia.
Qed.

(** C1, as amended.  For a well-formed [datapack] (two known end points),
    enough fuel for the recursion, an origin whose identity has more than
    one character, node identities that are pairwise different and free of
    dashes, and breach data that do not use the last of the 20 tools, the
    enumerator returns, and what it stores under the key of the segment is
    exactly the simple paths from the origin to the destination that meet
    the three budgets: the string of a simple path is stored precisely when
    the sum of the breach times of all its nodes is within [max_time], the
    sum of the consumable weights of all its nodes is within
    [max_consumables], and that sum plus the merged tool weights is within
    [max_weight]; such a path is stored with the record of these totals;
    and every stored string and every stored record belongs to such a
    path. *)
Theorem enumerator_emits_admissible_simple_paths (dp : datapack) (fuel : nat) :
  wf_datapack dp → (length (dp_node_id dp) ≤ fuel)%nat →
  long_origin dp → distinct_ids dp → last_tool_unused dp →
  ∃ sg key emitted,
    print_all_paths fuel dp = Some sg
    ∧ requested_key dp = Some key
    ∧ segment_paths sg !! key = Some emitted
    ∧ (∀ p, simple_path (dp_g dp) (dp_start dp) (dp_dest dp) p →
         (dashed_path dp p ∈ emitted ↔ meets_budgets dp p)
         ∧ (meets_budgets dp p →
            segment_pathdata sg !! dashed_path dp p = Some (path_data dp p)))
    ∧ (∀ s, s ∈ emitted →
         ∃ p, simple_path (dp_g dp) (dp_start dp) (dp_dest dp) p
              ∧ meets_budgets dp p ∧ s = dashed_path dp p)
    ∧ (∀ s, is_Some (segment_pathdata sg !! s) → s ∈ emitted).
Proof.
  intros Hwf Hfuel Hlong Hids Hlast.
  destruct (enumerator_run dp fuel Hwf Hfuel Hlong Hids)
    as (sg & key & emitted & Hrun & Hkey & Hsp & Hpaths & Hcover & Hrecords).
  exists sg, key, emitted. split; [done|]. split; [done|]. split; [done|].
  assert (Hpath : ∀ p, simple_path (dp_g dp) (dp_start dp) (dp_dest dp) p →
            (dashed_path dp p ∈ emitted ↔ meets_budgets dp p)
            ∧ (meets_budgets dp p →
               segment_pathdata sg !! dashed_path dp p = Some (path_data dp p))).
  { intros p Hp. destruct (Hpaths p Hp) as (a & Ha & Hiff & Hrec).
    destruct (path_totals_sums dp p a Hwf Hlast) as [Hdata Hbudgets];
      [by apply simple_path_bounded|done|].
    split; [by rewrite Hiff|]. intros Hok. rewrite <- Hdata. apply Hrec. by apply Hbudgets. }
  split; [done|]. split; [|done].
  intros s Hs. destruct (Hcover s Hs) as (p & Hp & ->).
  exists p. split; [done|]. split; [|done]. by apply (Hpath p Hp).
Qed.

Lemma enumerator_emits_admissible_simple_paths_witness :
  ∃ sg key emitted,
    print_all_paths 3 two_targets = Some sg
    ∧ requested_key two_targets = Some key
    ∧ segment_paths sg !! key = Some emitted
    ∧ (∀ p, simple_path (dp_g two_targets) (dp_start two_targets) (dp_dest two_targets) p →
         (dashed_path two_targets p ∈ emitted ↔ meets_budgets two_targets p)
         ∧ (meets_budgets two_targets p →
            segment_pathdata sg !! dashed_path two_targets p
            = Some (path_data two_targets p)))
    ∧ (∀ s, s ∈ emitted →
         ∃ p, simple_path (dp_g two_targets) (dp_start two_targets) (dp_dest two_targets) p
              ∧ meets_budgets two_targets p ∧ s = dashed_path two_targets p)
    ∧ (∀ s, is_Some (segment_pathdata sg !! s) → s ∈ emitted).
Proof.
  apply (enumerator_emits_admissible_simple_paths two_targets 3 two_targets_wf).
  - simpl. lia.
  - exists "T1"%string. split; [reflexivity|]. vm_compute. lia.
  - split.
    + vm_compute. repeat (constructor; [set_solver|]). constructor.
    + repeat constructor.
  - intros i. destruct i as [|[|[|i]]]; reflexivity.
Defined.

(** Of the two routes from [start] to [T1] the run stores the edge, whose
    totals are 100 s, 10 lb and 15 lb, and not the way over [N1], whose
    breach times add up to 250 s. *)
Lemma two_routes_one_stored :
  ∃ sg,
    print_all_paths 3 two_routes = Some sg
    ∧ segment_paths sg !! "start:T1"%string = Some [dashed_path two_routes [0; 2]%nat]
    ∧ segment_pathdata sg !! dashed_path two_routes [0; 2]%nat
      = Some (path_data two_routes [0; 2]%nat)
    ∧ segment_pathdata sg !! dashed_path two_routes [0; 1; 2]%nat = None
    ∧ meets_budgets two_routes [0; 2]%nat
    ∧ path_time two_routes [0; 1; 2]%nat = 250
    ∧ ¬ meets_budgets two_routes [0; 1; 2]%nat.
Proof.
  eexists. split; [vm_compute; reflexivity|].
  split; [vm_compute; reflexivity|]. split; [vm_compute; reflexivity|].
  split; [vm_compute; reflexivity|].
  split; [unfold meets_budgets; vm_compute; repeat split; discriminate|].
  split; [vm_compute; reflexivity|].
  intros (_ & Ht & _). vm_compute in Ht. by apply Ht.
Qed.

(** C1 as stated fails in both directions against the totals the
    specification defines.  With 7 lb of consumables allowed, the path from
    [T1] to [T2] meets the three budgets of the specification (5 lb for the
    node after the first) and is a simple path, yet nothing is stored for
    the segment: the enumerator charges the origin too.  With 100 s allowed
    in scenario A, the path [start-T1] is stored although travel (1 s) and
    breach (100 s) exceed the budget: the enumerator adds no travel time. *)
Lemma enumerator_budgets_are_not_the_specified_ones :
  (∃ sg,
     print_all_paths 3 two_targets_tight = Some sg
     ∧ segment_paths sg !! "T1:T2"%string = Some []
     ∧ simple_path (dp_g two_targets_tight) 1 2 [1%nat; 2%nat]
     ∧ spec_within_budgets two_targets_tight ∅ ∅ default_setup [1%nat; 2%nat])
  ∧ (∃ sg,
       print_all_paths 2 scenario_a_tight = Some sg
       ∧ segment_paths sg !! "start:T1"%string = Some ["start-T1"%string]
       ∧ simple_path (dp_g scenario_a_tight) 0 1 [0%nat; 1%nat]
       ∧ ¬ spec_within_budgets scenario_a_tight scenario_a_ABN scenario_a_delta_H
             default_setup [0%nat; 1%nat]).
Proof.
  split.
  - eexists. split; [vm_compute; reflexivity|]. split; [vm_compute; reflexivity|].
    split.
    + split; [reflexivity|]. split; [reflexivity|]. split.
      * repeat (constructor; [set_solver|]). constructor.
      * simpl. split; [|done]. eexists. split; [reflexivity|]. set_solver.
    + unfold spec_within_budgets. vm_compute. repeat split; discriminate.
  - eexists. split; [vm_compute; reflexivity|]. split; [vm_compute; reflexivity|].
    split.
    + split; [reflexivity|]. split; [reflexivity|]. split.
      * repeat (constructor; [set_solver|]). constructor.
      * simpl. split; [|done]. eexists. split; [reflexivity|]. set_solver.
    + unfold spec_within_budgets. intros (Ht & _). vm_compute in Ht. by apply Ht.
Qed.

(** C4, as amended.  For an origin whose identity has more than one
    character and node identities that are pairwise different and free of
    dashes, every string the enumerator stores under the key of the segment
    is the string of a simple path between the requested end points, and for
    every simple path whose string is stored, the record stored under that
    string has as [total_consum] the sum of the consumable weights of all
    nodes of that path, the origin included; when the origin weighs nothing
    (as the synthetic [start] does) this is the sum over the nodes after the
    first. *)
Theorem total_consumable_counts_every_node (dp : datapack) (fuel : nat) :
  wf_datapack dp → (length (dp_node_id dp) ≤ fuel)%nat →
  long_origin dp → distinct_ids dp →
  ∃ sg key emitted,
    print_all_paths fuel dp = Some sg
    ∧ requested_key dp = Some key
    ∧ segment_paths sg !! key = Some emitted
    ∧ (∀ s, s ∈ emitted →
         ∃ p, simple_path (dp_g dp) (dp_start dp) (dp_dest dp) p ∧ s = dashed_path dp p)
    ∧ (∀ p, simple_path (dp_g dp) (dp_start dp) (dp_dest dp) p →
         dashed_path dp p ∈ emitted →
         ∃ data, segment_pathdata sg !! dashed_path dp p = Some data
           ∧ pd_consum data = sum_over (node_consum_of dp) p
           ∧ (node_consum_of dp (dp_start dp) = 0 →
              pd_consum data = spec_total_consumable dp p)).
Proof.
  intros Hwf Hfuel Hlong Hids.
  destruct (enumerator_run dp fuel Hwf Hfuel Hlong Hids)
    as (sg & key & emitted & Hrun & Hkey & Hsp & Hpaths & Hcover & _).
  exists sg, key, emitted. split; [done|]. split; [done|]. split; [done|]. split; [done|].
  intros p Hp Hin. destruct (Hpaths p Hp) as (a & Ha & Hiff & Hrec).
  destruct (path_totals_ok dp Hwf p) as (a' & Ha' & Hc & _); [by apply simple_path_bounded|].
  rewrite Ha in Ha'. injection Ha' as <-.
  exists (totals_data a). split; [apply Hrec; by apply Hiff|]. split; [done|].
  intros Hzero. cbn [totals_data pd_consum]. rewrite Hc. unfold spec_total_consumable.
  destruct Hp as (Hh & _). by apply (sum_over_origin _ (dp_start dp)).
Qed.

Lemma total_consumable_counts_every_node_witness :
  ∃ sg key emitted,
    print_all_paths 3 two_targets = Some sg
    ∧ requested_key two_targets = Some key
    ∧ segment_paths sg !! key = Some emitted
    ∧ (∀ s, s ∈ emitted →
         ∃ p, simple_path (dp_g two_targets) (dp_start two_targets) (dp_dest two_targets) p
              ∧ s = dashed_path two_targets p)
    ∧ (∀ p, simple_path (dp_g two_targets) (dp_start two_targets) (dp_dest two_targets) p →
         dashed_path two_targets p ∈ emitted →
         ∃ data, segment_pathdata sg !! dashed_path two_targets p = Some data
           ∧ pd_consum data = sum_over (node_consum_of two_targets) p
           ∧ (node_consum_of two_targets (dp_start two_targets) = 0 →
              pd_consum data = spec_total_consumable two_targets p)).
Proof.
  apply (total_consumable_counts_every_node two_targets 3 two_targets_wf).
  - simpl. lia.
  - exists "T1"%string. split; [reflexivity|]. vm_compute. lia.
  - split.
    + vm_compute. repeat (constructor; [set_solver|]). constructor.
    + repeat constructor.
Defined.

(** C4 as stated fails: on the segment from [T1] to [T2] the run stores the path
    [T1-T2] with 10 lb of consumables, the weights of both nodes, where the
    sum over the nodes after the first is 5 lb. *)
Lemma total_consumable_charges_origin :
  ∃ sg data,
    print_all_paths 3 two_targets = Some sg
    ∧ my_path <$> path_totals two_targets [1%nat; 2%nat] = Some "T1-T2"%string
    ∧ segment_pathdata sg !! "T1-T2"%string = Some data
    ∧ pd_consum data = 10
    ∧ spec_total_consumable two_targets [1%nat; 2%nat] = 5
    ∧ pd_consum data ≠ spec_total_consumable two_targets [1%nat; 2%nat].
Proof.
  eexists _, _. split; [vm_compute; reflexivity|].
  split; [vm_compute; reflexivity|].
  split; [vm_compute; reflexivity|].
  split; [reflexivity|]. split; [reflexivity|]. vm_compute. discriminate.
Qed.

(** C3, as amended.  For an origin whose identity has more than one
    character and node identities that are pairwise different and free of
    dashes, every string the enumerator stores under the key of the segment
    is the string of a simple path between the requested end points, and for
    every simple path whose string is stored, the record stored under that
    string has as [total_time] the sum of the breach times of all nodes of
    that path, the origin included, and nothing else: no travel time enters
    it.  When the origin has no breach time (as [start]) this is the sum
    over the nodes after the first. *)
Theorem total_time_sums_breach_times (dp : datapack) (fuel : nat) :
  wf_datapack dp → (length (dp_node_id dp) ≤ fuel)%nat →
  long_origin dp → distinct_ids dp →
  ∃ sg key emitted,
    print_all_paths fuel dp = Some sg
    ∧ requested_key dp = Some key
    ∧ segment_paths sg !! key = Some emitted
    ∧ (∀ s, s ∈ emitted →
         ∃ p, simple_path (dp_g dp) (dp_start dp) (dp_dest dp) p ∧ s = dashed_path dp p)
    ∧ (∀ p, simple_path (dp_g dp) (dp_start dp) (dp_dest dp) p →
         dashed_path dp p ∈ emitted →
         ∃ data, segment_pathdata sg !! dashed_path dp p = Some data
           ∧ pd_time data = sum_over (node_time_of dp) p
           ∧ (node_time_of dp (dp_start dp) = 0 →
              pd_time data = sum_over (node_time_of dp) (tail p))).
Proof.
  intros Hwf Hfuel Hlong Hids.
  destruct (enumerator_run dp fuel Hwf Hfuel Hlong Hids)
    as (sg & key & emitted & Hrun & Hkey & Hsp & Hpaths & Hcover & _).
  exists sg, key, emitted. split; [done|]. split; [done|]. split; [done|]. split; [done|].
  intros p Hp Hin. destruct (Hpaths p Hp) as (a & Ha & Hiff & Hrec).
  destruct (path_totals_ok dp Hwf p) as (a' & Ha' & _ & Ht); [by apply simple_path_bounded|].
  rewrite Ha in Ha'. injection Ha' as <-.
  exists (totals_data a). split; [apply Hrec; by apply Hiff|]. split; [done|].
  intros Hzero. cbn [totals_data pd_time]. rewrite Ht.
  destruct Hp as (Hh & _). by apply (sum_over_origin _ (dp_start dp)).
Qed.

Lemma total_time_sums_breach_times_witness :
  ∃ sg key emitted,
    print_all_paths 3 two_targets = Some sg
    ∧ requested_key two_targets = Some key
    ∧ segment_paths sg !! key = Some emitted
    ∧ (∀ s, s ∈ emitted →
         ∃ p, simple_path (dp_g two_targets) (dp_start two_targets) (dp_dest two_targets) p
              ∧ s = dashed_path two_targets p)
    ∧ (∀ p, simple_path (dp_g two_targets) (dp_start two_targets) (dp_dest two_targets) p →
         dashed_path two_targets p ∈ emitted →
         ∃ data, segment_pathdata sg !! dashed_path two_targets p = Some data
           ∧ pd_time data = sum_over (node_time_of two_targets) p
           ∧ (node_time_of two_targets (dp_start two_targets) = 0 →
              pd_time data = sum_over (node_time_of two_targets) (tail p))).
Proof.
  apply (total_time_sums_breach_times two_targets 3 two_targets_wf).
  - simpl. lia.
  - exists "T1"%string. split; [reflexivity|]. vm_compute. lia.
  - split.
    + vm_compute. repeat (constructor; [set_solver|]). constructor.
    + repeat constructor.
Defined.

(** C3 as stated fails twice.  In scenario A the one path [start-T1] is
    stored with 100 s, the breach time alone, where travel (1 s) plus breach
    gives 101 s; on the segment from [T1] to [T2] the path [T1-T2] is stored
    with 100 s, the breach times of both nodes, where a level edge of no
    length plus the breach of [T2] gives 50 s. *)
Lemma total_time_has_no_travel_time :
  (∃ sg data,
     print_all_paths 2 scenario_a = Some sg
     ∧ my_path <$> path_totals scenario_a [0%nat; 1%nat] = Some "start-T1"%string
     ∧ segment_pathdata sg !! "start-T1"%string = Some data
     ∧ pd_time data = 100
     ∧ spec_total_time scenario_a scenario_a_ABN scenario_a_delta_H default_setup
         [0%nat; 1%nat] = 101)
  ∧ (∃ sg data,
       print_all_paths 3 two_targets = Some sg
       ∧ my_path <$> path_totals two_targets [1%nat; 2%nat] = Some "T1-T2"%string
       ∧ segment_pathdata sg !! "T1-T2"%string = Some data
       ∧ pd_time data = 100
       ∧ spec_total_time two_targets ∅ ∅ default_setup [1%nat; 2%nat] = 50).
Proof.
  split; eexists _, _; (split; [vm_compute; reflexivity|]);
    (split; [vm_compute; reflexivity|]); (split; [vm_compute; reflexivity|]);
    (split; [reflexivity|]); vm_compute; reflexivity.
Qed.

(** C2.  The run of scenario A with the 5 lb tool in the last column: the
    node needs 5 lb of tool 19, yet the stored tool vector has 0 there and
    the stored total weight is 10 lb, the consumables alone. *)
Theorem last_tool_is_not_merged :
  ∃ sg data,
    print_all_paths 2 scenario_a_last_tool = Some sg
    ∧ segment_pathdata sg !! "start-T1"%string = Some data
    ∧ node_tool_of scenario_a_last_tool 19 1 = 5
    ∧ pd_tools data !! 19%nat = Some 0
    ∧ pd_consum data = 10
    ∧ pd_weight data = 10.
Proof.
  eexists _, _. split; [vm_compute; reflexivity|].
  split; [vm_compute; reflexivity|]. repeat split; reflexivity.
Qed.

(** C8.  The run of scenario B on the segment from [A] to [B]: the one path
    stored under the key [A:B] is the string [B]; the origin is not in it. *)
Theorem short_origin_is_dropped :
  ∃ sg,
    print_all_paths 3 scenario_b = Some sg
    ∧ requested_key scenario_b = Some "A:B"%string
    ∧ segment_paths sg !! "A:B"%string = Some ["B"%string]
    ∧ my_path <$> path_totals scenario_b [1%nat; 2%nat] = Some "B"%string.
Proof.
  eexists. split; [vm_compute; reflexivity|]. repeat split; vm_compute; reflexivity.
Qed.

(** ** Floats: integers below [2 ^ 53] are held exactly *)

Lemma digits2_pos_bounds (p : positive) :
  2 ^ (Zpos (digits2_pos p) - 1) ≤ Zpos p < 2 ^ Zpos (digits2_pos p).
Proof.
  induction p as [p IH|p IH|]; [| |simpl; lia].
  - cbn [digits2_pos]. rewrite Pos2Z.inj_succ.
    replace (Z.succ (Zpos (digits2_pos p)) - 1) with (Z.succ (Zpos (digits2_pos p) - 1)) by lia.
    rewrite !Z.pow_succ_r by lia. lia.
  - cbn [digits2_pos]. rewrite Pos2Z.inj_succ.
    replace (Z.succ (Zpos (digits2_pos p)) - 1) with (Z.succ (Zpos (digits2_pos p) - 1)) by lia.
    rewrite !Z.pow_succ_r by lia. lia.
Qed.

Lemma digits2_pos_unique (p : positive) (d : Z) :
  2 ^ (d - 1) ≤ Zpos p < 2 ^ d → Zpos (digits2_pos p) = d.
Proof.
  intros [Hlo Hhi]. pose proof (digits2_pos_bounds p) as [Hlo' Hhi'].
  assert (0 < d).
  { destruct (Z.le_gt_cases d 0) as [Hd|Hd]; [|done].
    assert (2 ^ d ≤ 2 ^ 0) by (apply Z.pow_le_mono_r; lia). simpl in *. lia. }
  destruct (Z.lt_trichotomy (Zpos (digits2_pos p)) d) as [Hlt|[Heq|Hgt]]; [|done|].
  - assert (2 ^ Zpos (digits2_pos p) ≤ 2 ^ (d - 1)) by (apply Z.pow_le_mono_r; lia). lia.
  - assert (2 ^ d ≤ 2 ^ (Zpos (digits2_pos p) - 1)) by (apply Z.pow_le_mono_r; lia). lia.
Qed.

Lemma iter_pos_nat {A : Type} (f : A → A) (p : positive) :
  ∀ x, SpecFloat.iter_pos f p x = Nat.iter (Pos.to_nat p) f x.
Proof.
  induction p as [p IH|p IH|]; intros x; cbn [SpecFloat.iter_pos]; [| |done].
  - rewrite !IH, Pos2Nat.inj_xI.
    replace (S (2 * Pos.to_nat p)) with (Pos.to_nat p + (Pos.to_nat p + 1))%nat by lia.
    by rewrite !Nat.iter_add.
  - rewrite !IH, Pos2Nat.inj_xO.
    replace (2 * Pos.to_nat p)%nat with (Pos.to_nat p + Pos.to_nat p)%nat by lia.
    by rewrite Nat.iter_add.
Qed.

Lemma shr_exact (j : nat) :
  ∀ m : Z, 0 < m →
    Nat.iter j shr_1 {| shr_m := m * 2 ^ Z.of_nat j; shr_r := false; shr_s := false |}
    = {| shr_m := m; shr_r := false; shr_s := false |}.
Proof.
  induction j as [|j IH]; intros m Hm.
  - simpl. by rewrite Z.mul_1_r.
  - rewrite Nat.iter_succ_r.
    replace (m * 2 ^ Z.of_nat (S j)) with ((m * 2 ^ Z.of_nat j) * 2)
      by (rewrite Nat2Z.inj_succ, Z.pow_succ_r by lia; lia).
    assert (0 < m * 2 ^ Z.of_nat j) by (apply Z.mul_pos_pos; [done|apply Z.pow_pos_nonneg; lia]).
    destruct (m * 2 ^ Z.of_nat j) as [|q|q] eqn:E; [lia| |lia].
    replace (Z.pos q * 2) with (Zpos (q~0)) by lia. cbn [shr_1 orb].
    rewrite <- E. by apply IH.
Qed.

Lemma Zdigits2_bounds (n : Z) : 0 < n → 2 ^ (Zdigits2 n - 1) ≤ n < 2 ^ Zdigits2 n.
Proof. destruct n as [|p|p]; [lia| |lia]. intros _. apply digits2_pos_bounds. Qed.

Lemma Zdigits2_unique (n d : Z) : 0 < n → 2 ^ (d - 1) ≤ n < 2 ^ d → Zdigits2 n = d.
Proof. destruct n as [|p|p]; [lia| |lia]. intros _. apply digits2_pos_unique. Qed.

Lemma Zdigits2_shift (n k : Z) : 0 < n → 0 ≤ k → Zdigits2 (n * 2 ^ k) = Zdigits2 n + k.
Proof.
  intros Hn Hk. pose proof (Zdigits2_bounds n Hn) as [Hlo Hhi].
  assert (0 < Zdigits2 n) by (destruct n; simpl; lia).
  assert (0 < 2 ^ k) by (apply Z.pow_pos_nonneg; lia).
  apply Zdigits2_unique; [lia|].
  replace (Zdigits2 n + k - 1) with ((Zdigits2 n - 1) + k) by lia.
  rewrite !Z.pow_add_r by lia. split; [apply Z.mul_le_mono_nonneg_r; lia|].
  apply Z.mul_lt_mono_pos_r; lia.
Qed.

Lemma Zdigits2_small (n : Z) : 0 < n < 2 ^ 53 → 0 < Zdigits2 n ≤ 53.
Proof.
  intros [Hn Hlt]. pose proof (Zdigits2_bounds n Hn) as [Hlo Hhi].
  split; [destruct n; simpl; lia|].
  destruct (Z.le_gt_cases (Zdigits2 n) 53) as [|Hgt]; [done|].
  assert (2 ^ 53 ≤ 2 ^ (Zdigits2 n - 1)) by (apply Z.pow_le_mono_r; lia). lia.
Qed.

Lemma shr_fexp_normal (m : Z) (e : Z) :
  0 < m → Zdigits2 m = 53 → -1074 ≤ e →
  shr_fexp 53 1024 m e loc_Exact = ({| shr_m := m; shr_r := false; shr_s := false |}, e).
Proof.
  intros Hm Hd He. unfold shr_fexp, fexp, emin. rewrite Hd.
  replace (Z.max (53 + e - 53) (3 - 1024 - 53) - e) with 0 by lia. done.
Qed.

Lemma pos_iter_xO (m d : positive) : Zpos (Pos.iter xO m d) = Zpos m * 2 ^ Zpos d.
Proof.
  induction d as [|d IH] using Pos.peano_ind.
  - simpl. lia.
  - rewrite Pos.iter_succ, Pos2Z.inj_succ, Z.pow_succ_r by lia.
    rewrite Pos2Z.inj_xO, IH. lia.
Qed.

(** Rounding the integer [n * 2 ^ k], given with exponent [-k], where [n]
    has at most 53 digits: nothing is lost. *)
Lemma binary_normalize_exact (n k : Z) (szero : bool) :
  0 < n < 2 ^ 53 → 0 ≤ k →
  binary_normalize 53 1024 (n * 2 ^ k) (- k) szero = normal_float false n.
Proof.
  intros Hn Hk. pose proof (Zdigits2_small n Hn) as Hd.
  assert (Hpow : 0 < 2 ^ k) by (apply Z.pow_pos_nonneg; lia).
  assert (HM : 0 < n * 2 ^ k) by (apply Z.mul_pos_pos; lia).
  pose proof (Zdigits2_shift n k ltac:(lia) Hk) as HdM.
  set (d := Zdigits2 n) in *.
  assert (Hnorm : 0 < n * 2 ^ (53 - d)) by (apply Z.mul_pos_pos; [lia|apply Z.pow_pos_nonneg; lia]).
  assert (Hnd : Zdigits2 (n * 2 ^ (53 - d)) = 53).
  { rewrite Zdigits2_shift by lia. unfold d. lia. }
  unfold normal_float. fold d.
  destruct (n * 2 ^ k) as [|M|M] eqn:EM; [lia| |lia].
  cbn [binary_normalize]. unfold binary_round.
  cbn [Zdigits2] in HdM. rewrite HdM.
  replace (fexp 53 1024 (d + k + - k)) with (d - 53) by (unfold fexp, emin; lia).
  assert (Hfirst : ∀ mz ez, shl_align M (- k) (d - 53) = (mz, ez) →
            shr_fexp 53 1024 (Zpos mz) ez loc_Exact
            = ({| shr_m := n * 2 ^ (53 - d); shr_r := false; shr_s := false |}, d - 53)).
  { intros mz ez. unfold shl_align.
    destruct (d - 53 - - k) as [|p|p] eqn:Ediff.
    - intros [= <- <-]. rewrite <- EM.
      replace k with (53 - d) by lia. replace (- (53 - d)) with (d - 53) by lia.
      apply shr_fexp_normal; [done|done|lia].
    - intros [= <- <-]. unfold shr_fexp. cbn [Zdigits2]. rewrite HdM.
      replace (fexp 53 1024 (d + k + - k) - - k) with (Zpos p) by (unfold fexp, emin; lia).
      cbn [shr shr_record_of_loc]. rewrite iter_pos_nat.
      replace (Zpos M) with ((n * 2 ^ (53 - d)) * 2 ^ Z.of_nat (Pos.to_nat p)).
      2:{ rewrite <- EM, positive_nat_Z, <- Z.mul_assoc, <- Z.pow_add_r by lia.
          f_equal. f_equal. lia. }
      rewrite shr_exact by done. f_equal. lia.
    - intros [= <- <-]. rewrite pos_iter_xO, <- EM.
      replace (n * 2 ^ k * 2 ^ Zpos p) with (n * 2 ^ (53 - d)).
      2:{ rewrite <- Z.mul_assoc, <- Z.pow_add_r by lia. f_equal. f_equal. lia. }
      apply shr_fexp_normal; [done|done|lia]. }
  destruct (shl_align M (- k) (d - 53)) as [mz ez] eqn:Eal.
  unfold binary_round_aux. rewrite (Hfirst mz ez eq_refl).
  cbn [shr_m loc_of_shr_record round_nearest_even].
  rewrite shr_fexp_normal by (done || lia). cbn [shr_m].
  destruct (n * 2 ^ (53 - d)) as [|q|q] eqn:Eq; [lia| |lia].
  replace (d - 53 <=? 1024 - 53) with true by (symmetry; apply Z.leb_le; lia).
  done.
Qed.

Lemma int_to_float_small (n : Z) (negative_zero : bool) :
  0 < n < 2 ^ 53 → int_to_float n negative_zero = normal_float false n.
Proof.
  intros Hn. unfold int_to_float.
  rewrite <- (binary_normalize_exact n 0 negative_zero) by (done || lia).
  by rewrite Z.mul_1_r.
Qed.

Lemma int_to_float_exact (n : Z) : 0 ≤ n < 2 ^ 53 → int_to_float n false = small_float n.
Proof.
  intros Hn. unfold small_float. case_bool_decide as Hz; [by subst n|].
  apply int_to_float_small. lia.
Qed.

Lemma shl_align_value (m : positive) (e e' : Z) :
  e' ≤ e → Zpos (fst (shl_align m e e')) = Zpos m * 2 ^ (e - e').
Proof.
  intros He. unfold shl_align. destruct (e' - e) as [|p|p] eqn:E; cbn [fst].
  - replace (e - e') with 0 by lia. lia.
  - lia.
  - rewrite pos_iter_xO. f_equal. f_equal. lia.
Qed.

Lemma normal_float_mantissa (n : Z) :
  0 < n < 2 ^ 53 →
  Zpos (Z.to_pos (n * 2 ^ (53 - Zdigits2 n))) = n * 2 ^ (53 - Zdigits2 n).
Proof.
  intros Hn. pose proof (Zdigits2_small n Hn).
  apply Z2Pos.id. apply Z.mul_pos_pos; [lia|apply Z.pow_pos_nonneg; lia].
Qed.

(** The sum of two natural numbers, as floats, is their sum when it is below
    [2 ^ 53]: the addition rounds nothing away. *)
Lemma float_add_small (a b : Z) :
  0 ≤ a → 0 ≤ b → a + b < 2 ^ 53 →
  float_add (small_float a) (small_float b) = small_float (a + b).
Proof.
  intros Ha Hb Hsum. unfold small_float.
  case_bool_decide as Ea; case_bool_decide as Eb.
  - subst. done.
  - subst. rewrite bool_decide_eq_false_2 by lia. done.
  - subst. rewrite Z.add_0_r, bool_decide_eq_false_2 by lia. done.
  - rewrite bool_decide_eq_false_2 by lia.
    pose proof (Zdigits2_small a ltac:(lia)) as Hda.
    pose proof (Zdigits2_small b ltac:(lia)) as Hdb.
    unfold float_add, normal_float. cbn [SFadd cond_Zopp].
    set (ez := Z.min (Zdigits2 a - 53) (Zdigits2 b - 53)).
    rewrite !shl_align_value by lia.
    rewrite !normal_float_mantissa by lia.
    replace (a * 2 ^ (53 - Zdigits2 a) * 2 ^ (Zdigits2 a - 53 - ez)
             + b * 2 ^ (53 - Zdigits2 b) * 2 ^ (Zdigits2 b - 53 - ez))
      with ((a + b) * 2 ^ (- ez)).
    2:{ rewrite <- !Z.mul_assoc, <- !Z.pow_add_r by lia.
        replace (53 - Zdigits2 a + (Zdigits2 a - 53 - ez)) with (- ez) by lia.
        replace (53 - Zdigits2 b + (Zdigits2 b - 53 - ez)) with (- ez) by lia. lia. }
    rewrite <- (Z.opp_involutive ez) at 2.
    apply binary_normalize_exact; lia.
Qed.

(** *** The value of such a float *)

Lemma scaled_value (n k : Z) :
  0 ≤ k → (inject_Z (n * 2 ^ k) * Qpower 2 (- k) == inject_Z n)%Q.
Proof.
  intros Hk. rewrite inject_Z_mult, Zpower_Qpower, Qpower_opp by done.
  change (inject_Z 2) with 2%Q.
  rewrite <- Qmult_assoc, Qmult_inv_r, Qmult_1_r; [done|].
  apply Qpower_not_0. done.
Qed.

Lemma normal_float_value (s : bool) (n : Z) :
  0 < n < 2 ^ 53 →
  ∃ v, float_value (normal_float s n) = Some v ∧ (v == inject_Z (cond_Zopp s n))%Q.
Proof.
  intros Hn. pose proof (Zdigits2_small n Hn) as Hd.
  unfold normal_float. cbn [float_value]. eexists. split; [done|].
  replace (Zdigits2 n - 53) with (- (53 - Zdigits2 n)) by lia.
  destruct s; cbn [cond_Zopp].
  - rewrite normal_float_mantissa by done.
    rewrite <- Z.mul_opp_l. apply scaled_value. lia.
  - rewrite normal_float_mantissa by done. apply scaled_value. lia.
Qed.

Lemma small_float_value (n : Z) :
  0 ≤ n < 2 ^ 53 → ∃ v, float_value (small_float n) = Some v ∧ (v == inject_Z n)%Q.
Proof.
  intros Hn. unfold small_float. case_bool_decide as Hz.
  - subst n. by exists 0%Q.
  - by apply (normal_float_value false); lia.
Qed.

Lemma py_round_comp (x y : Q) : (x == y)%Q → py_round x = py_round y.
Proof.
  intros Hxy. unfold py_round. rewrite (Qfloor_comp x y Hxy).
  assert (Hc : (x - inject_Z (Qfloor y) ?= 1 # 2)%Q = (y - inject_Z (Qfloor y) ?= 1 # 2)%Q).
  { apply Qcompare_comp; [by rewrite Hxy|done]. }
  by rewrite Hc.
Qed.

Lemma py_round_int (n : Z) : py_round (inject_Z n) = n.
Proof.
  unfold py_round. rewrite Qfloor_Z.
  assert (Hc : (inject_Z n - inject_Z n ?= 1 # 2)%Q = Lt).
  { unfold Qcompare, Qminus, Qplus, Qopp, inject_Z. cbn [Qnum Qden].
    apply Z.compare_lt_iff. lia. }
  by rewrite Hc.
Qed.

Lemma Qcompare_int (a b : Z) : (inject_Z a ?= inject_Z b)%Q = (a ?= b).
Proof. unfold Qcompare, inject_Z. simpl. by rewrite !Z.mul_1_r. Qed.

(** ["{:.0f}"] writes a natural number below [2 ^ 53] as [str] does. *)
Lemma format_0f_small (n : Z) : 0 ≤ n < 2 ^ 53 → format_0f (small_float n) = pretty n.
Proof.
  intros Hn. unfold small_float. case_bool_decide as Hz; [by subst n|].
  pose proof (Zdigits2_small n ltac:(lia)) as Hd.
  unfold normal_float. cbn [format_0f].
  rewrite normal_float_mantissa by lia.
  replace (Zdigits2 n - 53) with (- (53 - Zdigits2 n)) by lia.
  rewrite (py_round_comp _ (inject_Z n)) by (apply scaled_value; lia).
  by rewrite py_round_int.
Qed.

(** The comparison with an [int] is the comparison of the integers. *)
Lemma float_gt_int_small (n t : Z) :
  0 ≤ n < 2 ^ 53 → float_gt_int (small_float n) t = bool_decide (t < n).
Proof.
  intros Hn. destruct (small_float_value n Hn) as (v & Hv & Heq).
  assert (Hcmp : (inject_Z t ?= v)%Q = (t ?= n)).
  { rewrite <- Qcompare_int. by apply Qcompare_comp. }
  unfold float_gt_int. rewrite Hv, Hcmp.
  assert (Hshape : match small_float n with
                   | S754_nan | S754_infinity _ => False | _ => True end).
  { unfold small_float, normal_float. by case_bool_decide. }
  destruct (small_float n); try done.
  - case_bool_decide as Hlt.
    + apply Z.compare_lt_iff in Hlt. by rewrite Hlt.
    + destruct (t ?= n) eqn:E; [done| |done].
      pose proof (proj1 (Z.compare_lt_iff t n) E). lia.
  - case_bool_decide as Hlt.
    + apply Z.compare_lt_iff in Hlt. by rewrite Hlt.
    + destruct (t ?= n) eqn:E; [done| |done].
      pose proof (proj1 (Z.compare_lt_iff t n) E). lia.
Qed.

(** ** Segment reducer *)

(** With a cutoff of 0 the first line that is below the initial cutoff value
    makes the loop pop from an empty list. *)
Lemma keep_line_zero_cutoff (value : Z) (x_line : pathdata_line) :
  value < 999999 → keep_line 0 value x_line ([], 999999) = None.
Proof.
  intros Hv. unfold keep_line. rewrite bool_decide_eq_true_2 by done.
  rewrite bool_decide_eq_true_2 by (simpl; lia). done.
Qed.

Lemma reduce_segment_zero_cutoff (cutoff_lightest : Z) (x_line : pathdata_line)
    (content : list pathdata_line) (t c : Z) :
  data_list x_line !! 0%nat = Some t → data_list x_line !! 1%nat = Some c →
  t < 999999 →
  reduce_segment 0 cutoff_lightest (x_line :: content) = None.
Proof.
  intros Ht Hc Hlt. unfold reduce_segment. cbn [for_each]. unfold reduce_step.
  rewrite Ht, Hc. cbn [mbind option_bind fst snd].
  rewrite keep_line_zero_cutoff by done. done.
Qed.

(** C5.  Three paths in file order with times 5, 1, 9 and consumables 1, 2,
    3.  With both cutoffs 2 the reducer keeps the first and the third line:
    the fastest path is dropped and the slowest and heaviest one is kept.
    With both cutoffs 1 it keeps the second line only, dropping the
    lightest path.  With a cutoff of 0 it raises instead of keeping all. *)
Theorem reducer_is_not_k_smallest :
  reduce_segment 2 2 [line_1; line_2; line_3] = Some [line_1; line_3]
  ∧ reduce_segment 1 1 [line_1; line_2; line_3] = Some [line_2]
  ∧ reduce_segment 0 0 [line_1; line_2; line_3] = None
  ∧ reduce_segment 0 2 [line_1; line_2; line_3] = None.
Proof. repeat split; vm_compute; reflexivity. Qed.

(** ** Travel time of an edge *)

(** [int()] is the floor of a non-negative number and the ceiling of a
    negative one. *)
Lemma py_int_floor_ceiling (x : Q) :
  py_int x = if Qle_bool 0 x then Qfloor x else Qceiling x.
Proof.
  destruct x as [n d]. unfold py_int, Qle_bool, Qceiling, Qfloor, Qopp. simpl.
  rewrite Z.mul_1_r, ?Z.mul_0_l.
  destruct (Z.leb_spec 0 n) as [Hn|Hn].
  - apply Z.quot_div_nonneg; lia.
  - rewrite <- (Z.opp_involutive n) at 1. rewrite Z.quot_opp_l by lia.
    f_equal. apply Z.quot_div_nonneg; lia.
Qed.

(** The run of lines 687-699 on an edge of the two tables, up to the call
    of [int()]. *)
Lemma move_time_edge (ABN delta_H : gmap string Q) (cfg : setup)
    (last_node node : string) (distance delta_h : Q) (move_dist d : Z)
    (fd q : spec_float) :
  String.eqb (last_node +:+ "-" +:+ node) "start-PA" = false →
  ABN !! (last_node +:+ "-" +:+ node) = Some distance →
  delta_H !! (last_node +:+ "-" +:+ node) = Some delta_h →
  float_round (nearest_float distance) = Some move_dist →
  float_round (nearest_float delta_h) = Some d →
  float_of_int d = Some fd →
  int_true_div move_dist (adv_speed cfg) = Some q →
  move_time ABN delta_H cfg last_node node
  = float_int
      (float_add
         (float_add q (float_mul fd (nearest_float (if bool_decide (0 < d)
                                                    then ascend_fatigue cfg
                                                    else descend_fatigue cfg))))
         (nearest_float (51 # 1000))).
Proof.
  intros Hkey Hd Hh Hdist Hrise Hfd Hq. unfold move_time.
  rewrite Hkey, Hd, Hh. cbn [mbind option_bind].
  rewrite Hdist. cbn [mbind option_bind]. rewrite Hrise. cbn [mbind option_bind].
  rewrite Hfd. cbn [mbind option_bind]. rewrite Hq. cbn [mbind option_bind].
  by case_bool_decide.
Qed.

(** C7, as amended.  For an edge other than [start-PA] that is in both
    tables, the travel time the report shows is the double [x] truncated
    toward zero, the floor of [x] when [x] is not negative and the ceiling
    of [x] when it is.  [x] is computed in floating point, every operation
    rounded to the nearest double: the distance and the rise are read as
    doubles and rounded to the nearest integer first (ties to even); the
    surcharge is the rounded rise times the ascent factor when the rounded
    rise is positive and times the descent factor otherwise; [x] is the
    rounded distance over the speed, plus the surcharge, plus 0.051. *)
Theorem move_time_truncates (ABN delta_H : gmap string Q) (cfg : setup)
    (last_node node : string) (distance delta_h : Q) (move_dist d : Z)
    (fd q : spec_float) (v : Q) :
  String.eqb (last_node +:+ "-" +:+ node) "start-PA" = false →
  ABN !! (last_node +:+ "-" +:+ node) = Some distance →
  delta_H !! (last_node +:+ "-" +:+ node) = Some delta_h →
  float_round (nearest_float distance) = Some move_dist →
  float_round (nearest_float delta_h) = Some d →
  float_of_int d = Some fd →
  int_true_div move_dist (adv_speed cfg) = Some q →
  let vertical :=
    float_mul fd (nearest_float (if bool_decide (0 < d) then ascend_fatigue cfg
                                 else descend_fatigue cfg)) in
  let x := float_add (float_add q vertical) (nearest_float (51 # 1000)) in
  float_value x = Some v →
  move_time ABN delta_H cfg last_node node
  = Some (if Qle_bool 0 v then Qfloor v else Qceiling v).
Proof.
  intros Hkey Hd Hh Hdist Hrise Hfd Hq vertical x Hv.
  rewrite (move_time_edge ABN delta_H cfg last_node node distance delta_h move_dist d fd q)
    by done.
  fold vertical. fold x. unfold float_int. rewrite Hv. cbn [fmap option_fmap option_map].
  by rewrite py_int_floor_ceiling.
Qed.

Lemma move_time_truncates_witness :
  ∃ v : Q,
    move_time {[ "T1-T2"%string := 0%Q ]} {[ "T1-T2"%string := (-3)%Q ]} default_setup
      "T1" "T2"
    = Some (if Qle_bool 0 v then Qfloor v else Qceiling v).
Proof.
  eexists.
  eapply (move_time_truncates {[ "T1-T2"%string := 0%Q ]} {[ "T1-T2"%string := (-3)%Q ]}
            default_setup "T1" "T2" 0%Q (-3)%Q 0 (-3)).
  - reflexivity.
  - reflexivity.
  - reflexivity.
  - vm_compute. reflexivity.
  - vm_compute. reflexivity.
  - vm_compute. reflexivity.
  - vm_compute. reflexivity.
  - vm_compute. reflexivity.
Defined.

(** The report rounds as doubles do.  For 11 ft at 11 ft/s, a rise of 1 ft
    and an ascent factor of 0.949 s/ft the sum of the doubles is
    1.9999999999999998, so the report shows 1 s, where the sum of the
    numbers as written is 2. *)
Lemma move_time_rounds_as_doubles :
  move_time {[ "T1-T2"%string := 11%Q ]} {[ "T1-T2"%string := 1%Q ]}
    {| adv_speed := 11; ascend_fatigue := 949 # 1000; descend_fatigue := 1 # 20 |} "T1" "T2"
  = Some 1
  ∧ spec_travel_time {| adv_speed := 11; ascend_fatigue := 949 # 1000;
                        descend_fatigue := 1 # 20 |} 11 1 = 2.
Proof. split; vm_compute; reflexivity. Qed.

(** C7 as stated fails.  A descent of 3 ft over no distance with a descent
    factor of 0.5 s/ft: the report shows -1 s where the floor of the sum
    -1.449 is -2 s.  An edge of 19.6 ft walked at 1 ft/s: the report shows
    20 s, from the rounded distance, where the floor of 19.651 is 19 s. *)
Lemma move_time_is_not_floor :
  move_time {[ "T1-T2"%string := 0%Q ]} {[ "T1-T2"%string := (-3)%Q ]}
    {| adv_speed := 11; ascend_fatigue := 1 # 2; descend_fatigue := 1 # 2 |} "T1" "T2"
  = Some (-1)
  ∧ spec_travel_time {| adv_speed := 11; ascend_fatigue := 1 # 2; descend_fatigue := 1 # 2 |}
      0 (-3) = -2
  ∧ move_time {[ "T1-T2"%string := (196 # 10)%Q ]} {[ "T1-T2"%string := 0%Q ]}
      {| adv_speed := 1; ascend_fatigue := 1 # 2; descend_fatigue := 1 # 20 |} "T1" "T2"
    = Some 20
  ∧ spec_travel_time {| adv_speed := 1; ascend_fatigue := 1 # 2; descend_fatigue := 1 # 20 |}
      (196 # 10) 0 = 19.
Proof. repeat split; vm_compute; reflexivity. Qed.

(** * The logic parser *)

(** ** The loops of [parse_mission] *)

Lemma add_node_ok (acc node : string) :
  is_node_id node → add_node acc node = Some (acc +:+ node +:+ ":").
Proof.
  intros (Hne & _ & _ & _ & Hcolon).
  destruct (last_char_other ":" node Hne Hcolon) as (a & Ha & Hneq).
  unfold add_node. rewrite Ha. cbn [mbind option_bind]. by rewrite Hneq.
Qed.

Lemma add_option_ok (node : string) :
  is_node_id node → add_option node = Some (node +:+ ":").
Proof.
  intros (Hne & _ & _ & _ & Hcolon).
  destruct (last_char_other ":" node Hne Hcolon) as (a & Ha & Hneq).
  unfold add_option. rewrite Ha. cbn [mbind option_bind]. by rewrite Hneq.
Qed.

Lemma add_nodes_ok (nodes : list string) :
  Forall is_node_id nodes →
  ∀ acc, for_each add_node nodes acc = Some (acc +:+ waypoints nodes).
Proof.
  intros Hall. induction Hall as [|node r Hn Hr IH]; intros acc; cbn [for_each waypoints].
  - by rewrite string_app_empty_r.
  - rewrite add_node_ok by done. cbn [mbind option_bind]. rewrite IH.
    by rewrite !string_app_assoc.
Qed.

Lemma mapM_all_ok {A B : Type} (f : A → option B) (g : A → B) (l : list A) :
  (∀ x, x ∈ l → f x = Some (g x)) → mapM f l = Some (g <$> l).
Proof.
  induction l as [|x l IH]; intros Hall; [done|].
  cbn [mapM]. rewrite Hall by set_solver. simpl. rewrite IH by set_solver. done.
Qed.

Lemma add_options_ok (nodes : list string) :
  Forall is_node_id nodes →
  mapM add_option nodes = Some ((λ node, node +:+ ":") <$> nodes).
Proof.
  intros Hall. apply mapM_all_ok. intros node Hin. apply add_option_ok.
  by apply (proj1 (Forall_forall _ _) Hall).
Qed.

Lemma listdepth_strings (l : list string) :
  l ≠ [] → listdepth (PList (PStr <$> l)) = Some 1%nat.
Proof.
  intros Hne. simpl.
  assert (H : (fix max_depth (l0 : list pyval) : option nat :=
                 match l0 with
                 | [] => None
                 | x :: r =>
                     dx ← listdepth x;
                     match r with
                     | [] => Some dx
                     | _ :: _ => dr ← max_depth r; Some (Nat.max dx dr)
                     end
                 end) (PStr <$> l) = Some 0%nat).
  { induction l as [|x l IH]; [done|]. destruct l as [|y l]; [done|].
    specialize (IH ltac:(done)). simpl in *. by rewrite IH. }
  by rewrite H.
Qed.

Lemma flatten_strings (fuel : nat) (l : list string) :
  l ≠ [] → flatten_while fuel (PStr <$> l) = Some (PStr <$> l).
Proof.
  intros Hne. destruct fuel; cbn [flatten_while]; rewrite listdepth_strings by done; done.
Qed.

Lemma chain_one_list (l : list pyval) : chain [PList l] = l.
Proof. unfold chain. simpl. by rewrite app_nil_r. Qed.

Lemma flatten_while_step (fuel : nat) (path_strings : list pyval) (depth : nat) :
  listdepth (PList path_strings) = Some depth → (1 < depth)%nat →
  flatten_while (S fuel) path_strings = flatten_while fuel (chain path_strings).
Proof.
  intros Hd Hlt. cbn [flatten_while]. rewrite Hd. cbn [mbind option_bind].
  by rewrite bool_decide_eq_true_2.
Qed.

Lemma flatten_list_of_strings (l : list string) :
  l ≠ [] →
  (depth ← listdepth (PList [PList (PStr <$> l)]);
   flatten_while depth [PList (PStr <$> l)]) = Some (PStr <$> l).
Proof.
  intros Hne.
  assert (Hd : listdepth (PList [PList (PStr <$> l)]) = Some 2%nat).
  { change (listdepth (PList [PList (PStr <$> l)]))
      with (m ← (dx ← listdepth (PList (PStr <$> l)); Some dx); Some (S m)).
    by rewrite listdepth_strings. }
  rewrite Hd. cbn [mbind option_bind].
  rewrite (flatten_while_step 1 _ 2 Hd) by lia.
  rewrite chain_one_list. by apply flatten_strings.
Qed.

(** ** [itertools.permutations] *)

Lemma select_each_perm {A : Type} (l : list A) (x : A) (r : list A) :
  (x, r) ∈ select_each l → l ≡ₚ x :: r.
Proof.
  revert x r. induction l as [|y l IH]; intros x r Hin; simpl in Hin.
  - by apply elem_of_nil in Hin.
  - apply elem_of_cons in Hin as [Heq|Hin].
    + by injection Heq as -> ->.
    + apply list_elem_of_fmap in Hin as ([x' r'] & Heq & Hin). simpl in Heq.
      injection Heq as -> ->. apply IH in Hin. rewrite Hin. apply Permutation_swap.
Qed.

Lemma select_each_elem {A : Type} (l : list A) (x : A) :
  x ∈ l → ∃ r, (x, r) ∈ select_each l.
Proof.
  induction l as [|y l IH]; intros Hin.
  - by apply elem_of_nil in Hin.
  - apply elem_of_cons in Hin as [->|Hin].
    + exists l. simpl. left.
    + destruct (IH Hin) as (r & Hr). exists (y :: r). simpl. right.
      apply list_elem_of_fmap. by exists (x, r).
Qed.

Lemma select_each_length {A : Type} (l : list A) :
  length (select_each l) = length l.
Proof. induction l as [|y l IH]; simpl; [done|]. by rewrite length_fmap, IH. Qed.

Lemma bind_length_uniform {A B : Type} (f : A → list B) (l : list A) (k : nat) :
  (∀ x, x ∈ l → length (f x) = k) → length (l ≫= f) = (length l * k)%nat.
Proof.
  induction l as [|x l IH]; intros Hall; [done|].
  rewrite bind_cons, length_app, Hall, IH by set_solver. simpl. lia.
Qed.

Lemma permutations_sound {A : Type} (n : nat) :
  ∀ (l p : list A), length l = n → p ∈ permutations_of_length n l → p ≡ₚ l.
Proof.
  induction n as [|n IH]; intros l p Hlen Hin; simpl in Hin.
  - apply list_elem_of_singleton in Hin as ->. by destruct l.
  - apply list_elem_of_bind in Hin as ([x r] & Hin & Hsel). simpl in Hin.
    apply list_elem_of_fmap in Hin as (p' & -> & Hin).
    pose proof (select_each_perm l x r Hsel) as Hperm.
    rewrite Hperm. constructor. apply IH; [|done].
    apply Permutation_length in Hperm. simpl in Hperm. lia.
Qed.

Lemma permutations_complete {A : Type} (p : list A) :
  ∀ l, p ≡ₚ l → p ∈ permutations_of_length (length l) l.
Proof.
  induction p as [|x p IH]; intros l Hperm.
  - apply Permutation_nil_l in Hperm. subst l. simpl. left.
  - assert (Hx : x ∈ l) by (rewrite <- Hperm; left).
    destruct (select_each_elem l x Hx) as (r & Hsel).
    pose proof (select_each_perm l x r Hsel) as Hl.
    assert (Hpr : p ≡ₚ r).
    { apply (Permutation_cons_inv (a := x)). by rewrite Hperm. }
    assert (Hlen : length l = S (length r)) by (by rewrite Hl).
    rewrite Hlen. simpl. apply list_elem_of_bind. exists (x, r). split; [|done].
    simpl. apply list_elem_of_fmap. exists p. split; [done|]. by apply IH.
Qed.

Lemma permutations_length {A : Type} (n : nat) :
  ∀ l : list A, length l = n → length (permutations_of_length n l) = fact n.
Proof.
  induction n as [|n IH]; intros l Hlen; [done|].
  cbn [permutations_of_length].
  rewrite (bind_length_uniform _ _ (fact n)).
  - rewrite select_each_length, Hlen. simpl. lia.
  - intros [x r] Hsel. simpl. rewrite length_fmap. apply IH.
    apply select_each_perm, Permutation_length in Hsel. simpl in Hsel. lia.
Qed.

Lemma itertools_permutations_spec {A : Type} (l p : list A) :
  p ∈ itertools_permutations l ↔ p ≡ₚ l.
Proof.
  split.
  - by apply permutations_sound.
  - apply permutations_complete.
Qed.

Lemma select_each_fst {A : Type} (l : list A) : (select_each l).*1 = l.
Proof.
  induction l as [|y l IH]; simpl; [done|]. f_equal.
  rewrite <- list_fmap_compose. rewrite <- IH at 2. by apply list_fmap_ext.
Qed.

Lemma select_each_rest_unique {A : Type} (l : list A) (x : A) (r1 r2 : list A) :
  NoDup l → (x, r1) ∈ select_each l → (x, r2) ∈ select_each l → r1 = r2.
Proof.
  intros Hnd H1 H2.
  assert (Hnd' : NoDup (select_each l).*1) by by rewrite select_each_fst.
  pose proof (NoDup_fmap_1 _ _ Hnd') as Hnds.
  apply list_elem_of_lookup in H1 as (i & Hi), H2 as (j & Hj).
  assert (i = j).
  { eapply NoDup_lookup; [exact Hnd'| |].
    - rewrite list_lookup_fmap, Hi. done.
    - rewrite list_lookup_fmap, Hj. done. }
  subst j. rewrite Hi in Hj. by injection Hj.
Qed.

(** Distinct items give distinct orderings: each permutation comes once. *)
Lemma permutations_NoDup {A : Type} (n : nat) :
  ∀ l : list A, NoDup l → NoDup (permutations_of_length n l).
Proof.
  induction n as [|n IH]; intros l Hnd; simpl.
  - apply NoDup_singleton.
  - apply NoDup_bind.
    + intros [x1 r1] [x2 r2] p Hin1 Hin2 Hp1 Hp2. simpl in *.
      apply list_elem_of_fmap in Hp1 as (p1 & -> & _).
      apply list_elem_of_fmap in Hp2 as (p2 & [= <- _] & _).
      f_equal. by apply (select_each_rest_unique l x1).
    + intros [x r] Hin. simpl. apply NoDup_fmap_2; [by intros ?? [=]|].
      apply IH. apply select_each_perm in Hin. rewrite Hin in Hnd.
      by apply NoDup_cons in Hnd as [_ ?].
    + eapply NoDup_fmap_1. by rewrite select_each_fst.
Qed.

Lemma split_waypoints (ids : list string) :
  Forall (λ s, contains ":" s = false) ids →
  split ":" (waypoints ids) = ids ++ [EmptyString].
Proof.
  intros Hall. induction Hall as [|a r Ha Hr IH]; [done|].
  cbn [waypoints]. rewrite split_app_sep by done. by rewrite IH.
Qed.

Lemma waypoints_inj (l1 l2 : list string) :
  Forall is_node_id l1 → Forall is_node_id l2 →
  waypoints l1 = waypoints l2 → l1 = l2.
Proof.
  intros H1 H2 Heq. apply (f_equal (split ":")) in Heq.
  rewrite !split_waypoints in Heq.
  - by apply app_inv_tail in Heq.
  - eapply Forall_impl; [exact H2|]. by intros s (_ & _ & _ & _ & ?).
  - eapply Forall_impl; [exact H1|]. by intros s (_ & _ & _ & _ & ?).
Qed.

(** Distinct identities give distinct mission strings. *)
Lemma missions_NoDup (ids : list string) :
  Forall is_node_id ids → NoDup ids →
  NoDup (PStr ∘ waypoints <$> itertools_permutations ids).
Proof.
  intros Hall Hnd. apply NoDup_fmap_2_strong; [|by apply permutations_NoDup].
  intros p1 p2 Hp1 Hp2 [= Heq].
  apply itertools_permutations_spec in Hp1, Hp2.
  apply waypoints_inj; [by rewrite Hp1 | by rewrite Hp2 | done].
Qed.

(** ** The three operators *)

Lemma is_node_id_no (c : ascii) (ids : list string) :
  c = "+"%char ∨ c = "_"%char ∨ c = ","%char →
  Forall is_node_id ids → Forall (λ s, contains c s = false) ids.
Proof.
  intros Hc Hall. eapply Forall_impl; [exact Hall|].
  intros s (_ & Hp & Hu & Hk & _). by destruct Hc as [->|[->| ->]].
Qed.

Lemma parse_unordered_and (ids : list string) :
  Forall is_node_id ids → (2 ≤ length ids)%nat →
  parse_mission (join "+" ids) = Some (PStr ∘ waypoints <$> itertools_permutations ids).
Proof.
  intros Hall Hlen. unfold parse_mission.
  rewrite contains_join_sep by done.
  rewrite split_join; [| apply is_node_id_no; auto | intros ->; simpl in Hlen; lia ].
  rewrite (mapM_all_ok _ waypoints).
  - cbn [mbind option_bind].
    rewrite flatten_list_of_strings; [by rewrite <- list_fmap_compose|].
    intros Hnil. apply (f_equal length) in Hnil. rewrite length_fmap in Hnil.
    unfold itertools_permutations in Hnil. rewrite permutations_length in Hnil by done.
    pose proof (lt_O_fact (length ids)). simpl in Hnil. lia.
  - intros combo Hin. apply itertools_permutations_spec in Hin.
    rewrite add_nodes_ok; [done|]. by rewrite Hin.
Qed.

Lemma parse_ordered_and (ids : list string) :
  Forall is_node_id ids → (2 ≤ length ids)%nat →
  parse_mission (join "_" ids) = Some [PStr (waypoints ids)].
Proof.
  intros Hall Hlen. unfold parse_mission.
  rewrite (contains_join_other "+" "_"); [| apply is_node_id_no; auto | done].
  rewrite contains_join_sep by done.
  rewrite split_join; [| apply is_node_id_no; auto | intros ->; simpl in Hlen; lia ].
  rewrite add_nodes_ok by done. cbn [mbind option_bind].
  change [PStr (EmptyString +:+ waypoints ids)] with (PStr <$> [waypoints ids]).
  rewrite listdepth_strings by done. cbn [mbind option_bind].
  by rewrite flatten_strings.
Qed.

Lemma parse_or (ids : list string) :
  Forall is_node_id ids → (2 ≤ length ids)%nat →
  parse_mission (join "," ids) = Some ((λ node, PStr (node +:+ ":")) <$> ids).
Proof.
  intros Hall Hlen. unfold parse_mission.
  rewrite (contains_join_other "+" ","); [| apply is_node_id_no; auto | done].
  rewrite (contains_join_other "_" ","); [| apply is_node_id_no; auto | done].
  rewrite contains_join_sep by done.
  rewrite split_join; [| apply is_node_id_no; auto | intros ->; simpl in Hlen; lia ].
  rewrite add_options_ok by done. cbn [mbind option_bind].
  assert (Hne : ((λ node : string, node +:+ ":") <$> ids) ≠ []).
  { destruct ids; [simpl in Hlen; lia|done]. }
  rewrite listdepth_strings by done. cbn [mbind option_bind].
  rewrite flatten_strings by done. by rewrite <- list_fmap_compose.
Qed.

(** C6.  For a group of [k] node identities ([k] at least 2, the identities free of
    the operator characters): joined by [+], [parse_mission] returns the mission
    strings of [itertools.permutations], one per ordering, and these are
    [k!] sequences which are exactly the permutations of the group (all
    different when the identities are); joined
    by [_] it returns the one sequence in the written order; joined by [,]
    it returns one single-waypoint string per identity.  In particular
    [A_B] gives the one mission [A:B:], and its reverse is not returned. *)
Theorem parse_mission_expands_group (ids : list string) :
  Forall is_node_id ids → (2 ≤ length ids)%nat →
  (parse_mission (join "+" ids) = Some (PStr ∘ waypoints <$> itertools_permutations ids)
   ∧ length (itertools_permutations ids) = fact (length ids)
   ∧ (∀ order, order ∈ itertools_permutations ids ↔ order ≡ₚ ids)
   ∧ (NoDup ids → NoDup (PStr ∘ waypoints <$> itertools_permutations ids)))
  ∧ parse_mission (join "_" ids) = Some [PStr (waypoints ids)]
  ∧ parse_mission (join "," ids) = Some ((λ node, PStr (node +:+ ":")) <$> ids)
  ∧ parse_mission "A_B" = Some [PStr "A:B:"]
  ∧ PStr "B:A:" ∉ [PStr "A:B:"].
Proof.
  intros Hall Hlen. split; [split; [|split; [|split]]|split; [|split; [|split]]].
  - by apply parse_unordered_and.
  - by apply permutations_length.
  - intros order. apply itertools_permutations_spec.
  - by apply missions_NoDup.
  - by apply parse_ordered_and.
  - by apply parse_or.
  - vm_compute. reflexivity.
  - intros Hin. apply list_elem_of_singleton in Hin. discriminate.
Qed.

Lemma node_ids_A_B : Forall is_node_id ["A"; "B"]%string.
Proof. repeat constructor; done. Qed.

Lemma parse_mission_expands_group_witness :
  (parse_mission "A+B" = Some [PStr "A:B:"; PStr "B:A:"]
   ∧ length (itertools_permutations ["A"; "B"]%string) = 2%nat
   ∧ (∀ order, order ∈ itertools_permutations ["A"; "B"]%string ↔ order ≡ₚ ["A"; "B"]%string)
   ∧ (NoDup ["A"; "B"]%string →
      NoDup (PStr ∘ waypoints <$> itertools_permutations ["A"; "B"]%string)))
  ∧ parse_mission "A_B" = Some [PStr "A:B:"]
  ∧ parse_mission "A,B" = Some [PStr "A:"; PStr "B:"]
  ∧ parse_mission "A_B" = Some [PStr "A:B:"]
  ∧ PStr "B:A:" ∉ [PStr "A:B:"].
Proof.
  apply (parse_mission_expands_group ["A"; "B"]%string node_ids_A_B). simpl. lia.
Defined.

(** * The scheduling loop *)

Lemma remove_first_other {A : Type} `{EqDecision A} (x y : A) (l : list A) :
  x ∈ l → x ≠ y → x ∈ remove_first y l.
Proof.
  intros Hin Hne. induction l as [|z l IH]; [done|]. simpl.
  destruct (decide (z = y)) as [->|Hzy].
  - apply elem_of_cons in Hin as [->|Hin]; done.
  - apply elem_of_cons in Hin as [->|Hin]; [left|right; auto].
Qed.

(** The body of the loop never takes a key with an unknown end point out of
    the queue and never starts a worker for it. *)
Lemma for_body_keeps_unknown (cfg : sched_config) (st : sched) (my_segment k : string) :
  unknown_endpoint cfg k → k ∈ queue st → k ∉ started st →
  k ∈ queue (for_body cfg st my_segment) ∧ (k ∉ started (for_body cfg st my_segment)).
Proof.
  intros Hunk Hq Hs. unfold for_body.
  case_bool_decide as Hcap; [|done].
  destruct (bool_decide (segment_from my_segment ∈ node_id cfg)) eqn:H1;
    destruct (bool_decide (segment_to my_segment ∈ node_id cfg)) eqn:H2; simpl; try done.
  apply bool_decide_eq_true in H1, H2.
  assert (Hne : k ≠ my_segment).
  { intros ->. destruct Hunk; done. }
  split; [by apply remove_first_other|].
  intros Hin. apply elem_of_app in Hin as [Hin|Hin]; [done|].
  apply list_elem_of_singleton in Hin. done.
Qed.

Lemma sched_step_keeps_unknown (cfg : sched_config) (st st' : sched) (k : string) :
  unknown_endpoint cfg k →
  sched_step cfg st st' →
  k ∈ queue st ∧ (k ∉ started st) ∧ at_line st ≠ AfterLoop →
  k ∈ queue st' ∧ (k ∉ started st') ∧ at_line st' ≠ AfterLoop.
Proof.
  intros Hunk Hstep (Hq & Hs & Hl).
  destruct Hstep as [st Hat Hne | st Hat Hqe Hwe | st i seg Hat Hseg | st i Hat Hend | st f Hf];
    simpl.
  - done.
  - rewrite Hqe in Hq. by apply elem_of_nil in Hq.
  - destruct (for_body_keeps_unknown cfg st seg k Hunk Hq Hs) as [Hq' Hs']. done.
  - done.
  - done.
Qed.

(** C9.  A key with an end point that is not a known node, once in the
    queue, stays there: whatever the main process and the workers do, the
    key is still queued, no worker has been started for it (so nothing is
    ever recorded for it), and the main process has not left the loop
    [while queue or working]. *)
Theorem unknown_key_is_never_settled (cfg : sched_config) (st0 st : sched) (k : string) :
  unknown_endpoint cfg k →
  k ∈ queue st0 → k ∉ started st0 → at_line st0 ≠ AfterLoop →
  rtc (sched_step cfg) st0 st →
  k ∈ queue st ∧ (k ∉ started st) ∧ at_line st ≠ AfterLoop.
Proof.
  intros Hunk Hq Hs Hl Hsteps.
  induction Hsteps as [st|st1 st2 st3 Hstep _ IH]; [done|].
  destruct (sched_step_keeps_unknown cfg st1 st2 k Hunk Hstep) as (Hq' & Hs' & Hl'); [done|].
  by apply IH.
Qed.

Lemma one_pass_trace : rtc (sched_step small_site) queue_with_unknown after_one_pass.
Proof.
  eapply rtc_l; [apply step_enter; [reflexivity | left; discriminate]|].
  eapply rtc_l; [apply (step_body _ _ 0%nat "start:X9"); reflexivity|].
  eapply rtc_l; [apply (step_body _ _ 1%nat "start:T1"); reflexivity|].
  eapply rtc_l.
  { apply (step_worker _ _ (pathdata_filename small_site "start:T1")).
    vm_compute. apply list_elem_of_here. }
  eapply rtc_l; [apply (step_leave _ _ 2%nat); reflexivity|].
  apply rtc_refl.
Qed.

Lemma unknown_key_is_never_settled_witness :
  "start:X9"%string ∈ queue after_one_pass
  ∧ ("start:X9"%string ∉ started after_one_pass)
  ∧ at_line after_one_pass ≠ AfterLoop.
Proof.
  apply (unknown_key_is_never_settled small_site queue_with_unknown after_one_pass "start:X9").
  - right. vm_compute. intros Hin. repeat (apply elem_of_cons in Hin as [Hin|Hin]; [discriminate|]).
    by apply elem_of_nil in Hin.
  - vm_compute. apply list_elem_of_here.
  - vm_compute. apply not_elem_of_nil.
  - discriminate.
  - exact one_pass_trace.
Defined.

(** * The assembler's combination function *)

Section Frame.
Variable D : gset loc.

Lemma keeps_weaken {A : Type} (m : py A) (P Q : A → Prop) :
  keeps D m P → (∀ a, P a → Q a) → keeps D m Q.
Proof.
  intros Hm HPQ w Hw. destruct (Hm w Hw) as (H1 & H2 & H3). auto.
Qed.

Lemma keeps_ret {A : Type} (a : A) (Q : A → Prop) : Q a → keeps D (py_ret a) Q.
Proof.
  intros HQ w Hw. simpl. split; [done|]. split; [done|]. by intros ? [= <-].
Qed.

Lemma keeps_lift {A : Type} (o : option A) : keeps D (py_lift o) (λ _, True).
Proof. intros w Hw. simpl. done. Qed.

Lemma keeps_raise {A : Type} (Q : A → Prop) : keeps D (py_raise : py A) Q.
Proof. intros w Hw. simpl. done. Qed.

Lemma keeps_bind {A B : Type} (m : py A) (k : A → py B) (P : A → Prop) (Q : B → Prop) :
  keeps D m P → (∀ a, P a → keeps D (k a) Q) → keeps D (py_bind m k) Q.
Proof.
  intros Hm Hk w Hw. unfold py_bind.
  destruct (Hm w Hw) as (H1 & H2 & H3).
  destruct (m w) as [w1 [a|]]; simpl in *; [|done].
  destruct (Hk a (H3 a eq_refl) w1 H2) as (K1 & K2 & K3).
  split; [|done]. intros l Hl. rewrite K1 by done. auto.
Qed.

Lemma keeps_read (l : loc) : keeps D (read_object l) (λ _, True).
Proof. intros w Hw. simpl. done. Qed.

Lemma keeps_new (o : pyobj) : keeps D (new_object o) (λ l, l ∉ D).
Proof.
  intros w Hw. simpl.
  assert (Hfresh : fresh (dom (heap w)) ∉ D).
  { intros Hin. apply (is_fresh (dom (heap w))). by apply Hw. }
  split; [|split].
  - intros l Hl. rewrite lookup_insert_ne; [done|]. by intros <-.
  - rewrite dom_insert_L. set_solver.
  - by intros ? [= <-].
Qed.

Lemma keeps_write (l : loc) (o : pyobj) :
  l ∉ D → keeps D (write_object l o) (λ _, True).
Proof.
  intros Hl w Hw. simpl. split; [|split; [|done]].
  - intros l' Hl'. rewrite lookup_insert_ne; [done|]. by intros <-.
  - rewrite dom_insert_L. set_solver.
Qed.

Lemma keeps_write_invalid (line : string) : keeps D (write_invalid line) (λ _, True).
Proof. intros w Hw. simpl. done. Qed.

Lemma keeps_read_lists (l : loc) : keeps D (read_lists l) (λ _, True).
Proof.
  eapply keeps_bind; [apply keeps_read|]. intros [items|items] _.
  - by apply keeps_ret.
  - apply keeps_raise.
Qed.

Lemma keeps_read_strings (l : loc) : keeps D (read_strings l) (λ _, True).
Proof.
  eapply keeps_bind; [apply keeps_read|]. intros [items|items] _.
  - apply keeps_raise.
  - by apply keeps_ret.
Qed.

Lemma keeps_for {A : Type} (body : A → py unit) (l : list A) :
  (∀ x, keeps D (body x) (λ _, True)) → keeps D (py_for body l) (λ _, True).
Proof.
  intros Hbody. induction l as [|x l IH]; simpl.
  - by apply keeps_ret.
  - eapply keeps_bind; [apply Hbody|]. by intros _ _.
Qed.

Lemma keeps_is_empty_list (l : loc) : keeps D (is_empty_list l) (λ _, True).
Proof.
  eapply keeps_bind; [apply keeps_read|]. intros [items|items] _; by apply keeps_ret.
Qed.

Lemma keeps_any_empty (segments : list loc) : keeps D (any_empty segments) (λ _, True).
Proof.
  induction segments as [|s r IH]; simpl.
  - by apply keeps_ret.
  - eapply keeps_bind; [apply keeps_is_empty_list|]. intros [|] _; [by apply keeps_ret|done].
Qed.

Lemma keeps_first_is_blank (l : loc) : keeps D (first_is_blank l) (λ _, True).
Proof.
  eapply keeps_bind; [apply keeps_read|].
  intros [[|x items]|[|s items]] _; (by apply keeps_ret) || apply keeps_raise.
Qed.

Lemma keeps_combine_into (t c nc : Z) (new_list : loc) (item2 item1 : string) :
  new_list ∉ D → keeps D (combine_into t c nc new_list item2 item1) (λ _, True).
Proof.
  intros Hnew. eapply keeps_bind; [apply keeps_lift|]. intros [valid new_string] _.
  destruct valid; simpl.
  - eapply keeps_bind; [apply keeps_read_strings|]. intros items _. by apply keeps_write.
  - apply keeps_write_invalid.
Qed.

Lemma keeps_perm_round (t c nc : Z) (result new_list : loc) :
  result ∉ D → new_list ∉ D →
  keeps D (perm_round t c nc result new_list) (λ _, True).
Proof.
  intros Hres Hnew. unfold perm_round.
  eapply keeps_bind; [apply keeps_read_lists|]. intros lists _.
  eapply keeps_bind; [apply keeps_lift|]. intros list1 _.
  eapply keeps_bind; [apply keeps_lift|]. intros list2 _.
  eapply keeps_bind; [apply keeps_read_strings|]. intros items2 _.
  eapply keeps_bind.
  { apply keeps_for. intros item2.
    eapply keeps_bind; [apply keeps_read_strings|]. intros items1 _.
    apply keeps_for. intros item1. by apply keeps_combine_into. }
  intros _ _.
  eapply keeps_bind; [apply keeps_read_lists|]. intros lists' _.
  eapply keeps_bind.
  { case_bool_decide.
    - eapply keeps_bind; [apply keeps_read_strings|]. intros items _.
      eapply keeps_bind; [apply keeps_new|]. intros copy _.
      eapply keeps_bind; [by apply keeps_write|]. intros _ _.
      by apply keeps_write.
    - by apply keeps_ret. }
  intros _ _.
  eapply keeps_bind; [apply keeps_read_lists|]. intros lists'' _.
  by apply keeps_ret.
Qed.

Lemma keeps_perm_loop (fuel : nat) (t c nc : Z) (result new_list : loc) :
  result ∉ D → new_list ∉ D →
  ∀ n, keeps D (perm_loop fuel t c nc result new_list n) (λ _, True).
Proof.
  intros Hres Hnew. induction fuel as [|fuel IH]; intros n; simpl;
    case_bool_decide; try (by apply keeps_ret); [apply keeps_raise|].
  eapply keeps_bind; [by apply keeps_perm_round|]. intros n' _. apply IH.
Qed.

Lemma keeps_perm (scenario : loc) (t c nc : Z) :
  keeps D (perm scenario t c nc) (λ _, True).
Proof.
  unfold perm.
  eapply keeps_bind; [apply keeps_read_lists|]. intros segments _.
  eapply keeps_bind; [apply keeps_new|]. intros result Hres.
  eapply keeps_bind; [apply keeps_any_empty|]. intros [|] _.
  { eapply keeps_weaken; [apply keeps_new|done]. }
  eapply keeps_bind; [apply keeps_lift|]. intros last_list _.
  eapply keeps_bind; [apply keeps_first_is_blank|]. intros blank _.
  eapply keeps_bind.
  { destruct blank; [by apply keeps_write|by apply keeps_ret]. }
  intros _ _.
  eapply keeps_bind; [apply keeps_new|]. intros new_list Hnew.
  eapply keeps_bind; [by apply keeps_perm_loop|]. intros _ _.
  by apply keeps_ret.
Qed.
End Frame.

(** C10.  Whatever [perm] does, returning or raising, every list object that
    existed before the call is the same afterwards.  So the scenario list
    holds the same per-leg lists in the same order, and every per-leg list
    holds the same strings. *)
Theorem perm_leaves_scenario_unchanged (w : world) (scenario : loc) (t c nc : Z)
    (legs : list loc) :
  heap w !! scenario = Some (ListOfLists legs) →
  heap (perm scenario t c nc w).1 !! scenario = Some (ListOfLists legs)
  ∧ (∀ leg paths, leg ∈ legs → heap w !! leg = Some (ListOfStr paths) →
       heap (perm scenario t c nc w).1 !! leg = Some (ListOfStr paths))
  ∧ (∀ l o, heap w !! l = Some o → heap (perm scenario t c nc w).1 !! l = Some o).
Proof.
  intros Hsc.
  destruct (keeps_perm (dom (heap w)) scenario t c nc w) as (Hkeep & _); [done|].
  assert (Hall : ∀ l o, heap w !! l = Some o →
                        heap (perm scenario t c nc w).1 !! l = Some o).
  { intros l o Hl. rewrite Hkeep; [done|]. apply elem_of_dom. by exists o. }
  split; [by apply Hall|]. split; [|done].
  intros leg paths _. apply Hall.
Qed.

(** On the scenario of two legs [perm] returns a new list object that holds
    the one combination within the budgets; the other goes to the invalid
    file. *)
Lemma perm_two_legs :
  (perm 0%nat 2222 333 444 two_leg_world).2 = Some 3%nat
  ∧ heap (perm 0%nat 2222 333 444 two_leg_world).1 !! 3%nat = Some (ListOfLists [5%nat])
  ∧ heap (perm 0%nat 2222 333 444 two_leg_world).1 !! 5%nat
    = Some (ListOfStr ["[00150,015,023] <005,000,000,000,000,000,000,000,000,000,000,000,000,000,000,000,000,000,000,007>, start-T1-T2"%string])
  ∧ length (invalid_file (perm 0%nat 2222 333 444 two_leg_world).1) = 1%nat.
Proof. repeat split; vm_compute; reflexivity. Qed.

Lemma perm_leaves_scenario_unchanged_witness :
  heap (perm 0%nat 2222 333 444 two_leg_world).1 !! 0%nat = Some (ListOfLists [1%nat; 2%nat])
  ∧ (∀ leg paths, leg ∈ [1%nat; 2%nat] → heap two_leg_world !! leg = Some (ListOfStr paths) →
       heap (perm 0%nat 2222 333 444 two_leg_world).1 !! leg = Some (ListOfStr paths))
  ∧ (∀ l o, heap two_leg_world !! l = Some o →
       heap (perm 0%nat 2222 333 444 two_leg_world).1 !! l = Some o).
Proof.
  apply (perm_leaves_scenario_unchanged two_leg_world 0%nat 2222 333 444 [1%nat; 2%nat]).
  reflexivity.
Defined.

(** ** The loop of [perm] ends *)

Lemma py_bind_inv {A B : Type} (m : py A) (k : A → py B) (w : world) (b : B) :
  (py_bind m k w).2 = Some b →
  ∃ w1 a, m w = (w1, Some a) ∧ py_bind m k w = k a w1.
Proof.
  unfold py_bind. destruct (m w) as [w1 [a|]]; [|done]. intros _. by exists w1, a.
Qed.

Lemma py_bind_eq_inv {A B : Type} (m : py A) (k : A → py B) (w w2 : world) (b : B) :
  py_bind m k w = (w2, Some b) →
  ∃ w1 a, m w = (w1, Some a) ∧ k a w1 = (w2, Some b).
Proof.
  unfold py_bind. destruct (m w) as [w1 [a|]]; [|done]. intros Hk. by exists w1, a.
Qed.

Lemma read_lists_inv (l : loc) (w w1 : world) (items : list loc) :
  read_lists l w = (w1, Some items) → w1 = w ∧ heap w !! l = Some (ListOfLists items).
Proof.
  unfold read_lists, py_bind, read_object. destruct (heap w !! l) as [[its|its]|]; simpl;
    intros [= <- <-] || intros [=]; done.
Qed.

Lemma read_strings_inv (l : loc) (w w1 : world) (items : list string) :
  read_strings l w = (w1, Some items) → w1 = w.
Proof.
  unfold read_strings, py_bind, read_object. destruct (heap w !! l) as [[its|its]|]; simpl;
    intros [= <- <-] || intros [=]; done.
Qed.

Lemma from_end_length {A : Type} (k : nat) (l : list A) (x : A) :
  from_end k l = Some x → (k ≤ length l)%nat.
Proof. unfold from_end. by case_bool_decide. Qed.

(** A round that returns has taken one list off [result], and its value is
    the number of lists left. *)
Lemma perm_round_shrinks (t c nc : Z) (result new_list : loc) (w : world)
    (lists : list loc) (n' : nat) :
  result ≠ new_list →
  heap w !! result = Some (ListOfLists lists) →
  (perm_round t c nc result new_list w).2 = Some n' →
  S n' = length lists
  ∧ ∃ lists', heap (perm_round t c nc result new_list w).1 !! result
                = Some (ListOfLists lists')
      ∧ length lists' = n'.
Proof.
  intros Hne Hres Hret. unfold perm_round in *.
  apply py_bind_inv in Hret as Hstep. destruct Hstep as (w1 & lists1 & Hm & Heq).
  rewrite Heq in *. clear Heq.
  apply read_lists_inv in Hm as [-> Hl]. rewrite Hres in Hl. injection Hl as <-.
  apply py_bind_inv in Hret as Hstep. destruct Hstep as (w1 & list1 & Hm & Heq).
  rewrite Heq in *. clear Heq. injection Hm as <- Hlist1.
  apply py_bind_inv in Hret as Hstep. destruct Hstep as (w1 & list2 & Hm & Heq).
  rewrite Heq in *. clear Heq. injection Hm as <- Hlist2.
  apply from_end_length in Hlist2.
  apply py_bind_inv in Hret as Hstep. destruct Hstep as (w1 & items2 & Hm & Heq).
  rewrite Heq in *. clear Heq. apply read_strings_inv in Hm as ->.
  apply py_bind_inv in Hret as Hstep. destruct Hstep as (w1 & [] & Hm & Heq).
  rewrite Heq in *. clear Heq.
  assert (Hres1 : heap w1 !! result = Some (ListOfLists lists)).
  { assert (Hk : keeps {[result]}
                   (py_for (λ item2,
                      py_bind (read_strings list1)
                        (λ items1, py_for (combine_into t c nc new_list item2) items1)) items2)
                   (λ _, True)).
    { apply keeps_for. intros item2.
      eapply keeps_bind; [apply keeps_read_strings|]. intros items1 _.
      apply keeps_for. intros item1. apply keeps_combine_into. set_solver. }
    destruct (Hk w) as (Hsame & _).
    { apply singleton_subseteq_l, elem_of_dom. by eexists. }
    rewrite Hm in Hsame. simpl in Hsame. rewrite Hsame by set_solver. done. }
  clear Hm w Hres.
  apply py_bind_inv in Hret as Hstep. destruct Hstep as (w2 & lists2 & Hm & Heq).
  rewrite Heq in *. clear Heq.
  apply read_lists_inv in Hm as [-> Hl]. rewrite Hres1 in Hl. injection Hl as <-.
  rewrite bool_decide_eq_true_2 in * by lia.
  apply py_bind_inv in Hret as Hstep. destruct Hstep as (w2 & [] & Hm & Heq).
  rewrite Heq in *. clear Heq.
  assert (Hres2 : heap w2 !! result
                  = Some (ListOfLists (removelast (<[(length lists - 2)%nat :=
                                                       fresh (dom (heap w1))]> lists)))).
  { apply py_bind_eq_inv in Hm as (w3 & items & Hm3 & Hm).
    apply read_strings_inv in Hm3 as ->.
    unfold py_bind, new_object, write_object in Hm. simpl in Hm. injection Hm as <-. simpl.
    rewrite lookup_insert_ne by done. by rewrite lookup_insert_eq. }
  clear Hm.
  apply py_bind_inv in Hret as Hstep. destruct Hstep as (w3 & lists3 & Hm & Heq).
  rewrite Heq in *. clear Heq.
  apply read_lists_inv in Hm as [-> Hl]. rewrite Hres2 in Hl. injection Hl as <-.
  simpl in *. injection Hret as <-.
  assert (Hlen : S (length (removelast (<[(length lists - 2)%nat :=
                              fresh (dom (heap w1))]> lists))) = length lists).
  { destruct (decide (lists = [])) as [->|Hnil]; [simpl in Hlist2; lia|].
    set (l' := <[(length lists - 2)%nat := fresh (dom (heap w1))]> lists).
    assert (Hl' : length l' = length lists) by apply length_insert.
    assert (l' ≠ []) by (intros E; rewrite E in Hl'; simpl in Hl'; lia).
    rewrite (app_removelast_last 0%nat (l := l')) in Hl' by done.
    rewrite length_app in Hl'. simpl in Hl'. lia. }
  split; [done|]. eexists. split; [done|]. lia.
Qed.

(** With [fuel] at least [n] and at least the number of lists in [result],
    more fuel changes nothing: the loop never stops for lack of fuel. *)
Lemma perm_loop_fuel (t c nc : Z) (result new_list : loc) (fuel : nat) :
  result ≠ new_list →
  ∀ extra n w lists,
    heap w !! result = Some (ListOfLists lists) →
    (n ≤ fuel)%nat → (length lists ≤ fuel)%nat →
    perm_loop (fuel + extra) t c nc result new_list n w
    = perm_loop fuel t c nc result new_list n w.
Proof.
  intros Hne. induction fuel as [|fuel IH]; intros extra n w lists Hres Hn Hlen.
  - destruct extra; simpl; rewrite bool_decide_eq_false_2 by lia; done.
  - simpl. case_bool_decide; [|done]. unfold py_bind.
    destruct (perm_round t c nc result new_list w) as [w1 [n'|]] eqn:Hround; [|done].
    destruct (perm_round_shrinks t c nc result new_list w lists n' Hne Hres)
      as (Hn' & lists' & Hres' & Hlen'); [by rewrite Hround|].
    rewrite Hround in Hres'. simpl in Hres'.
    apply (IH extra n' w1 lists' Hres'); lia.
Qed.

(** * Further properties

    ** Slices and [find] on joined strings *)

Lemma substring_all (s : string) : String.substring 0 (String.length s) s = s.
Proof. induction s as [|c s IH]; [done|]. simpl. by rewrite IH. Qed.

Lemma substring_prefix (a b : string) :
  String.substring 0 (String.length a) (a +:+ b) = a.
Proof.
  induction a as [|c a IH]; simpl.
  - by destruct b.
  - change (String c a +:+ b) with (String c (a +:+ b)). by rewrite IH.
Qed.

Lemma substring_skip (a b : string) (k m : nat) :
  String.substring (String.length a + k) m (a +:+ b) = String.substring k m b.
Proof.
  induction a as [|c a IH]; [done|].
  change (String c a +:+ b) with (String c (a +:+ b)). simpl. exact IH.
Qed.

Lemma find_from_sep (c : ascii) (a b : string) (i : Z) :
  contains c a = false →
  find_from c (a +:+ String c b) i = i + Z.of_nat (String.length a).
Proof.
  revert i. induction a as [|x a IH]; intros i Hno.
  - change (EmptyString +:+ String c b) with (String c b). simpl.
    rewrite Ascii.eqb_refl. lia.
  - change (String x a +:+ String c b) with (String x (a +:+ String c b)).
    simpl in *. destruct (Ascii.eqb x c); [done|]. rewrite IH by done. lia.
Qed.

Lemma find_sep (c : ascii) (a b : string) :
  contains c a = false → find c (a +:+ String c b) = Z.of_nat (String.length a).
Proof. intros Hno. unfold find. by rewrite find_from_sep. Qed.

(** Cutting [a + c + b] at the first [c], as lines 389-391 and 1397-1399
    do, gives back [a] and [b] when [a] is free of [c]. *)
Lemma slice_before_sep (c : ascii) (a b : string) :
  contains c a = false →
  slice None (Some (find c (a +:+ String c b))) (a +:+ String c b) = a.
Proof.
  intros Hno. rewrite find_sep by done. unfold slice. cbn [from_option].
  unfold clip. rewrite bool_decide_eq_false_2 by lia.
  rewrite string_length_app. cbn [String.length].
  rewrite Z.min_l by lia. rewrite Z.sub_0_r, Nat2Z.id. simpl.
  apply substring_prefix.
Qed.

Lemma slice_after_sep (c : ascii) (a b : string) :
  contains c a = false →
  slice (Some (find c (a +:+ String c b) + 1)) None (a +:+ String c b) = b.
Proof.
  intros Hno. rewrite find_sep by done. unfold slice. cbn [from_option].
  unfold clip. rewrite bool_decide_eq_false_2 by lia.
  rewrite string_length_app. cbn [String.length].
  rewrite Z.min_l by lia.
  replace (Z.to_nat (Z.of_nat (String.length a) + 1)) with (String.length a + 1)%nat by lia.
  replace (Z.to_nat (Z.of_nat (String.length a + S (String.length b))
                     - (Z.of_nat (String.length a) + 1))) with (String.length b) by lia.
  rewrite substring_skip. simpl. apply substring_all.
Qed.

(** ** The graph loader *)

Lemma number_nodes_graph (node_id : list string) :
  ∀ i acc u,
    (number_nodes node_id i acc).2 !! u
    = if bool_decide (i ≤ u < i + length node_id)%nat then Some [] else acc.2 !! u.
Proof.
  induction node_id as [|node r IH]; intros i acc u; simpl.
  - rewrite bool_decide_eq_false_2 by lia. done.
  - rewrite IH. simpl. case_bool_decide as H1.
    + rewrite bool_decide_eq_true_2 by lia. done.
    + case_bool_decide as H2.
      * assert (u = i) as -> by lia. by rewrite lookup_insert_eq.
      * rewrite lookup_insert_ne by lia. done.
Qed.

Lemma number_nodes_names (node_id : list string) :
  ∀ i acc name x,
    (number_nodes node_id i acc).1 !! name = Some x →
    (i ≤ x ∧ node_id !! (x - i) = Some name)%nat
    ∨ ((name ∉ node_id) ∧ acc.1 !! name = Some x).
Proof.
  induction node_id as [|node r IH]; intros i acc name x Hl; simpl in Hl.
  - right. split; [apply not_elem_of_nil|done].
  - apply IH in Hl as [[Hle Hl]|[Hnot Hl]].
    + left. split; [lia|]. replace (x - i)%nat with (S (x - S i)) by lia. done.
    + simpl in Hl. destruct (decide (node = name)) as [->|Hne].
      * rewrite lookup_insert_eq in Hl. injection Hl as <-. left.
        split; [lia|]. by rewrite Nat.sub_diag.
      * rewrite lookup_insert_ne in Hl by done. right. split; [|done].
        apply not_elem_of_cons. done.
Qed.

Lemma number_nodes_known (node_id : list string) :
  ∀ i acc name,
    name ∈ node_id ∨ is_Some (acc.1 !! name) →
    is_Some ((number_nodes node_id i acc).1 !! name).
Proof.
  induction node_id as [|node r IH]; intros i acc name Hin; simpl.
  - destruct Hin as [Hin|Hin]; [by apply elem_of_nil in Hin|done].
  - apply IH. simpl. destruct (decide (node = name)) as [->|Hne].
    + right. rewrite lookup_insert_eq. by eexists.
    + rewrite lookup_insert_ne by done. destruct Hin as [Hin|Hin]; [|by right].
      apply elem_of_cons in Hin as [->|Hin]; [done|by left].
Qed.

Lemma number_nodes_nodup (node_id : list string) :
  NoDup node_id →
  ∀ i acc x name,
    node_id !! x = Some name → (number_nodes node_id i acc).1 !! name = Some (i + x)%nat.
Proof.
  induction 1 as [|node r Hnot Hnd IH]; intros i acc x name Hl; [done|].
  simpl. destruct x as [|x]; simpl in Hl.
  - injection Hl as ->.
    destruct ((number_nodes r (S i) (<[name:=i]> acc.1, <[i:=[]]> acc.2)).1 !! name)
      as [y|] eqn:Hy.
    + apply number_nodes_names in Hy as [[_ Hy]|[_ Hy]].
      * apply list_elem_of_lookup_2 in Hy. done.
      * simpl in Hy. rewrite lookup_insert_eq in Hy. injection Hy as <-. f_equal. lia.
    + exfalso. eapply is_Some_None. rewrite <- Hy. apply number_nodes_known.
      right. simpl. rewrite lookup_insert_eq. by eexists.
  - rewrite (IH _ _ x name Hl). f_equal. lia.
Qed.

(** The numbering of the first loop, from the empty dictionaries. *)
Lemma numbering_sound (node_id : list string) (name : string) (x : nat) :
  (number_nodes node_id 0 (∅, ∅)).1 !! name = Some x → node_id !! x = Some name.
Proof.
  intros Hl. apply number_nodes_names in Hl as [[_ Hl]|[_ Hl]].
  - by rewrite Nat.sub_0_r in Hl.
  - simpl in Hl. by rewrite lookup_empty in Hl.
Qed.

Lemma numbering_known (node_id : list string) (name : string) :
  name ∈ node_id ↔ is_Some ((number_nodes node_id 0 (∅, ∅)).1 !! name).
Proof.
  split.
  - intros Hin. apply number_nodes_known. by left.
  - intros [x Hx]. apply numbering_sound in Hx. by apply list_elem_of_lookup_2 in Hx.
Qed.

Lemma add_connection_graph (node_id : list string) (g g' : gmap nat (list nat)) (k : string) :
  graph_over (length node_id) g →
  add_connection (number_nodes node_id 0 (∅, ∅)).1 g k = Some g' →
  graph_over (length node_id) g'.
Proof.
  intros Hg Hadd. unfold add_connection in Hadd.
  destruct ((number_nodes node_id 0 (∅, ∅)).1 !! edge_from k) as [x1|] eqn:H1; [|done].
  destruct ((number_nodes node_id 0 (∅, ∅)).1 !! edge_to k) as [x2|] eqn:H2; [|done].
  cbn [mbind option_bind] in Hadd. injection Hadd as <-.
  apply numbering_sound, lookup_lt_Some in H1, H2.
  intros u. specialize (Hg u) as Hu. pose proof (Hg x1) as Hx1.
  rewrite bool_decide_eq_true_2 in Hx1 by done. destruct Hx1 as (ns1 & Hns1 & Hb1).
  case_bool_decide as Hlt.
  - destruct (decide (u = x1)) as [->|Hne].
    + rewrite lookup_insert_eq. eexists. split; [done|]. rewrite Hns1. simpl.
      intros i Hi. apply elem_of_app in Hi as [Hi|Hi]; [by apply Hb1|].
      by apply list_elem_of_singleton in Hi as ->.
    + rewrite lookup_insert_ne by done. done.
  - rewrite lookup_insert_ne by lia. done.
Qed.

Lemma add_connections_graph (node_id : list string) (keys : list string) :
  ∀ g g', graph_over (length node_id) g →
    for_each (add_connection (number_nodes node_id 0 (∅, ∅)).1) keys g = Some g' →
    graph_over (length node_id) g'.
Proof.
  induction keys as [|k keys IH]; intros g g' Hg Hrun; simpl in Hrun.
  - by injection Hrun as <-.
  - destruct (add_connection _ g k) as [g1|] eqn:Hadd; [|done].
    cbn [mbind option_bind] in Hrun.
    eapply IH; [|exact Hrun]. by eapply add_connection_graph.
Qed.

Lemma numbered_graph (node_id : list string) :
  graph_over (length node_id) (number_nodes node_id 0 (∅, ∅)).2.
Proof.
  intros u. rewrite number_nodes_graph. simpl.
  case_bool_decide as Hlt.
  - rewrite bool_decide_eq_true_2 by lia. exists []. split; [done|].
    intros i Hi. by apply elem_of_nil in Hi.
  - rewrite bool_decide_eq_false_2 by lia. apply lookup_empty.
Qed.

(** X14.  What [load_g_from_file] builds is a graph on the node numbers.
    When the loader returns, [g] has a neighbour list for every position of
    [node_id] and for nothing else, every neighbour is such a position, and
    [node_number] sends a name to a position of [node_id] that holds it:
    the graph the enumerator walks never leads outside [node_id]. *)
Theorem load_g_from_file_gives_graph_on_node_numbers
    (node_id ABN_keys : list string)
    (node_number : gmap string nat) (g : gmap nat (list nat)) :
  load_g_from_file node_id ABN_keys = Some (node_number, g) →
  (∀ u, (u < length node_id)%nat →
     ∃ neighbours, g !! u = Some neighbours
       ∧ ∀ i, i ∈ neighbours → (i < length node_id)%nat)
  ∧ (∀ u, (length node_id ≤ u)%nat → g !! u = None)
  ∧ (∀ name x, node_number !! name = Some x → node_id !! x = Some name).
Proof.
  unfold load_g_from_file. intros Hrun.
  destruct (for_each (add_connection (number_nodes node_id 0 (∅, ∅)).1) ABN_keys
              (number_nodes node_id 0 (∅, ∅)).2) as [g'|] eqn:Hloop; [|done].
  cbn [mbind option_bind] in Hrun. injection Hrun as <- <-.
  pose proof (add_connections_graph node_id ABN_keys _ _ (numbered_graph node_id) Hloop) as Hg.
  split; [|split].
  - intros u Hu. specialize (Hg u). by rewrite bool_decide_eq_true_2 in Hg.
  - intros u Hu. specialize (Hg u). rewrite bool_decide_eq_false_2 in Hg by lia. done.
  - intros name x. apply numbering_sound.
Qed.

Lemma load_g_from_file_gives_graph_on_node_numbers_witness :
  ∃ node_number g,
    load_g_from_file ["start"; "T1"; "T2"]%string
      ["start-T1"; "start-T2"; "T1-T2"; "T2-T1"]%string = Some (node_number, g)
    ∧ (∀ u, (u < 3)%nat →
         ∃ neighbours, g !! u = Some neighbours ∧ ∀ i, i ∈ neighbours → (i < 3)%nat)
    ∧ (∀ u, (3 ≤ u)%nat → g !! u = None)
    ∧ (∀ name x, node_number !! name = Some x →
         ["start"; "T1"; "T2"]%string !! x = Some name).
Proof.
  eexists _, _. split; [vm_compute; reflexivity|].
  apply (load_g_from_file_gives_graph_on_node_numbers ["start"; "T1"; "T2"]%string
           ["start-T1"; "start-T2"; "T1-T2"; "T2-T1"]%string).
  vm_compute. reflexivity.
Defined.

Lemma add_connection_runs (node_id : list string) (g : gmap nat (list nat)) (k : string) :
  is_Some (add_connection (number_nodes node_id 0 (∅, ∅)).1 g k)
  ↔ edge_from k ∈ node_id ∧ edge_to k ∈ node_id.
Proof.
  rewrite !numbering_known. unfold add_connection.
  destruct ((number_nodes node_id 0 (∅, ∅)).1 !! edge_from k) as [x1|];
    destruct ((number_nodes node_id 0 (∅, ∅)).1 !! edge_to k) as [x2|];
    cbn [mbind option_bind]; split; try (by intros [? ?]); try (intros [[? ?] [? ?]]; done).
Qed.

Lemma add_connections_run (node_id : list string) (keys : list string) :
  ∀ g, is_Some (for_each (add_connection (number_nodes node_id 0 (∅, ∅)).1) keys g)
       ↔ ∀ k, k ∈ keys → edge_from k ∈ node_id ∧ edge_to k ∈ node_id.
Proof.
  induction keys as [|k keys IH]; intros g; cbn [for_each].
  - split; [|by eexists]. intros _ k Hk. by apply elem_of_nil in Hk.
  - pose proof (add_connection_runs node_id g k) as Hk.
    destruct (add_connection (number_nodes node_id 0 (∅, ∅)).1 g k) as [g1|];
      cbn [mbind option_bind].
    + rewrite IH. split.
      * intros Hall k' Hk'. apply elem_of_cons in Hk' as [->|Hk']; [|by apply Hall].
        apply Hk. by eexists.
      * intros Hall k' Hk'. apply Hall. by right.
    + split; [by intros [? ?]|]. intros Hall. exfalso.
      eapply is_Some_None. apply Hk, Hall. by left.
Qed.

(** X15.  [load_g_from_file] returns exactly when every key of [ABN] names
    two known nodes.  A key is cut at its first dash; if the text before it
    or the text after it is not in [node_id], the look-up in [node_number]
    raises [KeyError] (lines 1400-1401), and otherwise the loader returns. *)
Theorem load_g_from_file_returns_iff_nodes_known (node_id ABN_keys : list string) :
  is_Some (load_g_from_file node_id ABN_keys)
  ↔ ∀ k, k ∈ ABN_keys → edge_from k ∈ node_id ∧ edge_to k ∈ node_id.
Proof.
  rewrite <- (add_connections_run node_id ABN_keys (number_nodes node_id 0 (∅, ∅)).2).
  unfold load_g_from_file.
  destruct (for_each _ ABN_keys _) as [g|]; cbn [mbind option_bind].
  - split; intros _; by eexists.
  - split; intros [? ?]; discriminate.
Qed.

Lemma add_connections_members (node_number : gmap string nat) (keys : list string) :
  ∀ g g', for_each (add_connection node_number) keys g = Some g' →
    ∀ x y, y ∈ default [] (g' !! x)
           ↔ y ∈ default [] (g !! x)
             ∨ ∃ k, k ∈ keys ∧ node_number !! edge_from k = Some x
                    ∧ node_number !! edge_to k = Some y.
Proof.
  induction keys as [|k keys IH]; intros g g' Hrun x y; cbn [for_each] in Hrun.
  - injection Hrun as <-. split; [by left|]. intros [H|(k & Hk & _)]; [done|].
    by apply elem_of_nil in Hk.
  - destruct (add_connection node_number g k) as [g1|] eqn:Hadd; [|done].
    cbn [mbind option_bind] in Hrun. rewrite (IH g1 g' Hrun x y).
    unfold add_connection in Hadd.
    destruct (node_number !! edge_from k) as [x1|] eqn:H1; [|done].
    destruct (node_number !! edge_to k) as [x2|] eqn:H2; [|done].
    cbn [mbind option_bind] in Hadd. injection Hadd as <-.
    destruct (decide (x = x1)) as [->|Hne].
    + rewrite lookup_insert_eq. cbn [from_option id]. rewrite elem_of_app, list_elem_of_singleton.
      split.
      * intros [[H| ->]|(k' & Hk' & Hf & Ht)]; [by left | right | right].
        -- exists k. split; [by left|done].
        -- exists k'. split; [by right|done].
      * intros [H|(k' & Hk' & Hf & Ht)]; [by left; left|].
        apply elem_of_cons in Hk' as [->|Hk'].
        -- left. right. congruence.
        -- right. by exists k'.
    + rewrite lookup_insert_ne by done. split.
      * intros [H|(k' & Hk' & Hf & Ht)]; [by left|]. right. exists k'. split; [by right|done].
      * intros [H|(k' & Hk' & Hf & Ht)]; [by left|].
        apply elem_of_cons in Hk' as [->|Hk']; [congruence|]. right. by exists k'.
Qed.

(** X16.  The edges of the loaded graph are the keys of [ABN].  With node
    identities that are pairwise different, node number [y] is listed among
    the neighbours of node number [x] exactly when some key of [ABN], cut at
    its first dash, reads the identity of [x] before the dash and the
    identity of [y] after it. *)
Theorem load_g_from_file_edges_are_the_keys (node_id ABN_keys : list string)
    (node_number : gmap string nat) (g : gmap nat (list nat)) :
  NoDup node_id →
  load_g_from_file node_id ABN_keys = Some (node_number, g) →
  ∀ x y, edge g x y
         ↔ ∃ k, k ∈ ABN_keys ∧ node_id !! x = Some (edge_from k)
                ∧ node_id !! y = Some (edge_to k).
Proof.
  intros Hnd Hrun x y. unfold load_g_from_file in Hrun.
  destruct (for_each (add_connection (number_nodes node_id 0 (∅, ∅)).1) ABN_keys
              (number_nodes node_id 0 (∅, ∅)).2) as [g'|] eqn:Hloop; [|done].
  cbn [mbind option_bind] in Hrun. injection Hrun as <- <-.
  assert (Hnum : ∀ name i, (number_nodes node_id 0 (∅, ∅)).1 !! name = Some i
                           ↔ node_id !! i = Some name).
  { intros name i. split; [apply numbering_sound|].
    intros Hl. by rewrite (number_nodes_nodup node_id Hnd 0 _ i name Hl). }
  assert (Hedge : edge g' x y ↔ y ∈ default [] (g' !! x)).
  { unfold edge. split.
    - intros (ns & -> & Hy). done.
    - destruct (g' !! x) as [ns|]; simpl; [|by intros H; apply elem_of_nil in H].
      intros Hy. by exists ns. }
  rewrite Hedge, (add_connections_members _ _ _ _ Hloop x y).
  rewrite number_nodes_graph. cbn [snd].
  assert (Hnone : ∀ b : bool, y ∈ default [] (if b then Some [] else (∅ : gmap nat (list nat)) !! x)
                              ↔ False).
  { intros [|]; [|rewrite lookup_empty]; simpl; split; try done; apply not_elem_of_nil. }
  rewrite Hnone. split.
  - intros [[]|(k & Hk & Hf & Ht)]. exists k. by rewrite <- !Hnum.
  - intros (k & Hk & Hf & Ht). right. exists k. by rewrite !Hnum.
Qed.

Lemma load_g_from_file_edges_are_the_keys_witness :
  ∃ node_number g,
    load_g_from_file ["start"; "T1"; "T2"]%string
      ["start-T1"; "start-T2"; "T1-T2"; "T2-T1"]%string = Some (node_number, g)
    ∧ ∀ x y, edge g x y
        ↔ ∃ k, k ∈ ["start-T1"; "start-T2"; "T1-T2"; "T2-T1"]%string
               ∧ ["start"; "T1"; "T2"]%string !! x = Some (edge_from k)
               ∧ ["start"; "T1"; "T2"]%string !! y = Some (edge_to k).
Proof.
  eexists _, _. split; [vm_compute; reflexivity|].
  eapply (load_g_from_file_edges_are_the_keys ["start"; "T1"; "T2"]%string
            ["start-T1"; "start-T2"; "T1-T2"; "T2-T1"]%string).
  - repeat constructor; set_solver.
  - vm_compute. reflexivity.
Defined.

(** ** The connections of Step 1A *)




(** X18.  A queued key is read back as the pair it was built from.  For
    targets free of the colon, every key of [needed_connections], cut at its
    first colon as the scheduling loop does (lines 389-391), gives [start] or
    a target before the colon and a target after it; the key [t1:t2] gives
    back [t1] and [t2]. *)
Theorem queued_key_splits_into_its_nodes (TSet_targets : list string) (key : string) :
  Forall (λ node, contains ":" node = false) TSet_targets →
  key ∈ needed_connections TSet_targets →
  (segment_from key = "start"%string ∨ segment_from key ∈ TSet_targets)
  ∧ segment_to key ∈ TSet_targets
  ∧ key = segment_from key +:+ ":" +:+ segment_to key.
Proof.
  intros Hall Hkey. rewrite Forall_forall in Hall.
  unfold needed_connections in Hkey. apply list_elem_of_bind in Hkey as (node1 & Hkey & Hin1).
  unfold segment_from, segment_to.
  apply elem_of_cons in Hkey as [->|Hkey].
  - change ("start:" +:+ node1) with ("start" +:+ String ":" node1).
    rewrite slice_before_sep, slice_after_sep by done. by split; [left|].
  - apply list_elem_of_fmap in Hkey as (node2 & -> & Hf).
    apply list_elem_of_filter in Hf as [Hne Hin2].
    change (node1 +:+ ":" +:+ node2) with (node1 +:+ String ":" node2).
    rewrite slice_before_sep, slice_after_sep by auto. by split; [right|].
Qed.

Lemma queued_key_splits_into_its_nodes_witness :
  (segment_from "T1:T2" = "start"%string ∨ segment_from "T1:T2" ∈ ["T1"; "T2"]%string)
  ∧ segment_to "T1:T2" ∈ ["T1"; "T2"]%string
  ∧ "T1:T2"%string = segment_from "T1:T2" +:+ ":" +:+ segment_to "T1:T2".
Proof.
  apply (queued_key_splits_into_its_nodes ["T1"; "T2"]%string "T1:T2").
  - repeat constructor.
  - vm_compute. set_solver.
Defined.

(** ** [paren_depth] and [last_occurrence] *)

Lemma paren_depth_from_bounds (line : string) :
  ∀ n m, n ≤ m → m ≤ paren_depth_from line n m.
Proof.
  induction line as [|c r IH]; intros n m Hnm; simpl; [lia|].
  destruct (Ascii.eqb c "("), (Ascii.eqb c ")"); case_bool_decide;
    (etrans; [|apply IH]); lia.
Qed.

(** The loop from any running depth [n] and largest depth [m]: what it adds
    to [n] is the depth of the rest of the line. *)
Lemma paren_depth_from_shift (line : string) :
  ∀ n m, n ≤ m → paren_depth_from line n m = Z.max m (n + paren_depth line).
Proof.
  unfold paren_depth.
  induction line as [|c r IH]; intros n m Hnm; simpl; [lia|].
  pose proof (paren_depth_from_bounds r 0 0 ltac:(lia)) as Hpos.
  set (depth_of_rest := paren_depth_from r 0 0) in *. clearbody depth_of_rest.
  destruct (Ascii.eqb c "("), (Ascii.eqb c ")");
    repeat match goal with
           | |- context [paren_depth_from r ?a ?b] =>
               rewrite (IH a b) by (repeat case_bool_decide; lia)
           end;
    repeat case_bool_decide; lia.
Qed.

Lemma paren_depth_from_close (line : string) :
  ∀ n m, n ≤ m → paren_depth_from (line +:+ ")") n m = paren_depth_from line n m.
Proof.
  induction line as [|c r IH]; intros n m Hnm.
  - simpl. rewrite bool_decide_eq_false_2 by lia. done.
  - change (String c r +:+ ")") with (String c (r +:+ ")")). simpl.
    destruct (Ascii.eqb c "("), (Ascii.eqb c ")"); case_bool_decide; apply IH; lia.
Qed.

Lemma paren_depth_from_plain (line : string) :
  contains "(" line = false →
  ∀ n m, n ≤ m → paren_depth_from line n m = m.
Proof.
  induction line as [|c r IH]; intros Hno n m Hnm; [done|]. simpl in *.
  destruct (Ascii.eqb c "("); [done|].
  destruct (Ascii.eqb c ")"); rewrite bool_decide_eq_false_2 by lia; apply IH; (done || lia).
Qed.

Lemma paren_depth_group (line : string) :
  paren_depth ("(" +:+ line +:+ ")") = paren_depth line + 1.
Proof.
  pose proof (paren_depth_from_bounds line 0 0 ltac:(lia)) as Hpos.
  change ("(" +:+ line +:+ ")") with (String "(" (line +:+ ")")).
  unfold paren_depth at 1. simpl.
  rewrite paren_depth_from_close, paren_depth_from_shift by lia.
  fold (paren_depth line). unfold paren_depth in Hpos |- *. lia.
Qed.

(** X19.  [paren_depth] counts the nesting.  The depth is never negative, a
    line without an opening parenthesis has depth 0, and putting any line
    in parentheses adds exactly 1 to its depth. *)
Theorem paren_depth_counts_nesting (line : string) :
  0 ≤ paren_depth line
  ∧ paren_depth ("(" +:+ line +:+ ")") = paren_depth line + 1
  ∧ (contains "(" line = false → paren_depth line = 0).
Proof.
  split; [|split].
  - by apply (paren_depth_from_bounds line 0 0).
  - apply paren_depth_group.
  - intros Hno. by apply paren_depth_from_plain.
Qed.

Lemma paren_depth_counts_nesting_witness :
  0 ≤ paren_depth "A_B"
  ∧ paren_depth ("(" +:+ "A_B" +:+ ")") = paren_depth "A_B" + 1
  ∧ paren_depth "A_B" = 0.
Proof.
  destruct (paren_depth_counts_nesting "A_B") as (Hpos & Hwrap & Hplain).
  split; [exact Hpos|]. split; [exact Hwrap|]. apply Hplain. reflexivity.
Defined.

Lemma last_occurrence_from_spec (node : string) (path : list string) :
  ∀ i_loop foundit,
    (node ∈ path →
       (i_loop ≤ last_occurrence_from node path i_loop foundit)%nat
       ∧ path !! (last_occurrence_from node path i_loop foundit - i_loop)%nat = Some node
       ∧ ∀ j, (last_occurrence_from node path i_loop foundit - i_loop < j)%nat →
              path !! j ≠ Some node)
    ∧ (node ∉ path → last_occurrence_from node path i_loop foundit = foundit).
Proof.
  induction path as [|checknode r IH]; intros i_loop foundit.
  - split; [intros Hin; by apply elem_of_nil in Hin|done].
  - simpl. destruct (IH (S i_loop) (if decide (checknode = node) then i_loop else foundit))
      as [IHin IHnot].
    split.
    + intros Hin. destruct (decide (node ∈ r)) as [Hr|Hr].
      * destruct (IHin Hr) as (Hle & Hat & Hlast). split; [lia|]. split.
        -- replace (last_occurrence_from node r (S i_loop)
                      (if decide (checknode = node) then i_loop else foundit) - i_loop)%nat
             with (S (last_occurrence_from node r (S i_loop)
                        (if decide (checknode = node) then i_loop else foundit) - S i_loop))
             by lia.
           done.
        -- intros [|j] Hj; [lia|]. simpl. apply Hlast. lia.
      * rewrite (IHnot Hr). apply elem_of_cons in Hin as [->|Hin]; [|done].
        rewrite decide_True by done. rewrite Nat.sub_diag. split; [lia|]. split; [done|].
        intros [|j] Hj; [lia|]. simpl. intros Hl. apply Hr.
        by apply list_elem_of_lookup_2 in Hl.
    + intros Hnot. apply not_elem_of_cons in Hnot as [Hne Hnot].
      rewrite (IHnot Hnot). by rewrite decide_False by done.
Qed.

(** X20.  [last_occurrence] gives the position of the last occurrence, and 0
    for a node that does not occur.  When the node is in the path, the
    result is a position that holds it and no later position does; when it
    is not, the result is 0, the same value as for a node whose only
    occurrence is at the head of the path, so the result alone does not tell
    the two apart. *)
Theorem last_occurrence_is_last_or_zero (node : string) (path : list string) :
  (node ∈ path →
     path !! last_occurrence node path = Some node
     ∧ ∀ j, (last_occurrence node path < j)%nat → path !! j ≠ Some node)
  ∧ (node ∉ path → last_occurrence node path = 0%nat)
  ∧ last_occurrence node (node :: filter (λ other, other ≠ node) path) = 0%nat.
Proof.
  unfold last_occurrence.
  destruct (last_occurrence_from_spec node path 0 0) as [Hin Hnot].
  split; [|split].
  - intros H. destruct (Hin H) as (_ & Hat & Hlast). rewrite Nat.sub_0_r in *. done.
  - exact Hnot.
  - simpl. rewrite decide_True by done.
    destruct (last_occurrence_from_spec node (filter (λ other, other ≠ node) path) 1 0)
      as [_ Hnot']. apply Hnot'. intros Hf. by apply list_elem_of_filter in Hf as [Hne _].
Qed.

Lemma last_occurrence_is_last_or_zero_witness :
  (["A"; "B"; "C"; "B"]%string !! last_occurrence "B" ["A"; "B"; "C"; "B"]%string
   = Some "B"%string
   ∧ ∀ j, (last_occurrence "B" ["A"; "B"; "C"; "B"]%string < j)%nat →
          ["A"; "B"; "C"; "B"]%string !! j ≠ Some "B"%string)
  ∧ last_occurrence "X" ["A"; "B"; "C"; "B"]%string = 0%nat.
Proof.
  destruct (last_occurrence_is_last_or_zero "B" ["A"; "B"; "C"; "B"]%string) as (Hin & _ & _).
  destruct (last_occurrence_is_last_or_zero "X" ["A"; "B"; "C"; "B"]%string) as (_ & Hnot & _).
  split.
  - apply Hin. set_solver.
  - apply Hnot. set_solver.
Defined.

(** ** [strip] is idempotent *)

Lemma rev_app_spec (s1 : string) :
  ∀ s2, String.rev_app s1 s2 = String.rev_app s1 EmptyString +:+ s2.
Proof.
  induction s1 as [|a s1 IH]; intros s2; [done|]. simpl.
  rewrite (IH (String a s2)), (IH (String a EmptyString)), string_app_assoc. done.
Qed.

Lemma rev_rev_app (s1 : string) :
  ∀ s2, String.rev (String.rev_app s1 s2) = String.rev_app s2 s1.
Proof.
  unfold String.rev. induction s1 as [|a s1 IH]; intros s2; [done|]. simpl.
  by rewrite IH.
Qed.

Lemma string_rev_involutive (s : string) : String.rev (String.rev s) = s.
Proof. unfold String.rev at 2. by rewrite rev_rev_app. Qed.

Lemma string_rev_cons (a : ascii) (s : string) :
  String.rev (String a s) = String.rev s +:+ String a EmptyString.
Proof. unfold String.rev. simpl. by rewrite rev_app_spec. Qed.

Lemma string_rev_app (a b : string) :
  String.rev (a +:+ b) = String.rev b +:+ String.rev a.
Proof.
  induction a as [|x a IH].
  - change (EmptyString +:+ b) with b. by rewrite string_app_empty_r.
  - change (String x a +:+ b) with (String x (a +:+ b)).
    by rewrite !string_rev_cons, IH, string_app_assoc.
Qed.

Lemma lstrip_clean (s : string) : starts_clean (lstrip s).
Proof.
  induction s as [|c s IH]; simpl; [done|]. by destruct (is_space c) eqn:E.
Qed.

Lemma lstrip_of_clean (s : string) : starts_clean s → lstrip s = s.
Proof. destruct s as [|c s]; simpl; [done|]. by intros ->. Qed.

Lemma lstrip_decomp (s : string) : ∃ blanks, s = blanks +:+ lstrip s.
Proof.
  induction s as [|c s (blanks & IH)]; [by exists EmptyString|]. simpl.
  destruct (is_space c).
  - exists (String c blanks). change (String c blanks +:+ lstrip s)
      with (String c (blanks +:+ lstrip s)). by rewrite <- IH.
  - by exists EmptyString.
Qed.

Lemma starts_clean_prefix (a b : string) : starts_clean (a +:+ b) → starts_clean a.
Proof. by destruct a. Qed.

Lemma strip_clean (s : string) : starts_clean (strip s).
Proof.
  unfold strip.
  destruct (lstrip_decomp (String.rev (lstrip s))) as (blanks & Hd).
  apply (f_equal String.rev) in Hd.
  rewrite string_rev_involutive, string_rev_app in Hd.
  apply (starts_clean_prefix _ (String.rev blanks)). rewrite <- Hd. apply lstrip_clean.
Qed.

Lemma strip_idempotent (s : string) : strip (strip s) = strip s.
Proof.
  unfold strip at 1. rewrite (lstrip_of_clean (strip s)) by apply strip_clean.
  unfold strip. rewrite string_rev_involutive.
  rewrite (lstrip_of_clean (lstrip _)) by apply lstrip_clean. done.
Qed.

(** ** The node tables and the datapack built from them *)

Lemma start_tables_complete : tables_complete start_tables.
Proof.
  intros id Hid. apply list_elem_of_singleton in Hid as ->.
  split; [reflexivity|]. split; [by eexists|]. split; [by eexists|].
  eexists. split; [reflexivity|]. simpl. lia.
Qed.

Lemma read_node_complete (breach_techniques : gmap string string) (tb tb' : node_tables)
    (line : string) :
  tables_complete tb → read_node breach_techniques tb line = Some tb' →
  tables_complete tb'
  ∧ (nt_node_id tb ≠ [] →
     head (nt_node_id tb') = head (nt_node_id tb) ∧ nt_node_id tb' ≠ []).
Proof.
  intros Hok Hrun. unfold read_node in Hrun.
  destruct (first_char (strip line)) as [c0|]; [|done]. cbn [mbind option_bind] in Hrun.
  destruct (Ascii.eqb c0 "#"); [by injection Hrun as <-|].
  destruct (split "," (strip line) !! 0%nat) as [id0|]; [|done].
  cbn [mbind option_bind] in Hrun.
  destruct (split "," (strip line) !! 2%nat) as [matl|]; [|done].
  cbn [mbind option_bind] in Hrun.
  destruct (breach_techniques !! matl) as [tech|]; [|done].
  cbn [mbind option_bind] in Hrun.
  destruct (split "," tech !! 0%nat ≫= parse_number) as [t|]; [|done].
  cbn [mbind option_bind] in Hrun.
  destruct (split "," tech !! 1%nat ≫= parse_number) as [c|]; [|done].
  cbn [mbind option_bind] in Hrun.
  destruct (mapM (λ i, split "," tech !! i ≫= parse_number) (seq 2 20)) as [tool|] eqn:Htool;
    [|done].
  cbn [mbind option_bind] in Hrun. injection Hrun as <-.
  apply length_mapM in Htool. rewrite length_seq in Htool.
  split; cbn [nt_node_id nt_node_time nt_node_consum nt_node_tools].
  - intros id Hid. cbn [nt_node_id nt_node_time nt_node_consum nt_node_tools] in *.
    destruct (decide (id = strip id0)) as [->|Hne].
    + rewrite !lookup_insert_eq. split; [apply strip_idempotent|].
      split; [by eexists|]. split; [by eexists|]. exists tool. split; [done|lia].
    + rewrite !lookup_insert_ne by done. apply Hok.
      apply elem_of_app in Hid as [Hid|Hid]; [done|].
      by apply list_elem_of_singleton in Hid.
  - intros Hne. by destruct (nt_node_id tb).
Qed.

Lemma read_nodes_complete (breach_techniques : gmap string string) (lines : list string) :
  ∀ tb tb', tables_complete tb → nt_node_id tb ≠ [] →
    for_each (read_node breach_techniques) lines tb = Some tb' →
    tables_complete tb' ∧ head (nt_node_id tb') = head (nt_node_id tb).
Proof.
  induction lines as [|line lines IH]; intros tb tb' Hok Hne Hrun; cbn [for_each] in Hrun.
  - by injection Hrun as <-.
  - destruct (read_node breach_techniques tb line) as [tb1|] eqn:Hstep; [|done].
    cbn [mbind option_bind] in Hrun.
    destruct (read_node_complete _ _ _ _ Hok Hstep) as (Hok1 & Hkeep).
    destruct (Hkeep Hne) as (Hhead1 & Hne1).
    destruct (IH tb1 tb' Hok1 Hne1 Hrun) as (Hok' & Hhead').
    split; [done|]. congruence.
Qed.

Lemma get_all_breaches_tables (breach_lines aon_lines : list string) (tb : node_tables) :
  get_all_breaches breach_lines aon_lines = Some tb → tables_complete tb.
Proof.
  unfold get_all_breaches. intros Hrun.
  destruct (for_each read_technique breach_lines ∅) as [bt|]; [|done].
  cbn [mbind option_bind] in Hrun.
  by destruct (read_nodes_complete bt aon_lines start_tables tb start_tables_complete)
    as (Hok & Hhead).
Qed.

(** X21.  What [get_all_breaches] leaves in the tables.  When the function
    returns, [node_id] begins with [start], and every identity in it is
    stripped of blanks and has a breach time, a consumable weight and a list
    of at least 20 tool weights: the dictionaries are written for every
    identity that is appended (lines 1142-1151), under the stripped
    identity. *)
Theorem get_all_breaches_fills_every_node (breach_lines aon_lines : list string)
    (tb : node_tables) :
  get_all_breaches breach_lines aon_lines = Some tb →
  head (nt_node_id tb) = Some "start"%string ∧ tables_complete tb.
Proof.
  intros Hrun. split; [|by eapply get_all_breaches_tables].
  unfold get_all_breaches in Hrun.
  destruct (for_each read_technique breach_lines ∅) as [bt|]; [|done].
  cbn [mbind option_bind] in Hrun.
  destruct (read_nodes_complete bt aon_lines start_tables tb start_tables_complete)
    as (Hok & Hhead); [done | done |].
  done.
Qed.

Lemma get_all_breaches_fills_every_node_witness :
  ∃ tb, get_all_breaches breaches_csv aon_csv = Some tb
    ∧ nt_node_id tb = ["start"; "T1"; "T2"]%string
    ∧ head (nt_node_id tb) = Some "start"%string ∧ tables_complete tb.
Proof.
  eexists. split; [vm_compute; reflexivity|]. split; [reflexivity|].
  apply (get_all_breaches_fills_every_node breaches_csv aon_csv).
  vm_compute. reflexivity.
Defined.

Lemma list_index_found (x : string) (l : list string) :
  x ∈ l → ∃ i, list_index x l = Some i ∧ l !! i = Some x.
Proof.
  intros Hin. unfold list_index.
  destruct (list_find_elem_of (λ y, y = x) l x Hin eq_refl) as [[i y] Hfind].
  rewrite Hfind. apply list_find_Some in Hfind as (Hl & -> & _). by exists i.
Qed.

(** X22.  The datapack handed to a worker is well formed.  When the tables
    come from [get_all_breaches] and the graph from [load_g_from_file] on
    the same [node_id], and the two parts of the segment key are in
    [node_id] (the test of line 392), the datapack of lines 393-405 has its
    two end points among the node numbers, at positions that hold the two
    parts of the key, a neighbour list of node numbers for every node
    number, and a breach time, a consumable weight and at least 19 tool
    weights for the stripped identity of every node: all that the
    enumerator needs to return. *)
Theorem datapack_from_loaded_files_is_well_formed
    (breach_lines aon_lines ABN_keys : list string) (tb : node_tables)
    (node_number : gmap string nat) (g : gmap nat (list nat))
    (max_time max_consumables max_weight : Z) (my_segment : string) :
  get_all_breaches breach_lines aon_lines = Some tb →
  load_g_from_file (nt_node_id tb) ABN_keys = Some (node_number, g) →
  segment_from my_segment ∈ nt_node_id tb → segment_to my_segment ∈ nt_node_id tb →
  ∃ dp, make_datapack tb g max_time max_consumables max_weight my_segment = Some dp
    ∧ wf_datapack dp
    ∧ dp_node_id dp !! dp_start dp = Some (segment_from my_segment)
    ∧ dp_node_id dp !! dp_dest dp = Some (segment_to my_segment).
Proof.
  intros Htb Hg Hfrom Hto.
  destruct (list_index_found _ _ Hfrom) as (s & Hs & Hsl).
  destruct (list_index_found _ _ Hto) as (d & Hd & Hdl).
  unfold make_datapack. rewrite Hs, Hd. cbn [mbind option_bind].
  eexists. split; [done|]. cbn [dp_node_id dp_start dp_dest]. split; [|done].
  apply get_all_breaches_tables in Htb.
  split; cbn [dp_node_id dp_start dp_dest dp_g dp_node_consum dp_node_time dp_node_tools].
  - by apply lookup_lt_Some in Hsl.
  - by apply lookup_lt_Some in Hdl.
  - unfold load_g_from_file in Hg.
    destruct (for_each _ ABN_keys _) as [g'|] eqn:Hloop; [|done].
    cbn [mbind option_bind] in Hg. injection Hg as <- <-.
    pose proof (add_connections_graph _ ABN_keys _ _ (numbered_graph _) Hloop) as Hgr.
    intros u Hu. specialize (Hgr u). by rewrite bool_decide_eq_true_2 in Hgr.
  - intros i raw Hraw. apply list_elem_of_lookup_2 in Hraw.
    destruct (Htb raw Hraw) as (Hstrip & Ht & Hc & tools & Htools & Hlen).
    rewrite Hstrip. split; [done|]. split; [done|]. exists tools. split; [done|lia].
Qed.

Lemma datapack_from_loaded_files_is_well_formed_witness :
  ∃ tb node_number g,
    get_all_breaches breaches_csv aon_csv = Some tb
    ∧ load_g_from_file (nt_node_id tb) ["start-T1"; "T1-T2"]%string = Some (node_number, g)
    ∧ ∃ dp, make_datapack tb g 2222 333 444 "T1:T2" = Some dp
        ∧ wf_datapack dp
        ∧ dp_node_id dp !! dp_start dp = Some (segment_from "T1:T2")
        ∧ dp_node_id dp !! dp_dest dp = Some (segment_to "T1:T2").
Proof.
  eexists _, _, _. split; [vm_compute; reflexivity|]. split; [vm_compute; reflexivity|].
  eapply (datapack_from_loaded_files_is_well_formed breaches_csv aon_csv
            ["start-T1"; "T1-T2"]%string).
  - vm_compute. reflexivity.
  - vm_compute. reflexivity.
  - vm_compute. set_solver.
  - vm_compute. set_solver.
Defined.

(** ** [deconstruct] *)

Lemma find_group_plain (mission : string) :
  contains "(" mission = false → ∀ j n m, find_group mission j n m = None.
Proof.
  induction mission as [|c r IH]; intros Hno j n m; [done|]. simpl in *.
  destruct (Ascii.eqb c "("); [done|]. by apply IH.
Qed.

Lemma last_char_app_colon (s : string) : last_char (s +:+ ":") = Some ":"%char.
Proof.
  induction s as [|c r IH]; [done|].
  change (String c r +:+ ":") with (String c (r +:+ ":")).
  destruct r as [|c' r']; [done|]. exact IH.
Qed.

Lemma last_char_is_Some (s : string) : s ≠ EmptyString → is_Some (last_char s).
Proof.
  induction s as [|c r IH]; [done|]. intros _. destruct r as [|c' r']; [by eexists|].
  by apply IH.
Qed.

(** X23.  A line without an opening parenthesis is one mission, operators
    and all.  [deconstruct] interprets the operators only inside
    parentheses: a line that is not empty and has no opening parenthesis
    comes back as the single mission string that is the line itself, with a
    colon appended unless it ends with one, whatever operators it holds. *)
Theorem deconstruct_takes_line_without_parenthesis_whole (fuel : nat) (line : string) :
  line ≠ EmptyString → contains "(" line = false →
  ∃ c, last_char line = Some c
    ∧ deconstruct (S fuel) line
      = Some [if Ascii.eqb c ":" then line else line +:+ ":"].
Proof.
  intros Hne Hno. destruct (last_char_is_Some line Hne) as [c Hc]. exists c.
  split; [done|]. unfold deconstruct. cbn [deconstruct_loop].
  rewrite (bool_decide_eq_false_2 (line = EmptyString)) by done. rewrite andb_false_r.
  assert (Hd : paren_depth line = 0) by (by apply paren_depth_from_plain).
  rewrite Hd. rewrite (bool_decide_eq_true_2 (0 = 0)) by done.
  rewrite Hc. cbn [mbind option_bind app].
  set (mission := if Ascii.eqb c ":" then line else line +:+ ":").
  assert (Hplain : contains "(" mission = false).
  { unfold mission. destruct (Ascii.eqb c ":"); [done|]. by rewrite contains_app, Hno. }
  cbn [deconstruct_inner]. rewrite (bool_decide_eq_true_2 (0 = 0)) by done.
  rewrite find_group_plain by done.
  destruct fuel; cbn [deconstruct_inner tail];
    rewrite (bool_decide_eq_false_2 (0 - 1 = 0)) by lia; done.
Qed.

Lemma deconstruct_takes_line_without_parenthesis_whole_witness :
  ∃ c, last_char "A+B" = Some c
    ∧ deconstruct 1 "A+B" = Some [if Ascii.eqb c ":" then "A+B"%string else "A+B" +:+ ":"].
Proof.
  apply (deconstruct_takes_line_without_parenthesis_whole 0 "A+B"); [discriminate|reflexivity].
Defined.

Lemma finished_mission_nonempty (s : string) : finished_mission s → s ≠ EmptyString.
Proof. intros (_ & Hl & _) ->. done. Qed.

(** Finished missions pass through the loop one by one. *)
Lemma deconstruct_loop_finished (missions : list string) :
  ∀ fuel processed,
    Forall finished_mission missions → (length missions ≤ fuel)%nat →
    deconstruct_loop fuel missions processed = Some (processed ++ missions).
Proof.
  induction missions as [|s rest IH]; intros fuel processed Hall Hfuel.
  - destruct fuel; simpl; by rewrite app_nil_r.
  - apply Forall_cons in Hall as [Hs Hall].
    pose proof (finished_mission_nonempty s Hs) as Hne.
    destruct Hs as (Hno & Hlast & _).
    destruct fuel as [|fuel]; [simpl in Hfuel; lia|].
    cbn [deconstruct_loop].
    rewrite (bool_decide_eq_false_2 (s = EmptyString)) by done. rewrite andb_false_r.
    assert (Hd : paren_depth s = 0) by (by apply paren_depth_from_plain).
    rewrite Hd. rewrite (bool_decide_eq_true_2 (0 = 0)) by done.
    rewrite Hlast. cbn [mbind option_bind]. rewrite Ascii.eqb_refl.
    cbn [deconstruct_inner]. rewrite (bool_decide_eq_true_2 (0 = 0)) by done.
    rewrite find_group_plain by done.
    assert (Hin : deconstruct_inner fuel s 0 (0 - 1) (tail (s :: rest)) = Some rest).
    { destruct fuel; cbn [deconstruct_inner tail];
        rewrite (bool_decide_eq_false_2 (0 - 1 = 0)) by lia; done. }
    rewrite Hin. cbn [mbind option_bind].
    rewrite IH by (done || simpl in Hfuel; lia). by rewrite <- app_assoc.
Qed.

Lemma slice_from_one (c : ascii) (s : string) : slice (Some 1) None (String c s) = s.
Proof.
  unfold slice. cbn [from_option String.length]. unfold clip.
  rewrite bool_decide_eq_false_2 by lia. rewrite Z.min_l by lia.
  replace (Z.to_nat (Z.of_nat (S (String.length s)) - 1)) with (String.length s) by lia.
  change (Z.to_nat 1) with 1%nat. simpl. apply substring_all.
Qed.

Lemma slice_empty_prefix (s : string) : slice (Some 0) (Some 0) s = EmptyString.
Proof.
  unfold slice. cbn [from_option]. unfold clip.
  rewrite bool_decide_eq_false_2 by lia. rewrite Z.min_l by lia. simpl. by destruct s.
Qed.

(** One group in parentheses: the group is parsed and its strings are the
    missions. *)
Lemma deconstruct_one_group (fragment : string) (missions : list string) (fuel : nat) :
  contains "(" fragment = false → contains ")" fragment = false →
  parse_mission fragment = Some (PStr <$> missions) →
  Forall finished_mission missions → (length missions < fuel)%nat →
  deconstruct fuel ("(" +:+ fragment +:+ ")") = Some missions.
Proof.
  intros Hopen Hclose Hparse Hall Hfuel.
  destruct fuel as [|fuel]; [lia|].
  unfold deconstruct. cbn [deconstruct_loop].
  rewrite (bool_decide_eq_false_2 (_ = EmptyString)) by done. rewrite andb_false_r.
  assert (Hd : paren_depth fragment = 0) by (by apply paren_depth_from_plain).
  rewrite paren_depth_group, Hd.
  rewrite (bool_decide_eq_false_2 (0 + 1 = 0)) by lia.
  cbn [mbind option_bind].
  change ("(" +:+ fragment +:+ ")") with (String "(" (fragment +:+ String ")" EmptyString)).
  cbn [deconstruct_inner]. rewrite (bool_decide_eq_true_2 (0 + 1 = 0 + 1)) by done.
  cbn [find_group]. rewrite Ascii.eqb_refl.
  rewrite (bool_decide_eq_true_2 (0 + 1 = 0 + 1)) by done.
  assert (Hexp : expand_group (String "(" (fragment +:+ String ")" EmptyString)) 0
                 = Some missions).
  { unfold expand_group. change (Z.of_nat 0 + 1) with 1. change (Z.of_nat 0) with 0.
    rewrite slice_from_one, slice_empty_prefix.
    rewrite slice_before_sep, slice_after_sep by done.
    rewrite Hparse. cbn [mbind option_bind].
    clear Hparse Hfuel. induction Hall as [|s rest Hs Hrest IH]; [done|].
    rewrite fmap_cons. cbn [mapM]. rewrite IH. cbn [mbind option_bind].
    change (EmptyString +:+ s +:+ EmptyString) with (s +:+ EmptyString).
    rewrite string_app_empty_r. destruct Hs as (_ & _ & ->). done. }
  rewrite Hexp. cbn [mbind option_bind app tail].
  assert (Hin : deconstruct_inner fuel (String "(" (fragment +:+ String ")" EmptyString))
                  (0 + 1) (0 - 1) missions = Some missions).
  { destruct fuel; cbn [deconstruct_inner];
      rewrite (bool_decide_eq_false_2 (0 - 1 = 0 + 1)) by lia; done. }
  rewrite Hin. cbn [mbind option_bind].
  rewrite deconstruct_loop_finished by (done || lia). done.
Qed.

Lemma last_char_app (a b : string) : b ≠ EmptyString → last_char (a +:+ b) = last_char b.
Proof.
  intros Hb. induction a as [|c a IH]; [done|].
  change (String c a +:+ b) with (String c (a +:+ b)). simpl.
  destruct (a +:+ b) eqn:E; [|done].
  destruct a; [|done]. simpl in E. done.
Qed.

Lemma has_double_colon_cons (c : ascii) (s : string) :
  Ascii.eqb c ":" = false → has_double_colon (String c s) = has_double_colon s.
Proof. intros Hc. destruct s as [|c' s]; [done|]. simpl. by rewrite Hc. Qed.

(** A string free of colons, then a colon, then a string that does not begin
    with a colon and has no double colon: no double colon. *)
Lemma has_double_colon_node (a rest : string) :
  a ≠ EmptyString → contains ":" a = false →
  (∀ r, rest ≠ String ":" r) → has_double_colon rest = false →
  has_double_colon (a +:+ ":" +:+ rest) = false.
Proof.
  intros Hne Hno Hstart Hrest. induction a as [|c a IH]; [done|].
  simpl in Hno. destruct (Ascii.eqb c ":") eqn:Hc; [done|].
  change (String c a +:+ ":" +:+ rest) with (String c (a +:+ ":" +:+ rest)).
  rewrite has_double_colon_cons by done.
  destruct a as [|c' a'].
  - change (EmptyString +:+ ":" +:+ rest) with (String ":" rest).
    destruct rest as [|c2 r2]; [done|].
    change (has_double_colon (String ":" (String c2 r2)))
      with ((Ascii.eqb ":" ":" && Ascii.eqb c2 ":") || has_double_colon (String c2 r2)).
    destruct (Ascii.eqb_spec c2 ":") as [->|Hc2]; [by destruct (Hstart r2)|].
    rewrite Hrest. done.
  - by apply IH.
Qed.

Lemma waypoints_finished (ids : list string) :
  Forall group_node ids → ids ≠ [] → finished_mission (waypoints ids).
Proof.
  intros Hall Hne.
  assert (Hstart : ∀ l, Forall group_node l → ∀ r, waypoints l ≠ String ":" r).
  { intros [|a l] Hl r; [done|]. apply Forall_cons in Hl as [((Ha & _ & _ & _ & Hc) & _) _].
    cbn [waypoints]. destruct a as [|c a]; [done|].
    change (String c a +:+ ":" +:+ waypoints l) with (String c (a +:+ ":" +:+ waypoints l)).
    simpl in Hc. destruct (Ascii.eqb_spec c ":") as [->|Hne']; [done|]. congruence. }
  induction Hall as [|a r Ha Hr IH]; [done|]. clear Hne.
  pose proof Ha as ((Hane & _ & _ & _ & Hcolon) & Hopen & _).
  cbn [waypoints]. destruct r as [|b r].
  - cbn [waypoints]. split; [|split].
    + by rewrite contains_app, Hopen.
    + apply last_char_app_colon.
    + change (a +:+ ":" +:+ EmptyString) with (a +:+ ":" +:+ EmptyString).
      by apply has_double_colon_node.
  - destruct IH as (IHopen & IHlast & IHdc); [done|]. split; [|split].
    + by rewrite !contains_app, Hopen, IHopen.
    + rewrite last_char_app; [|done]. rewrite last_char_app; [done|].
      intros Hw. by rewrite Hw in IHlast.
    + apply has_double_colon_node; [done | done | by apply Hstart | done].
Qed.

Lemma le_fact (n : nat) : (n ≤ fact n)%nat.
Proof.
  induction n as [|n IH]; [simpl; lia|]. pose proof (lt_O_fact n). simpl. nia.
Qed.

(** X24.  One group in parentheses gives the missions of [parse_mission].
    For two or more node identities free of operators, colons and
    parentheses, [deconstruct] on the group of the identities joined by [+]
    returns one mission per ordering of the identities, in the order of
    [itertools.permutations]; joined by [_], the one mission in written
    order; joined by [,], one mission per identity.  Every mission is the
    identities followed by a colon each.  The depth of the iteration never
    exceeds the number of missions plus one. *)
Theorem deconstruct_expands_one_group (ids : list string) (fuel : nat) :
  Forall group_node ids → (2 ≤ length ids)%nat → (fact (length ids) < fuel)%nat →
  deconstruct fuel ("(" +:+ join "+" ids +:+ ")")
    = Some (waypoints <$> itertools_permutations ids)
  ∧ deconstruct fuel ("(" +:+ join "_" ids +:+ ")") = Some [waypoints ids]
  ∧ deconstruct fuel ("(" +:+ join "," ids +:+ ")") = Some ((λ node, node +:+ ":") <$> ids).
Proof.
  intros Hall Hlen Hfuel.
  assert (Hids : Forall is_node_id ids) by (eapply Forall_impl; [exact Hall|]; by intros s [? _]).
  assert (Hopen : Forall (λ s, contains "(" s = false) ids)
    by (eapply Forall_impl; [exact Hall|]; by intros s (_ & ? & _)).
  assert (Hclose : Forall (λ s, contains ")" s = false) ids)
    by (eapply Forall_impl; [exact Hall|]; by intros s (_ & _ & ?)).
  assert (Hne : ids ≠ []) by (intros ->; simpl in Hlen; lia).
  pose proof (le_fact (length ids)) as Hfact.
  split; [|split]; apply deconstruct_one_group;
    try (by apply contains_join_other).
  - rewrite parse_unordered_and by done. by rewrite list_fmap_compose.
  - apply Forall_forall. intros s Hs.
    apply list_elem_of_fmap in Hs as (order & -> & Horder).
    apply itertools_permutations_spec in Horder.
    apply waypoints_finished.
    + by rewrite Horder.
    + intros ->. apply Permutation_nil_l in Horder. done.
  - rewrite length_fmap. unfold itertools_permutations.
    rewrite permutations_length by done. done.
  - by rewrite parse_ordered_and.
  - constructor; [|done]. by apply waypoints_finished.
  - simpl. lia.
  - rewrite parse_or by done. by rewrite <- list_fmap_compose.
  - apply Forall_forall. intros s Hs. apply list_elem_of_fmap in Hs as (node & -> & Hnode).
    rewrite Forall_forall in Hall.
    apply (waypoints_finished [node]); [|done]. constructor; [by apply Hall|done].
  - rewrite length_fmap. lia.
Qed.

Lemma deconstruct_expands_one_group_witness :
  deconstruct 3 ("(" +:+ join "+" ["A"; "B"]%string +:+ ")")
    = Some (waypoints <$> itertools_permutations ["A"; "B"]%string)
  ∧ deconstruct 3 ("(" +:+ join "_" ["A"; "B"]%string +:+ ")") = Some [waypoints ["A"; "B"]%string]
  ∧ deconstruct 3 ("(" +:+ join "," ["A"; "B"]%string +:+ ")")
    = Some ((λ node, node +:+ ":") <$> ["A"; "B"]%string).
Proof.
  apply (deconstruct_expands_one_group ["A"; "B"]%string 3).
  - repeat constructor; discriminate.
  - simpl. lia.
  - simpl. lia.
Defined.

(** ** Steps 2 and 3: from mission strings to legs *)

Lemma remove_char_gone (c : ascii) (s : string) : contains c (remove_char c s) = false.
Proof.
  induction s as [|a r IH]; [done|]. simpl.
  destruct (Ascii.eqb a c) eqn:E; [done|]. simpl. by rewrite E.
Qed.

Lemma remove_char_other (c d : ascii) (s : string) :
  contains d s = false → contains d (remove_char c s) = false.
Proof.
  induction s as [|a r IH]; [done|]. simpl.
  destruct (Ascii.eqb a d) eqn:Ed; [done|]. intros Hr.
  destruct (Ascii.eqb a c); [by apply IH|]. simpl. rewrite Ed. by apply IH.
Qed.

Lemma clean_item_no_paren (item : string) : contains "(" (clean_item item) = false.
Proof.
  unfold clean_item.
  set (item1 := if has_double_colon item then replace_double_colon item else item).
  set (item2 := if contains "+" item1 then remove_char "+" item1 else item1).
  set (item3 := if contains "(" item2 then remove_char "(" item2 else item2).
  assert (H3 : contains "(" item3 = false).
  { unfold item3. destruct (contains "(" item2) eqn:E; [apply remove_char_gone|done]. }
  destruct (contains ")" item3); [by apply remove_char_other|done].
Qed.

Lemma add_missions_all (logic : string) (items : list string) :
  ∀ missions,
    Forall (λ entry, contains "(" entry = true) missions →
    add_missions logic missions items
    = missions ++ ((λ item, clean_item item +:+ " (TSet= " +:+ logic +:+ ")") <$> items).
Proof.
  unfold add_missions.
  induction items as [|item items IH]; intros missions Hall; simpl.
  - by rewrite app_nil_r.
  - unfold add_mission at 2. rewrite decide_False.
    + rewrite IH.
      * by rewrite <- app_assoc.
      * apply Forall_app. split; [done|]. constructor; [|done].
        rewrite !contains_app. simpl. by rewrite !orb_true_r.
    + intros Hin. rewrite Forall_forall in Hall. specialize (Hall _ Hin).
      by rewrite clean_item_no_paren in Hall.
Qed.

(** X25.  Step 2 never drops a repeated mission.  The test [item not in
    missions] of line 561 compares the cleaned mission string, which has no
    parenthesis, with entries that all end in [(TSet= ...)]: it is always
    true.  So every string [deconstruct] returns adds one entry, the cleaned
    string followed by the logic line, duplicates included. *)
Theorem step2_adds_every_mission (logic : string) (missions new_mission_paths : list string) :
  Forall (λ entry, contains "(" entry = true) missions →
  add_missions logic missions new_mission_paths
  = missions ++ ((λ item, clean_item item +:+ " (TSet= " +:+ logic +:+ ")")
                   <$> new_mission_paths)
  ∧ Forall (λ entry, contains "(" entry = true)
      (add_missions logic missions new_mission_paths).
Proof.
  intros Hall. rewrite add_missions_all by done. split; [done|].
  apply Forall_app. split; [done|]. apply Forall_forall. intros entry Hin.
  apply list_elem_of_fmap in Hin as (item & -> & _).
  rewrite !contains_app. simpl. by rewrite !orb_true_r.
Qed.

Lemma step2_adds_every_mission_witness :
  add_missions "(A,A)" ["B: (TSet= (B))"%string] ["A:"; "A:"]%string
  = ["B: (TSet= (B))"%string]
      ++ ((λ item, clean_item item +:+ " (TSet= " +:+ "(A,A)" +:+ ")") <$> ["A:"; "A:"]%string)
  ∧ Forall (λ entry, contains "(" entry = true)
      (add_missions "(A,A)" ["B: (TSet= (B))"%string] ["A:"; "A:"]%string).
Proof.
  apply (step2_adds_every_mission "(A,A)" ["B: (TSet= (B))"%string] ["A:"; "A:"]%string).
  repeat constructor.
Defined.

Lemma leg_keys_waypoints (nodes : list string) :
  Forall (λ node, node ≠ EmptyString ∧ node ≠ " "%string) nodes →
  ∀ last_node, leg_keys last_node (nodes ++ [EmptyString]) = legs last_node nodes.
Proof.
  induction 1 as [|node r [Hne Hblank] Hr IH]; intros last_node; cbn [leg_keys legs app].
  - rewrite bool_decide_eq_true_2 by (by left). done.
  - rewrite bool_decide_eq_false_2 by (by intros [?|?]). by rewrite IH.
Qed.

(** X26.  The legs of a mission follow its way points.  For an entry of
    [missions] made of the way points [nodes] (each followed by a colon),
    a blank and the logic in parentheses, where the node identities are not
    empty or blank and have no colon and no opening parenthesis, Step 3 looks
    up one key per way point: [start-n1], [n1-n2], and so on in order; a key
    that is missing from [eval_segments] gives an empty list of paths for
    its leg. *)
Theorem mission_legs_follow_the_waypoints (eval_segments : gmap string (list string))
    (nodes : list string) (logic : string) :
  Forall (λ node, node ≠ EmptyString ∧ node ≠ " "%string
                  ∧ contains ":" node = false ∧ contains "(" node = false) nodes →
  mission_leg_keys (waypoints nodes +:+ " (TSet= " +:+ logic +:+ ")") = legs "start" nodes
  ∧ route_list_options eval_segments (waypoints nodes +:+ " (TSet= " +:+ logic +:+ ")")
    = (λ this_key, default [] (eval_segments !! this_key)) <$> legs "start" nodes.
Proof.
  intros Hall.
  assert (Hkeys : mission_leg_keys (waypoints nodes +:+ " (TSet= " +:+ logic +:+ ")")
                  = legs "start" nodes).
  { unfold mission_leg_keys.
    assert (Hw : contains "(" (waypoints nodes +:+ " ") = false).
    { rewrite contains_app. simpl. rewrite orb_false_r.
      clear -Hall. induction Hall as [|node r (_ & _ & _ & Hp) Hr IH]; [done|].
      cbn [waypoints]. by rewrite !contains_app, Hp, IH. }
    change (waypoints nodes +:+ " (TSet= " +:+ logic +:+ ")")
      with (waypoints nodes +:+ (" " +:+ String "(" ("TSet= " +:+ logic +:+ ")"))).
    rewrite <- string_app_assoc.
    rewrite find_sep by done. rewrite string_length_app. cbn [String.length].
    replace (Z.of_nat (String.length (waypoints nodes) + 1) - 1)
      with (Z.of_nat (String.length (waypoints nodes))) by lia.
    rewrite string_app_assoc.
    assert (Hslice : ∀ a b, slice (Some 0) (Some (Z.of_nat (String.length a))) (a +:+ b) = a).
    { intros a b. unfold slice. cbn [from_option]. unfold clip.
      rewrite !bool_decide_eq_false_2 by lia. rewrite string_length_app.
      rewrite !Z.min_l by lia. rewrite Z.sub_0_r, Nat2Z.id. apply substring_prefix. }
    rewrite Hslice. rewrite split_waypoints.
    - apply leg_keys_waypoints. eapply Forall_impl; [exact Hall|]. by intros s (? & ? & _).
    - eapply Forall_impl; [exact Hall|]. by intros s (_ & _ & ? & _). }
  split; [done|]. unfold route_list_options. by rewrite Hkeys.
Qed.

Lemma mission_legs_follow_the_waypoints_witness :
  mission_leg_keys (waypoints ["T1"; "T2"]%string +:+ " (TSet= " +:+ "(T1_T2)" +:+ ")")
  = legs "start" ["T1"; "T2"]%string
  ∧ route_list_options one_leg_segments
      (waypoints ["T1"; "T2"]%string +:+ " (TSet= " +:+ "(T1_T2)" +:+ ")")
    = (λ this_key, default [] (one_leg_segments !! this_key))
        <$> legs "start" ["T1"; "T2"]%string.
Proof.
  apply (mission_legs_follow_the_waypoints one_leg_segments
           ["T1"; "T2"]%string "(T1_T2)").
  repeat constructor; discriminate.
Defined.

(** ** Numbers as text: [str], [zfill] and [int] *)

Lemma digit_of_pretty_char (d : N) :
  (d < 10)%N → digit_of (pretty_N_char d) = Some (Z.of_N d).
Proof.
  intros Hd.
  assert (d = 0 ∨ d = 1 ∨ d = 2 ∨ d = 3 ∨ d = 4 ∨ d = 5 ∨ d = 6 ∨ d = 7 ∨ d = 8 ∨ d = 9)%N
    as Hcases by lia.
  repeat (destruct Hcases as [->|Hcases]; [reflexivity|]). by subst d.
Qed.

Lemma pretty_N_go_parse (x : N) :
  ∀ s, parse_digits (pretty_N_go x s) 0 = parse_digits s (Z.of_N x).
Proof.
  induction (N.lt_wf_0 x) as [x _ IH]; intros s.
  assert (x = 0 ∨ 0 < x)%N as [->|Hpos] by lia; [done|].
  rewrite pretty_N_go_step by done.
  rewrite IH by (by apply N.div_lt). cbn [parse_digits].
  rewrite digit_of_pretty_char by (apply N.mod_lt; lia). cbn [mbind option_bind].
  f_equal. pose proof (N.div_mod x 10 ltac:(lia)). lia.
Qed.

Lemma pretty_N_go_digits (x : N) :
  ∀ s, all_digits s = true → all_digits (pretty_N_go x s) = true.
Proof.
  induction (N.lt_wf_0 x) as [x _ IH]; intros s Hs.
  assert (x = 0 ∨ 0 < x)%N as [->|Hpos] by lia; [done|].
  rewrite pretty_N_go_step by done. apply IH; [by apply N.div_lt|].
  cbn [all_digits]. by rewrite digit_of_pretty_char by (apply N.mod_lt; lia).
Qed.

Lemma pretty_N_parse (x : N) : parse_digits (pretty x) 0 = Some (Z.of_N x).
Proof.
  unfold pretty, pretty_N. case_decide as Hx; [by subst x|].
  by rewrite pretty_N_go_parse.
Qed.

Lemma pretty_N_digits (x : N) : all_digits (pretty x) = true.
Proof.
  unfold pretty, pretty_N. case_decide; [done|]. by apply pretty_N_go_digits.
Qed.

Lemma pretty_N_nonempty (x : N) : pretty x ≠ EmptyString.
Proof.
  unfold pretty, pretty_N. case_decide as Hx; [done|]. intros Hempty.
  pose proof (pretty_N_go_parse x EmptyString) as Hp. rewrite Hempty in Hp.
  simpl in Hp. injection Hp as Hp. lia.
Qed.

(** The text of a number that is not negative: digits that read back as the
    number. *)
Lemma pretty_Z_nonneg (z : Z) :
  0 ≤ z →
  all_digits (pretty z) = true ∧ pretty z ≠ EmptyString
  ∧ parse_digits (pretty z) 0 = Some z.
Proof.
  intros Hz. destruct z as [|p|p]; [done| |lia].
  change (pretty (Z.pos p)) with (pretty (N.pos p)).
  split; [apply pretty_N_digits|]. split; [apply pretty_N_nonempty|].
  by rewrite pretty_N_parse.
Qed.

Lemma digit_not_sign (c : ascii) (d : Z) :
  digit_of c = Some d → Ascii.eqb c "-" = false ∧ Ascii.eqb c "+" = false
                         ∧ is_space c = false.
Proof.
  intros Hd. unfold digit_of in Hd. unfold is_space.
  destruct (48 <=? nat_of_ascii c)%nat eqn:H1; [|done].
  destruct (nat_of_ascii c <=? 57)%nat eqn:H2; [|done].
  apply Nat.leb_le in H1, H2.
  split; [|split].
  - apply Ascii.eqb_neq. intros ->. vm_compute (nat_of_ascii _) in H1. lia.
  - apply Ascii.eqb_neq. intros ->. vm_compute (nat_of_ascii _) in H1. lia.
  - apply orb_false_iff. split; apply andb_false_iff.
    + right. apply Nat.leb_gt. lia.
    + right. apply Nat.leb_gt. lia.
Qed.

Lemma all_digits_app (a b : string) :
  all_digits (a +:+ b) = all_digits a && all_digits b.
Proof.
  induction a as [|c a IH]; [done|].
  change (String c a +:+ b) with (String c (a +:+ b)). simpl.
  by destruct (digit_of c).
Qed.

Lemma all_digits_zeros (n : nat) : all_digits (zeros n) = true.
Proof. induction n as [|n IH]; [done|]. exact IH. Qed.

Lemma parse_digits_zeros (n : nat) (s : string) :
  parse_digits (zeros n +:+ s) 0 = parse_digits s 0.
Proof.
  induction n as [|n IH]; [done|].
  change (zeros (S n) +:+ s) with (String "0" (zeros n +:+ s)). simpl. exact IH.
Qed.

Lemma zfill_digits (width : nat) (s : string) :
  all_digits s = true → s ≠ EmptyString →
  zfill width s = zeros (width - String.length s) +:+ s.
Proof.
  intros Hd Hne. unfold zfill. destruct s as [|c r]; [done|].
  simpl in Hd. destruct (digit_of c) as [d|] eqn:Hc; [|done].
  destruct (digit_not_sign c d Hc) as (-> & -> & _). done.
Qed.

Lemma all_digits_rev_app (s1 : string) :
  ∀ s2, all_digits s1 = true → all_digits s2 = true →
        all_digits (String.rev_app s1 s2) = true.
Proof.
  induction s1 as [|c s1 IH]; intros s2 H1 H2; [done|]. simpl in *.
  destruct (digit_of c) eqn:Hc; [|done]. apply IH; [done|]. simpl. by rewrite Hc.
Qed.

Lemma all_digits_clean (s : string) : all_digits s = true → starts_clean s.
Proof.
  destruct s as [|c r]; [done|]. simpl. destruct (digit_of c) as [d|] eqn:Hc; [|done].
  intros _. by destruct (digit_not_sign c d Hc) as (_ & _ & ?).
Qed.

Lemma strip_digits (s : string) : all_digits s = true → strip s = s.
Proof.
  intros Hd. unfold strip.
  rewrite (lstrip_of_clean s) by (by apply all_digits_clean).
  rewrite lstrip_of_clean; [apply string_rev_involutive|].
  apply all_digits_clean. by apply all_digits_rev_app.
Qed.

Lemma parse_number_digits (s : string) :
  all_digits s = true → s ≠ EmptyString → parse_number s = parse_digits s 0.
Proof.
  intros Hd Hne. unfold parse_number. rewrite strip_digits by done.
  destruct s as [|c r]; [done|]. simpl in Hd.
  destruct (digit_of c) as [d|] eqn:Hc; [|done].
  by destruct (digit_not_sign c d Hc) as (-> & -> & _).
Qed.

(** A number that is not negative, written by [str] and padded by [zfill],
    is digits, and [int] reads the number back. *)
Lemma zfill_pretty (width : nat) (z : Z) :
  0 ≤ z →
  all_digits (zfill width (pretty z)) = true
  ∧ zfill width (pretty z) ≠ EmptyString
  ∧ parse_number (zfill width (pretty z)) = Some z.
Proof.
  intros Hz. destruct (pretty_Z_nonneg z Hz) as (Hd & Hne & Hp).
  rewrite zfill_digits by done.
  assert (Hall : all_digits (zeros (width - String.length (pretty z)) +:+ pretty z) = true).
  { by rewrite all_digits_app, all_digits_zeros, Hd. }
  assert (Hne' : zeros (width - String.length (pretty z)) +:+ pretty z ≠ EmptyString).
  { destruct (zeros _); [done|done]. }
  split; [done|]. split; [done|].
  rewrite parse_number_digits by done. by rewrite parse_digits_zeros.
Qed.

Lemma float_of_text_digits (s : string) :
  all_digits s = true → s ≠ EmptyString →
  float_of_text s = (λ n, int_to_float n false) <$> parse_digits s 0.
Proof.
  intros Hd Hne. unfold float_of_text. rewrite strip_digits by done.
  destruct s as [|c r]; [done|]. simpl in Hd.
  destruct (digit_of c) as [d|] eqn:Hc; [|done].
  destruct (digit_not_sign c d Hc) as (-> & -> & _).
  by destruct (parse_digits (String c r) 0).
Qed.

(** A natural number below [2 ^ 53], written by [str] and padded by
    [zfill], is read by [float] as the double that holds it. *)
Lemma zfill_pretty_float (width : nat) (z : Z) :
  0 ≤ z < 2 ^ 53 → float_of_text (zfill width (pretty z)) = Some (small_float z).
Proof.
  intros Hz. destruct (zfill_pretty width z ltac:(lia)) as (Hd & Hne & Hp).
  rewrite float_of_text_digits by done.
  rewrite parse_number_digits in Hp by done. rewrite Hp. cbn [fmap option_fmap option_map].
  by rewrite int_to_float_exact.
Qed.

Lemma all_digits_contains (c : ascii) (s : string) :
  digit_of c = None → all_digits s = true → contains c s = false.
Proof.
  intros Hc. induction s as [|a r IH]; [done|]. simpl.
  destruct (digit_of a) eqn:Ha; [|done]. intros Hr.
  destruct (Ascii.eqb_spec a c) as [->|_]; [congruence|]. by apply IH.
Qed.

(** ** The text of a path string and what [perm] reads from it *)

Lemma rfind_from_absent (c : ascii) (s : string) :
  contains c s = false → ∀ i best, rfind_from c s i best = best.
Proof.
  induction s as [|a r IH]; intros Hno i best; [done|]. simpl in *.
  destruct (Ascii.eqb a c); [done|]. by apply IH.
Qed.

Lemma rfind_from_sep (c : ascii) (a b : string) :
  contains c b = false →
  ∀ i best, rfind_from c (a +:+ String c b) i best = i + Z.of_nat (String.length a).
Proof.
  intros Hno. induction a as [|x a IH]; intros i best.
  - change (EmptyString +:+ String c b) with (String c b). simpl.
    rewrite Ascii.eqb_refl, rfind_from_absent by done. lia.
  - change (String x a +:+ String c b) with (String x (a +:+ String c b)). simpl.
    rewrite IH. lia.
Qed.

Lemma rfind_sep (c : ascii) (a b : string) :
  contains c b = false → rfind c (a +:+ String c b) = Z.of_nat (String.length a).
Proof. intros Hno. unfold rfind. by rewrite rfind_from_sep. Qed.

Lemma slice_middle (a m b : string) :
  slice (Some (Z.of_nat (String.length a)))
        (Some (Z.of_nat (String.length a) + Z.of_nat (String.length m))) (a +:+ m +:+ b) = m.
Proof.
  unfold slice. cbn [from_option]. unfold clip.
  rewrite !bool_decide_eq_false_2 by lia. rewrite !string_length_app.
  rewrite !Z.min_l by lia.
  replace (Z.to_nat (Z.of_nat (String.length a) + Z.of_nat (String.length m)
                     - Z.of_nat (String.length a))) with (String.length m) by lia.
  rewrite Nat2Z.id. rewrite <- (Nat.add_0_r (String.length a)).
  rewrite substring_skip. apply substring_prefix.
Qed.

Lemma slice_from (a b : string) :
  slice (Some (Z.of_nat (String.length a))) None (a +:+ b) = b.
Proof.
  unfold slice. cbn [from_option]. unfold clip.
  rewrite !bool_decide_eq_false_2 by lia. rewrite !string_length_app.
  rewrite !Z.min_l by lia.
  replace (Z.to_nat (Z.of_nat (String.length a + String.length b)
                     - Z.of_nat (String.length a))) with (String.length b) by lia.
  rewrite Nat2Z.id. rewrite <- (Nat.add_0_r (String.length a)).
  rewrite substring_skip. apply substring_all.
Qed.

Lemma item_string_parts (gap : string) (x : path_item) :
  item_string gap x
  = "[" +:+ item_values x +:+ "]" +:+ gap +:+ "<" +:+ item_tools x +:+ ">" +:+ ", "
        +:+ pi_path x.
Proof.
  unfold item_string, item_values, item_tools. by rewrite !string_app_assoc.
Qed.

Lemma padded_free (c : ascii) (width : nat) (z : Z) :
  digit_of c = None → 0 ≤ z → contains c (zfill width (pretty z)) = false.
Proof.
  intros Hc Hz. apply all_digits_contains; [done|]. by apply zfill_pretty.
Qed.

Lemma item_values_free (c : ascii) (x : path_item) :
  digit_of c = None → Ascii.eqb "," c = false → item_ok x →
  contains c (item_values x) = false.
Proof.
  intros Hc Hcomma (Ht & Hco & Hw & _). unfold item_values.
  rewrite !contains_app, !padded_free by done.
  change (contains c ",") with (contains c (String "," EmptyString)).
  by rewrite contains_one, Hcomma.
Qed.

Lemma item_tools_free (c : ascii) (x : path_item) :
  digit_of c = None → Ascii.eqb "," c = false → item_ok x →
  contains c (item_tools x) = false.
Proof.
  intros Hc Hcomma (_ & _ & _ & Htools & _). unfold item_tools.
  apply contains_join_other; [|done].
  apply Forall_fmap. eapply Forall_impl; [exact Htools|].
  intros w Hw. by apply padded_free.
Qed.

(** What [perm] cuts out of a path string (lines 1300-1302, 1315-1318 and
    1328-1329): the totals, the tool weights, and the text after the last
    closing angle bracket. *)
Lemma item_string_cuts (gap : string) (x : path_item) :
  item_ok x → contains ">" gap = false →
  slice (Some 1) (Some (find "]" (item_string gap x))) (item_string gap x) = item_values x
  ∧ slice (Some (rfind "<" (item_string gap x) + 1)) (Some (find ">" (item_string gap x)))
      (item_string gap x) = item_tools x
  ∧ slice (Some (rfind ">" (item_string gap x) + 1)) None (item_string gap x)
    = ", " +:+ pi_path x.
Proof.
  intros Hok Hgap. pose proof Hok as (_ & _ & _ & _ & _ & Hplt & Hpgt).
  rewrite item_string_parts.
  set (V := item_values x) in *. set (T := item_tools x) in *. set (P := pi_path x) in *.
  assert (HVb : contains "]" V = false) by (by apply item_values_free).
  assert (HVg : contains ">" V = false) by (by apply item_values_free).
  assert (HTl : contains "<" T = false) by (by apply item_tools_free).
  assert (HTg : contains ">" T = false) by (by apply item_tools_free).
  split; [|split].
  - replace ("[" +:+ V +:+ "]" +:+ gap +:+ "<" +:+ T +:+ ">" +:+ ", " +:+ P)
      with (("[" +:+ V) +:+ String "]" (gap +:+ "<" +:+ T +:+ ">" +:+ ", " +:+ P))
      by (by rewrite !string_app_assoc).
    rewrite find_sep by (by rewrite contains_app, HVb).
    rewrite string_app_assoc.
    change (Some 1) with (Some (Z.of_nat (String.length "["))).
    rewrite string_length_app, Nat2Z.inj_add. apply slice_middle.
  - set (A := "[" +:+ V +:+ "]" +:+ gap).
    replace ("[" +:+ V +:+ "]" +:+ gap +:+ "<" +:+ T +:+ ">" +:+ ", " +:+ P)
      with (A +:+ String "<" (T +:+ ">" +:+ ", " +:+ P))
      by (unfold A; by rewrite !string_app_assoc).
    rewrite rfind_sep by (by rewrite !contains_app, HTl, Hplt).
    replace (A +:+ String "<" (T +:+ ">" +:+ ", " +:+ P))
      with ((A +:+ "<" +:+ T) +:+ String ">" (", " +:+ P))
      by (by rewrite !string_app_assoc).
    assert (HA : contains ">" (A +:+ "<" +:+ T) = false).
    { unfold A. by rewrite !contains_app, HVg, Hgap, HTg. }
    rewrite find_sep by done.
    replace ((A +:+ "<" +:+ T) +:+ String ">" (", " +:+ P))
      with ((A +:+ "<") +:+ T +:+ String ">" (", " +:+ P))
      by (by rewrite !string_app_assoc).
    replace (Z.of_nat (String.length A) + 1) with (Z.of_nat (String.length (A +:+ "<")))
      by (rewrite string_length_app; simpl; lia).
    replace (Z.of_nat (String.length (A +:+ "<" +:+ T)))
      with (Z.of_nat (String.length (A +:+ "<")) + Z.of_nat (String.length T))
      by (rewrite <- string_app_assoc, (string_length_app (A +:+ "<") T); lia).
    apply slice_middle.
  - set (A := "[" +:+ V +:+ "]" +:+ gap +:+ "<" +:+ T).
    replace ("[" +:+ V +:+ "]" +:+ gap +:+ "<" +:+ T +:+ ">" +:+ ", " +:+ P)
      with (A +:+ String ">" (", " +:+ P))
      by (unfold A; by rewrite !string_app_assoc).
    rewrite rfind_sep by (by rewrite contains_app, Hpgt).
    replace (A +:+ String ">" (", " +:+ P)) with ((A +:+ ">") +:+ ", " +:+ P)
      by (by rewrite !string_app_assoc).
    replace (Z.of_nat (String.length A) + 1) with (Z.of_nat (String.length (A +:+ ">")))
      by (rewrite string_length_app; simpl; lia).
    apply slice_from.
Qed.

Lemma item_values_read (x : path_item) :
  item_ok x →
  split "," (item_values x)
  = [zfill 5 (pretty (pi_time x)); zfill 3 (pretty (pi_consum x));
     zfill 3 (pretty (pi_weight x))].
Proof.
  intros (Ht & Hc & Hw & _). unfold item_values.
  rewrite !split_app_sep, split_no_sep by (by apply padded_free). done.
Qed.

Lemma item_tools_read (x : path_item) :
  item_ok x → split "," (item_tools x) = (zfill 3 ∘ pretty <$> pi_tools x).
Proof.
  intros (_ & _ & _ & Htools & Hne & _). unfold item_tools. apply split_join.
  - apply Forall_fmap. eapply Forall_impl; [exact Htools|].
    intros w Hw. by apply padded_free.
  - by destruct (pi_tools x).
Qed.

Lemma merge_tool_step (toolvalues1 toolvalues2 : list string) (i : nat)
    (s1 s2 : string) (v1 v2 : Z) :
  toolvalues1 !! i = Some s1 → parse_number s1 = Some v1 →
  toolvalues2 !! i = Some s2 → parse_number s2 = Some v2 →
  merge_tool toolvalues1 toolvalues2 i
  = Some (if bool_decide (v2 < v1) then <[i := s1]> toolvalues2 else toolvalues2).
Proof.
  intros H1 Hv1 H2 Hv2. unfold merge_tool. rewrite H1. cbn [mbind option_bind].
  rewrite Hv1. cbn [mbind option_bind]. rewrite H2. cbn [mbind option_bind].
  rewrite Hv2. cbn [mbind option_bind]. by case_bool_decide.
Qed.

(** The loop of lines 1323-1325 on the texts of two lists of tool weights. *)
Lemma merge_loop (k : nat) :
  ∀ (d1 l1 done_tools l2 : list Z),
    length d1 = length done_tools → (k ≤ length l1)%nat → (k ≤ length l2)%nat →
    Forall (λ w, 0 ≤ w) l1 → Forall (λ w, 0 ≤ w) l2 →
    for_each (merge_tool (zfill 3 ∘ pretty <$> d1 ++ l1)) (seq (length done_tools) k)
      (zfill 3 ∘ pretty <$> done_tools ++ l2)
    = Some (zfill 3 ∘ pretty
              <$> done_tools ++ zip_with Z.max (take k l1) l2 ++ drop k l2).
Proof.
  induction k as [|k IH]; intros d1 l1 done_tools l2 Hlen Hk1 Hk2 H1 H2.
  - done.
  - destruct l1 as [|v1 l1]; [simpl in Hk1; lia|].
    destruct l2 as [|v2 l2]; [simpl in Hk2; lia|].
    apply Forall_cons in H1 as [Hv1 H1]. apply Forall_cons in H2 as [Hv2 H2].
    cbn [seq for_each].
    rewrite (merge_tool_step _ _ _ (zfill 3 (pretty v1)) (zfill 3 (pretty v2)) v1 v2).
    2:{ rewrite list_lookup_fmap, lookup_app_r by lia.
        by rewrite Hlen, Nat.sub_diag. }
    2:{ by apply zfill_pretty. }
    2:{ rewrite list_lookup_fmap, lookup_app_r by lia. by rewrite Nat.sub_diag. }
    2:{ by apply zfill_pretty. }
    assert (Hnew : (if bool_decide (v2 < v1)
                    then <[length done_tools := zfill 3 (pretty v1)]>
                           (zfill 3 ∘ pretty <$> done_tools ++ v2 :: l2)
                    else zfill 3 ∘ pretty <$> done_tools ++ v2 :: l2)
                   = (zfill 3 ∘ pretty <$> (done_tools ++ [Z.max v1 v2]) ++ l2)).
    { rewrite <- app_assoc. cbn [app]. case_bool_decide as Hlt.
      - rewrite Z.max_l by lia.
        change (zfill 3 (pretty v1)) with ((zfill 3 ∘ pretty) v1).
        rewrite <- list_fmap_insert. f_equal.
        rewrite insert_app_r_alt by lia. by rewrite Nat.sub_diag.
      - by rewrite Z.max_r by lia. }
    rewrite Hnew. cbn [mbind option_bind].
    replace (S (length done_tools)) with (length (done_tools ++ [Z.max v1 v2]))
      by (rewrite length_app; simpl; lia).
    replace (d1 ++ v1 :: l1) with ((d1 ++ [v1]) ++ l1) by (by rewrite <- app_assoc).
    rewrite IH; [| rewrite !length_app; simpl; lia | simpl in Hk1; lia | simpl in Hk2; lia
                 | done | done ].
    f_equal. f_equal. rewrite <- app_assoc. done.
Qed.

(** The combination of two path strings (lines 1298-1335). *)
Lemma combine_items_spec (t c nc : Z) (gap2 gap1 : string)
    (x2 x1 : path_item) (first rest : string) :
  item_ok x2 → item_ok x1 →
  contains ">" gap2 = false → contains ">" gap1 = false →
  length (pi_tools x1) = length (pi_tools x2) →
  pi_path x1 = first +:+ "-" +:+ rest → contains "-" first = false →
  pi_time x1 + pi_time x2 < 2 ^ 53 → pi_consum x1 + pi_consum x2 < 2 ^ 53 →
  pi_weight x1 + pi_weight x2 < 2 ^ 53 →
  combine_items t c nc (item_string gap2 x2) (item_string gap1 x1)
  = Some (bool_decide (pi_time x1 + pi_time x2 ≤ t ∧ pi_consum x1 + pi_consum x2 ≤ c
                       ∧ pi_weight x1 + pi_weight x2 ≤ nc),
          item_string " " (combined_item x2 x1 rest))
  ∧ item_ok (combined_item x2 x1 rest).
Proof.
  intros Hok2 Hok1 Hgap2 Hgap1 Hlen Hpath Hfirst Hbt Hbc Hbw.
  destruct (item_string_cuts gap2 x2 Hok2 Hgap2) as (Hv2 & Ht2 & Hp2).
  destruct (item_string_cuts gap1 x1 Hok1 Hgap1) as (Hv1 & Ht1 & Hp1).
  pose proof Hok1 as (H1t & H1c & H1w & H1tools & H1ne & H1lt & H1gt).
  pose proof Hok2 as (H2t & H2c & H2w & H2tools & H2ne & H2lt & H2gt).
  split.
  - unfold combine_items.
    rewrite Hv1, Hv2, Ht1, Ht2, Hp1, Hp2.
    rewrite !item_values_read, !item_tools_read by done.
    cbn [lookup list_lookup mbind option_bind].
    rewrite !zfill_pretty_float by lia.
    cbn [mbind option_bind].
    rewrite !float_add_small, !format_0f_small, !float_gt_int_small by lia.
    rewrite length_fmap.
    pose proof (merge_loop (length (pi_tools x1) - 1) [] (pi_tools x1) [] (pi_tools x2)
                  eq_refl ltac:(lia) ltac:(lia) H1tools H2tools) as Hmerge.
    cbn [app length] in Hmerge. rewrite Hmerge. cbn [mbind option_bind].
    f_equal. f_equal.
    + repeat case_bool_decide; simpl; (done || lia).
    + rewrite Hpath.
      change (", " +:+ first +:+ "-" +:+ rest) with ((", " +:+ first) +:+ String "-" rest).
      rewrite find_sep by (by rewrite contains_app, Hfirst).
      rewrite slice_from.
      unfold item_string, combined_item, merged_tools.
      cbn [pi_time pi_consum pi_weight pi_tools pi_path].
      by rewrite !string_app_assoc.
  - unfold combined_item, item_ok. cbn [pi_time pi_consum pi_weight pi_tools pi_path].
    split; [lia|]. split; [lia|]. split; [lia|].
    rewrite Hpath in H1lt, H1gt. rewrite !contains_app in H1lt, H1gt.
    apply orb_false_iff in H1lt as [_ H1lt], H1gt as [_ H1gt].
    rewrite !contains_app, H2lt, H2gt, H1lt, H1gt.
    split; [|split; [|done]].
    + unfold merged_tools. apply Forall_app. split.
      * apply Forall_forall. intros w Hw.
        apply elem_of_lookup_zip_with in Hw as (i & a & b & -> & Ha & Hb).
        rewrite Forall_forall in H2tools.
        apply list_elem_of_lookup_2, H2tools in Hb. lia.
      * by apply Forall_drop.
    + unfold merged_tools. intros Happ. apply app_eq_nil in Happ as [Hz Hd].
      apply (f_equal length) in Hz, Hd. rewrite length_zip_with, length_take in Hz.
      rewrite length_drop in Hd. simpl in Hz, Hd.
      destruct (pi_tools x2); [done|]. simpl in *. lia.
Qed.

(** X27.  [perm] adds the totals of two legs and merges their tools.  For
    two path strings in the format of [list2string] or of [perm] itself,
    with numbers that are not negative, as many tool weights each, a later
    path that continues after its first node, and sums of the totals below
    [2 ^ 53] (the totals are added as floats, which are exact up to there;
    [perm_adds_totals_as_doubles] shows a sum above), the combination of lines
    1298-1335 is the path string of the sums of the two times, of the two
    consumable weights and of the two total weights, of the tool weights
    merged by the larger value except for the last one, which is the earlier
    leg's, and of the earlier path followed by the later path without its
    first node.  It is valid exactly when the three sums are within [t], [c]
    and [nc].  The result is again a path string of this kind. *)
Theorem combine_items_adds_totals_and_merges_tools (t c nc : Z) (gap2 gap1 : string)
    (x2 x1 : path_item) (first rest : string) :
  item_ok x2 → item_ok x1 →
  contains ">" gap2 = false → contains ">" gap1 = false →
  length (pi_tools x1) = length (pi_tools x2) →
  pi_path x1 = first +:+ "-" +:+ rest → contains "-" first = false →
  pi_time x1 + pi_time x2 < 2 ^ 53 → pi_consum x1 + pi_consum x2 < 2 ^ 53 →
  pi_weight x1 + pi_weight x2 < 2 ^ 53 →
  combine_items t c nc (item_string gap2 x2) (item_string gap1 x1)
  = Some (bool_decide (pi_time x1 + pi_time x2 ≤ t ∧ pi_consum x1 + pi_consum x2 ≤ c
                       ∧ pi_weight x1 + pi_weight x2 ≤ nc),
          item_string " " (combined_item x2 x1 rest))
  ∧ item_ok (combined_item x2 x1 rest).
Proof. apply combine_items_spec. Qed.

Lemma combine_items_adds_totals_and_merges_tools_witness :
  combine_items 2222 333 444 (item_string ", " item_start_T1) (item_string ", " item_T1_T2)
  = Some (bool_decide (pi_time item_T1_T2 + pi_time item_start_T1 ≤ 2222
                       ∧ pi_consum item_T1_T2 + pi_consum item_start_T1 ≤ 333
                       ∧ pi_weight item_T1_T2 + pi_weight item_start_T1 ≤ 444),
          item_string " " (combined_item item_start_T1 item_T1_T2 "T2"))
  ∧ item_ok (combined_item item_start_T1 item_T1_T2 "T2").
Proof.
  apply (combine_items_adds_totals_and_merges_tools 2222 333 444 ", " ", "
           item_start_T1 item_T1_T2 "T1" "T2"); try reflexivity.
  - unfold item_ok. simpl. repeat split; try lia; try discriminate.
    repeat constructor; lia.
  - unfold item_ok. simpl. repeat split; try lia; try discriminate.
    repeat constructor; lia.
Defined.

(** Above [2 ^ 53] the sum is a rounded double: a path of 9007199254740992 s
    followed by one of 1 s is written with 9007199254740992 s. *)
Lemma perm_adds_totals_as_doubles :
  combine_items 2222 333 444
    (item_string ", " {| pi_time := 2 ^ 53; pi_consum := 5; pi_weight := 10;
                         pi_tools := pi_tools item_start_T1; pi_path := "start-T1" |})
    (item_string ", " {| pi_time := 1; pi_consum := 10; pi_weight := 13;
                         pi_tools := pi_tools item_T1_T2; pi_path := "T1-T2" |})
  = Some (false,
          "[9007199254740992,015,023] <005,000,000,000,000,000,000,000,000,000,000,000,000,000,000,000,000,000,000,007>, start-T1-T2"%string).
Proof. vm_compute. reflexivity. Qed.

Lemma list2string_item (this_data : list string) (x : path_item) :
  Forall2 (λ s v, parse_number s = Some v) this_data
    (pi_time x :: pi_consum x :: pi_weight x :: pi_tools x) →
  length (pi_tools x) = 20%nat →
  list2string (pi_path x) this_data = Some (item_string ", " x).
Proof.
  destruct x as [t c w tools p]. cbn [pi_time pi_consum pi_weight pi_tools pi_path].
  intros Hall Hlen.
  do 20 (destruct tools as [|? tools]; [simpl in Hlen; lia|]).
  destruct tools; [|simpl in Hlen; lia]. clear Hlen.
  repeat match goal with
         | H : Forall2 _ _ (_ :: _) |- _ =>
             apply Forall2_cons_inv_r in H as (? & ? & ? & H & ->)
         end.
  apply Forall2_nil_inv_r in Hall as ->.
  unfold list2string, item_string.
  cbn [lookup list_lookup mbind option_bind seq for_each
       pi_time pi_consum pi_weight pi_tools pi_path].
  repeat match goal with
         | H : parse_number _ = Some _ |- _ => rewrite H; clear H
         end.
  cbn [mbind option_bind fmap list_fmap join compose].
  f_equal. rewrite !string_app_assoc. reflexivity.
Qed.

Lemma read_padded (width : nat) (l : list Z) :
  Forall (λ w, 0 ≤ w) l → mapM parse_number (zfill width ∘ pretty <$> l) = Some l.
Proof.
  induction 1 as [|w l Hw Hl IH]; [done|].
  rewrite fmap_cons. cbn [mapM compose].
  destruct (zfill_pretty width w Hw) as (_ & _ & ->). cbn [mbind option_bind].
  rewrite IH. done.
Qed.

(** X28.  What [list2string] writes, [perm] reads back.  For the 23 numbers
    of a reduced line, none negative, [list2string] returns the path string
    [[ttttt,ccc,www], <20 tool weights>, path] with the numbers padded with
    zeros to five and three digits, and the cuts [perm] makes in that string
    (between the brackets, between the angle brackets, after the last angle
    bracket) read back the same three totals, the same 20 tool weights and
    the path, for any path free of angle brackets. *)
Theorem list2string_is_read_back_by_perm (this_data : list string) (x : path_item) :
  Forall2 (λ s v, parse_number s = Some v) this_data
    (pi_time x :: pi_consum x :: pi_weight x :: pi_tools x) →
  length (pi_tools x) = 20%nat → item_ok x →
  ∃ item,
    list2string (pi_path x) this_data = Some item
    ∧ item = item_string ", " x
    ∧ mapM parse_number (split "," (slice (Some 1) (Some (find "]" item)) item))
      = Some [pi_time x; pi_consum x; pi_weight x]
    ∧ mapM parse_number
        (split "," (slice (Some (rfind "<" item + 1)) (Some (find ">" item)) item))
      = Some (pi_tools x)
    ∧ slice (Some (rfind ">" item + 1)) None item = ", " +:+ pi_path x.
Proof.
  intros Hdata Hlen Hok. exists (item_string ", " x).
  split; [by apply list2string_item|]. split; [done|].
  destruct (item_string_cuts ", " x Hok eq_refl) as (-> & -> & ->).
  pose proof Hok as (Ht & Hc & Hw & Htools & _).
  rewrite item_values_read, item_tools_read by done.
  split; [|split; [by apply read_padded|done]].
  cbn [mapM].
  destruct (zfill_pretty 5 (pi_time x) Ht) as (_ & _ & ->).
  destruct (zfill_pretty 3 (pi_consum x) Hc) as (_ & _ & ->).
  destruct (zfill_pretty 3 (pi_weight x) Hw) as (_ & _ & ->).
  done.
Qed.

Lemma list2string_is_read_back_by_perm_witness :
  ∃ item,
    list2string (pi_path item_start_T1) data_start_T1 = Some item
    ∧ item = item_string ", " item_start_T1
    ∧ mapM parse_number (split "," (slice (Some 1) (Some (find "]" item)) item))
      = Some [pi_time item_start_T1; pi_consum item_start_T1; pi_weight item_start_T1]
    ∧ mapM parse_number
        (split "," (slice (Some (rfind "<" item + 1)) (Some (find ">" item)) item))
      = Some (pi_tools item_start_T1)
    ∧ slice (Some (rfind ">" item + 1)) None item = ", " +:+ pi_path item_start_T1.
Proof.
  apply (list2string_is_read_back_by_perm data_start_T1 item_start_T1).
  - repeat constructor.
  - reflexivity.
  - unfold item_ok. simpl. repeat split; try lia; try discriminate.
    repeat constructor; lia.
Defined.

(** ** The targets of the logic file *)

Lemma find_from_found (c : ascii) (s : string) :
  contains c s = true → ∀ i, i ≤ find_from c s i.
Proof.
  induction s as [|a r IH]; intros Hc i; [done|]. simpl in *.
  destruct (Ascii.eqb a c); [lia|]. specialize (IH Hc (i + 1)). lia.
Qed.

Lemma find_absent (c : ascii) (s : string) : find c s < 0 → contains c s = false.
Proof.
  intros Hf. destruct (contains c s) eqn:E; [|done].
  pose proof (find_from_found c s E 0). unfold find in Hf. lia.
Qed.

Lemma contains_rev_app (c : ascii) (s1 : string) :
  ∀ s2, contains c (String.rev_app s1 s2) = contains c s1 || contains c s2.
Proof.
  induction s1 as [|a s1 IH]; intros s2; [done|]. simpl. rewrite IH. simpl.
  destruct (Ascii.eqb a c); [by rewrite orb_true_r|done].
Qed.

Lemma contains_rev (c : ascii) (s : string) : contains c (String.rev s) = contains c s.
Proof. unfold String.rev. rewrite contains_rev_app. simpl. by rewrite orb_false_r. Qed.

Lemma contains_lstrip_char (c d : ascii) (s : string) :
  contains c (lstrip_char d s) = true → contains c s = true.
Proof.
  induction s as [|a r IH]; [done|]. simpl.
  destruct (Ascii.eqb a d); [|done]. intros H. rewrite (IH H). by destruct (Ascii.eqb a c).
Qed.

Lemma contains_strip_char (c d : ascii) (s : string) :
  contains c (strip_char d s) = true → contains c s = true.
Proof.
  unfold strip_char. rewrite contains_rev. intros H.
  apply contains_lstrip_char in H. rewrite contains_rev in H.
  by apply contains_lstrip_char in H.
Qed.

Lemma contains_blank_operators (c : ascii) (logic : string) :
  contains c (blank_operators logic) = true →
  c = " "%char
  ∨ (contains c logic = true
     ∧ c ≠ "("%char ∧ c ≠ ")"%char ∧ c ≠ "+"%char ∧ c ≠ "_"%char ∧ c ≠ ","%char).
Proof.
  induction logic as [|a r IH]; [done|]. cbn [blank_operators].
  assert (Hrest : contains c (blank_operators r) = true →
                  c = " "%char
                  ∨ (contains c (String a r) = true
                     ∧ c ≠ "("%char ∧ c ≠ ")"%char ∧ c ≠ "+"%char ∧ c ≠ "_"%char
                     ∧ c ≠ ","%char)).
  { intros H. destruct (IH H) as [?|(Hc & ?)]; [by left|right].
    split; [|done]. cbn [contains]. rewrite Hc. by destruct (Ascii.eqb a c). }
  destruct (Ascii.eqb a "(" || Ascii.eqb a ")") eqn:Ep; [done|].
  cbn [contains].
  destruct (Ascii.eqb a "+" || Ascii.eqb a "_" || Ascii.eqb a ",") eqn:Eo.
  - destruct (Ascii.eqb_spec " " c) as [<-|_]; [by left|done].
  - destruct (Ascii.eqb_spec a c) as [<-|Hac]; [|done].
    intros _. right.
    apply orb_false_elim in Ep as [E1 E2].
    apply orb_false_elim in Eo as [Eo E5]. apply orb_false_elim in Eo as [E3 E4].
    apply Ascii.eqb_neq in E1, E2, E3, E4, E5. done.
Qed.

Lemma split_pieces (sep : ascii) (s : string) :
  Forall (λ piece, contains sep piece = false
                   ∧ ∀ c, contains c piece = true → contains c s = true) (split sep s).
Proof.
  induction s as [|a r IH]; simpl.
  - constructor; [|done]. done.
  - destruct (Ascii.eqb a sep) eqn:Ea.
    + constructor; [done|]. eapply Forall_impl; [exact IH|].
      intros piece [H1 H2]. split; [done|]. intros c Hc. rewrite (H2 c Hc).
      by destruct (Ascii.eqb a c).
    + destruct (split sep r) as [|h tl]; [constructor; [|done]|].
      * simpl. rewrite Ea. split; [done|]. intros c. simpl.
        destruct (Ascii.eqb a c); done.
      * apply Forall_cons in IH as [[H1 H2] IH]. constructor.
        -- simpl. rewrite Ea. split; [done|]. intros c. simpl.
           destruct (Ascii.eqb a c); [done|]. apply H2.
        -- eapply Forall_impl; [exact IH|]. intros piece [H3 H4]. split; [done|].
           intros c Hc. simpl. rewrite (H4 c Hc). by destruct (Ascii.eqb a c).
Qed.

Lemma add_target_ok (TSet_targets : list string) (node : string) :
  (node ≠ EmptyString → clean_target node) →
  targets_ok TSet_targets → targets_ok (add_target TSet_targets node).
Proof.
  intros Hnode [Hnd Hall]. unfold add_target. case_bool_decide as Hadd; [|done].
  destruct Hadd as (Hnot & Hne & _). split.
  - apply NoDup_app. split; [done|]. split; [|apply NoDup_singleton].
    intros x Hx Hx'. apply list_elem_of_singleton in Hx' as ->. done.
  - apply Forall_app. split; [done|]. constructor; [by apply Hnode|done].
Qed.

Lemma line_targets_ok (TSet_targets : list string) (line : string) :
  targets_ok TSet_targets → targets_ok (line_targets TSet_targets line).
Proof.
  intros Hok. unfold line_targets. case_bool_decide as Hfind; [|done].
  apply find_absent in Hfind.
  set (working := blank_operators (strip_char newline line)).
  assert (Hw : ∀ c, contains c working = true →
                    c = " "%char ∨ (c ≠ "("%char ∧ c ≠ ")"%char ∧ c ≠ "+"%char
                                    ∧ c ≠ "_"%char ∧ c ≠ ","%char ∧ c ≠ "#"%char)).
  { intros c Hc. apply contains_blank_operators in Hc as [?|(Hc & ? & ? & ? & ? & ?)];
      [by left|right].
    repeat (split; [done|]). intros ->. apply contains_strip_char in Hc. congruence. }
  assert (Hnodes : Forall (λ node, node ≠ EmptyString → clean_target node)
                     (if contains " " working then split " " working else [working])).
  { assert (Hpiece : ∀ node, contains " " node = false →
                             (∀ c, contains c node = true → contains c working = true) →
                             node ≠ EmptyString → clean_target node).
    { intros node Hblank Hsub Hne. split; [done|].
      assert (Hno : ∀ c, c ∈ ["("; ")"; "+"; "_"; ","; "#"]%char → contains c node = false).
      { intros c Hc. destruct (contains c node) eqn:E; [|done]. exfalso.
        apply Hsub, Hw in E as [->|E].
        - repeat (apply elem_of_cons in Hc as [Hc|Hc]; [discriminate Hc|]).
          by apply elem_of_nil in Hc.
        - repeat (apply elem_of_cons in Hc as [->|Hc]; [naive_solver|]).
          by apply elem_of_nil in Hc. }
      constructor; [done|]. apply Forall_forall. exact Hno. }
    destruct (contains " " working) eqn:Eb.
    - eapply Forall_impl; [apply split_pieces|]. intros node [H1 H2]. by apply Hpiece.
    - constructor; [|done]. by apply Hpiece. }
  revert TSet_targets Hok.
  induction Hnodes as [|node nodes Hnode Hrest IH]; intros TSet_targets Hok; [done|].
  simpl. apply IH. by apply add_target_ok.
Qed.

(** The file of two logic lines and a comment names three targets. *)
Example get_nodes_in_logic_tsets_file :
  get_nodes_in_logic tsets_file = ["T1"; "T2"; "T3"]%string.
Proof. vm_compute. reflexivity. Qed.

(** X30.  The targets of the logic file.  Whatever the lines of the file,
    [get_nodes_in_logic] returns target names that are pairwise different,
    in ascending order, and each of them is not empty and free of blanks,
    parentheses, the three operators and the comment sign: lines with a
    comment sign are skipped, parentheses are dropped, operators split the
    line, and a name is added once (lines 1210-1232). *)
Theorem get_nodes_in_logic_gives_sorted_distinct_targets (lines : list string) :
  NoDup (get_nodes_in_logic lines)
  ∧ Sorted.StronglySorted String.le (get_nodes_in_logic lines)
  ∧ Forall clean_target (get_nodes_in_logic lines).
Proof.
  assert (Hok : targets_ok (foldl line_targets [] lines)).
  { assert (Hgen : ∀ T, targets_ok T → targets_ok (foldl line_targets T lines)).
    { induction lines as [|line lines IH]; intros T HT; [done|].
      simpl. apply IH. by apply line_targets_ok. }
    apply Hgen. split; [constructor|constructor]. }
  destruct Hok as [Hnd Hall]. unfold get_nodes_in_logic.
  pose proof (sorting.merge_sort_Permutation String.le (foldl line_targets [] lines)) as Hperm.
  split; [by rewrite Hperm|]. split; [apply sorting.StronglySorted_merge_sort; apply _|].
  by rewrite Hperm.
Qed.



(** ** The enumerator: what the recursion leaves behind *)

Lemma record_each_ok (dp : datapack) (paths : list (list nat)) :
  ∀ sg,
    (∀ p, p ∈ paths → is_Some (segment_key dp p) ∧ is_Some (path_totals dp p)) →
    is_Some (for_each (record_path dp) paths sg).
Proof.
  induction paths as [|p paths IH]; intros sg Hall; [by eexists|].
  destruct (Hall p) as ([key Hkey] & [a Ha]); [set_solver|].
  destruct (record_path_eq dp sg p key a Hkey Ha) as (sg1 & Heq1 & _).
  cbn [for_each]. rewrite Heq1. simpl. apply IH. set_solver.
Qed.

Lemma scenario_a_back_wf : wf_datapack scenario_a_back.
Proof.
  split.
  - simpl. lia.
  - simpl. lia.
  - intros u Hu. simpl in Hu.
    destruct u as [|[|u]]; [| |lia]; eexists; (split; [reflexivity|]);
      intros i Hi; simpl; set_solver by lia.
  - intros i raw Hraw.
    destruct i as [|[|i]]; simpl in Hraw; [| |done]; injection Hraw as <-;
      (split; [by eexists|]); (split; [by eexists|]); eexists; (split; [reflexivity|]);
      simpl; lia.
Qed.

(** X1.  [print_all_paths_util] gives back the two objects it mutates as it
    found them.  Entered at a node [u] that is not on the current path, with
    [visited] marking exactly the nodes of [path], the call returns (the
    recursion depth never exceeds the number of nodes not yet on the path),
    and on return [visited] and [path] are what they were at the call: the
    mark of line 1476 and the append of line 1477 are undone by lines
    1528-1529 on every way through the function.  Only the two result
    dictionaries change. *)
Theorem util_restores_visited_and_path (dp : datapack) (fuel u d : nat) (st : dfs_state) :
  wf_datapack dp →
  tracks (length (dp_node_id dp)) st →
  (u < length (dp_node_id dp))%nat → u ∉ path st →
  (length (dp_node_id dp) ≤ fuel + length (path st))%nat →
  ∃ st', print_all_paths_util fuel dp u d st = Some st'
    ∧ visited st' = visited st ∧ path st' = path st.
Proof.
  intros Hwf Htr Hu Hnot Hfuel.
  rewrite (util_refines dp d (wf_graph dp Hwf)) by done.
  destruct (record_each_ok dp (dfs_paths fuel (dp_g dp) d (path st) u) (found st))
    as [sg Hsg].
  { intros p Hp. destruct Htr as (_ & Hnd & Hb).
    apply dfs_paths_sound in Hp as (q & -> & Hw & Hl & _).
    2:{ apply NoDup_app. split; [done|]. split; [|apply NoDup_singleton]. set_solver. }
    assert (Hall : ∀ i, i ∈ path st ++ u :: q → (i < length (dp_node_id dp))%nat).
    { intros i Hi. apply elem_of_app in Hi as [Hi|Hi]; [by apply Hb|].
      by apply (walk_bounded (dp_g dp) _ (wf_graph dp Hwf) q u Hu Hw). }
    split.
    - unfold segment_key.
      destruct (path st ++ u :: q) as [|x r] eqn:E; [by destruct (path st)|].
      assert (Hx : (x < length (dp_node_id dp))%nat) by (apply Hall; set_solver).
      destruct (last (x :: r)) as [y|] eqn:Ey; [|by apply last_None in Ey].
      assert (Hy : (y < length (dp_node_id dp))%nat).
      { apply Hall. apply last_Some in Ey as [l' ->]. set_solver. }
      destruct (lookup_lt_is_Some_2 _ _ Hx) as [sx Hsx].
      destruct (lookup_lt_is_Some_2 _ _ Hy) as [sy Hsy].
      cbn [head mbind option_bind]. rewrite Hsx, Hsy. by eexists.
    - destruct (path_totals_ok dp Hwf (path st ++ u :: q) Hall) as (a & Ha & _).
      by exists a. }
  rewrite Hsg. simpl. by eexists.
Qed.

Lemma util_restores_visited_and_path_witness :
  ∃ st', print_all_paths_util 3 two_targets 1 2 two_targets_entry = Some st'
    ∧ visited st' = visited two_targets_entry ∧ path st' = path two_targets_entry.
Proof.
  apply (util_restores_visited_and_path two_targets 3 1 2 two_targets_entry two_targets_wf).
  - split; [|split]; simpl.
    + intros i Hi. destruct i as [|[|[|i]]]; [reflexivity..|lia].
    + constructor.
    + intros i Hi. by apply elem_of_nil in Hi.
  - simpl. lia.
  - simpl. apply not_elem_of_nil.
  - simpl. lia.
Defined.

(** X2.  A segment with no admissible path is still recorded.  When no simple
    path from the origin to the destination passes the three budgets (the
    destination cannot be reached, or every path is too costly), the run
    returns with the key of the segment present and mapped to the empty
    list, and with no path data at all: lines 1438-1440 and the
    initialisation at line 1486. *)
Theorem no_admissible_path_records_empty_list (dp : datapack) (fuel : nat) :
  wf_datapack dp → (length (dp_node_id dp) ≤ fuel)%nat →
  (∀ p a, simple_path (dp_g dp) (dp_start dp) (dp_dest dp) p →
     path_totals dp p = Some a → within_budgets dp a = false) →
  ∃ sg key,
    print_all_paths fuel dp = Some sg
    ∧ requested_key dp = Some key
    ∧ segment_paths sg !! key = Some []
    ∧ segment_pathdata sg = ∅.
Proof.
  intros Hwf Hfuel Hnone.
  destruct (print_all_paths_result dp fuel Hwf Hfuel) as (sg & key & Hrun & Hkey & Hsp & Hspd).
  assert (Hadm : admitted dp (dfs_paths fuel (dp_g dp) (dp_dest dp) [] (dp_start dp)) = []).
  { apply elem_of_nil_inv. intros a Ha.
    apply (emitted_by_admitted dp fuel a Hwf Hfuel) in Ha as (p & Hp & Ha & Hok).
    rewrite (Hnone p a Hp Ha) in Hok. done. }
  rewrite Hadm in Hsp, Hspd. exists sg, key. done.
Qed.

Lemma no_admissible_path_records_empty_list_witness :
  ∃ sg key,
    print_all_paths 2 scenario_a_back = Some sg
    ∧ requested_key scenario_a_back = Some key
    ∧ segment_paths sg !! key = Some []
    ∧ segment_pathdata sg = ∅.
Proof.
  apply (no_admissible_path_records_empty_list scenario_a_back 2 scenario_a_back_wf).
  - simpl. lia.
  - intros p a (Hh & Hl & Hnd & Hw) _. exfalso.
    destruct p as [|x [|y r]]; simpl in Hh, Hl; [done| |].
    + congruence.
    + injection Hh as ->. destruct Hw as ((ns & Hg & Hy) & _).
      vm_compute in Hg. injection Hg as <-. by apply elem_of_nil in Hy.
Defined.

(** ** The enumerator: tools and total weight *)

(** X3.  The tool weights recorded for a path.  Whenever the accumulation
    loop of lines 1486-1503 completes on a path, the list it records has 20
    entries; each of the first 19 is the largest weight of that tool over
    the nodes of the path (0 at least), and the last entry is 0 whatever the
    nodes hold, because [range(0, 19)] never reaches index 19. *)
Theorem recorded_tools_are_maxima_of_first_19 (dp : datapack) (p : list nat) (a : totals) :
  path_totals dp p = Some a →
  length (new_tools a) = 20%nat
  ∧ (∀ k, (k < 19)%nat → new_tools a !! k = Some (max_over (node_tool_of dp k) p))
  ∧ new_tools a !! 19%nat = Some 0.
Proof.
  intros Hrun. unfold path_totals in Hrun.
  apply totals_loop_tools in Hrun as (Hlen & Hin & Hout).
  2:{ intros k n _ Hn. unfold totals0 in Hn. cbn [new_tools] in Hn.
      apply lookup_replicate in Hn as [-> _]. done. }
  split; [done|]. split.
  - intros k Hk. destruct (Hin k Hk) as (n & Hn & Hfin); [simpl; lia|].
    rewrite Hfin. f_equal. unfold totals0 in Hn. cbn [new_tools] in Hn.
    apply lookup_replicate in Hn as [-> _].
    assert (0 ≤ max_over (node_tool_of dp k) p); [|lia].
    clear. induction p as [|i p IH]; simpl; lia.
  - rewrite Hout by lia. done.
Qed.

Lemma recorded_tools_are_maxima_of_first_19_witness :
  ∃ a, path_totals scenario_a_last_tool [0; 1]%nat = Some a
    ∧ length (new_tools a) = 20%nat
    ∧ (∀ k, (k < 19)%nat →
         new_tools a !! k = Some (max_over (node_tool_of scenario_a_last_tool k) [0; 1]%nat))
    ∧ new_tools a !! 19%nat = Some 0.
Proof.
  eexists. split; [vm_compute; reflexivity|].
  apply (recorded_tools_are_maxima_of_first_19 scenario_a_last_tool [0; 1]%nat).
  vm_compute. reflexivity.
Defined.

(** X4.  The total weight recorded for a path is the consumables of the path
    plus the first 19 recorded tool weights (lines 1499-1503): the weight is
    started afresh from the consumables at every node, so what is left after
    the last node is this sum.  The twentieth tool weight is not part of it. *)
Theorem total_weight_is_consumables_plus_first_19_tools
    (dp : datapack) (p : list nat) (a : totals) :
  path_totals dp p = Some a →
  total_weight a = total_consum a + sum_Z (take 19 (new_tools a)).
Proof.
  unfold path_totals. intros Hrun.
  destruct (decide (p = [])) as [->|Hne].
  - simpl in Hrun. injection Hrun as <-. reflexivity.
  - destruct (exists_last Hne) as (q & item & ->).
    rewrite for_each_app in Hrun.
    destruct (for_each (item_step dp) q totals0) as [a1|]; [|done].
    cbn [mbind option_bind for_each] in Hrun.
    destruct (item_step dp a1 item) as [a2|] eqn:Hstep; [|done].
    cbn [mbind option_bind] in Hrun. injection Hrun as <-.
    by apply item_step_tools in Hstep as (_ & _ & _ & Hw).
Qed.

Lemma total_weight_is_consumables_plus_first_19_tools_witness :
  ∃ a, path_totals scenario_a [0; 1]%nat = Some a
    ∧ total_weight a = total_consum a + sum_Z (take 19 (new_tools a)).
Proof.
  eexists. split; [vm_compute; reflexivity|].
  apply (total_weight_is_consumables_plus_first_19_tools scenario_a [0; 1]%nat).
  vm_compute. reflexivity.
Defined.

(** ** The reducer: bounds on what is kept *)

Lemma pop_snoc {A : Type} (l : list A) (x : A) : pop (l ++ [x]) = Some l.
Proof.
  unfold pop. rewrite removelast_last. by destruct l.
Qed.

Lemma keep_line_bounded (cutoff value : Z) (x_line : pathdata_line)
    (kept : list pathdata_line) (cutoff_value : Z) (content : list pathdata_line) :
  1 ≤ cutoff → Z.of_nat (length kept) ≤ cutoff → kept ⊆ content → x_line ∈ content →
  ∃ kept' cutoff_value',
    keep_line cutoff value x_line (kept, cutoff_value) = Some (kept', cutoff_value')
    ∧ Z.of_nat (length kept') ≤ cutoff ∧ kept' ⊆ content.
Proof.
  intros Hc Hlen Hsub Hx. unfold keep_line.
  case_bool_decide; [|by eexists _, _].
  case_bool_decide.
  - destruct kept as [|y kept] using rev_ind; [simpl in *; lia|].
    rewrite pop_snoc. cbn [mbind option_bind].
    eexists _, _. split; [done|]. rewrite length_app in *. simpl in *.
    split; [lia|]. set_solver.
  - eexists _, _. split; [done|]. rewrite length_app. simpl. split; [lia|]. set_solver.
Qed.

Lemma reduce_step_eq (cutoff_fastest cutoff_lightest : Z)
    (st : (list pathdata_line * Z) * (list pathdata_line * Z)) (x_line : pathdata_line)
    (t c : Z) :
  data_list x_line !! 0%nat = Some t → data_list x_line !! 1%nat = Some c →
  reduce_step cutoff_fastest cutoff_lightest st x_line
  = (fast ← keep_line cutoff_fastest t x_line st.1;
     light ← keep_line cutoff_lightest c x_line st.2;
     Some (fast, light)).
Proof. intros Ht Hc. unfold reduce_step. by rewrite Ht, Hc. Qed.

Lemma combine_lists_bounded (lightest : list pathdata_line) :
  ∀ fastest,
    (length (combine_lists fastest lightest) ≤ length fastest + length lightest)%nat
    ∧ combine_lists fastest lightest ⊆ fastest ++ lightest.
Proof.
  unfold combine_lists.
  induction lightest as [|x lightest IH]; intros fastest; simpl.
  - split; [lia|]. set_solver.
  - case_decide.
    + destruct (IH fastest) as (Hlen & Hsub). split; [lia|]. set_solver.
    + destruct (IH (fastest ++ [x])) as (Hlen & Hsub).
      rewrite length_app in Hlen. simpl in Hlen. split; [lia|]. set_solver.
Qed.

Lemma reduce_loop_bounded (cutoff_fastest cutoff_lightest : Z)
    (content : list pathdata_line) :
  1 ≤ cutoff_fastest → 1 ≤ cutoff_lightest →
  ∀ lines fastest ct lightest cc,
    lines ⊆ content →
    Forall (λ x_line, 2 ≤ length (data_list x_line))%nat lines →
    Z.of_nat (length fastest) ≤ cutoff_fastest → fastest ⊆ content →
    Z.of_nat (length lightest) ≤ cutoff_lightest → lightest ⊆ content →
    ∃ fastest' ct' lightest' cc',
      for_each (reduce_step cutoff_fastest cutoff_lightest) lines
        ((fastest, ct), (lightest, cc)) = Some ((fastest', ct'), (lightest', cc'))
      ∧ Z.of_nat (length fastest') ≤ cutoff_fastest ∧ fastest' ⊆ content
      ∧ Z.of_nat (length lightest') ≤ cutoff_lightest ∧ lightest' ⊆ content.
Proof.
  intros Hcf Hcl. induction lines as [|x lines IH];
    intros fastest ct lightest cc Hsub Hdata Hlf Hsf Hll Hsl.
  - by eexists _, _, _, _.
  - apply Forall_cons in Hdata as [Hx Hdata].
    destruct (lookup_lt_is_Some_2 (data_list x) 0) as [t Ht]; [lia|].
    destruct (lookup_lt_is_Some_2 (data_list x) 1) as [c Hc]; [lia|].
    destruct (keep_line_bounded cutoff_fastest t x fastest ct content)
      as (f1 & ct1 & Hf1 & Hlf1 & Hsf1); [done | done | done | set_solver |].
    destruct (keep_line_bounded cutoff_lightest c x lightest cc content)
      as (l1 & cc1 & Hl1 & Hll1 & Hsl1); [done | done | done | set_solver |].
    cbn [for_each]. rewrite (reduce_step_eq _ _ _ _ t c Ht Hc).
    cbn [mbind option_bind fst snd]. rewrite Hf1, Hl1. cbn [mbind option_bind].
    apply IH; [set_solver | done..].
Qed.

(** X5.  With both cutoffs at least 1, and at least two numbers on every
    line, the reducer returns, what it keeps for a segment are lines of the
    file, and their number is at most [cutoff_fastest + cutoff_lightest]:
    a full list loses its last line before a new one is appended (lines
    469-472 and 474-477), and [combo] is [fastest] followed by lines of
    [lightest] (lines 483-486). *)
Theorem reducer_keeps_at_most_the_cutoffs (cutoff_fastest cutoff_lightest : Z)
    (content : list pathdata_line) :
  1 ≤ cutoff_fastest → 1 ≤ cutoff_lightest →
  Forall (λ x_line, 2 ≤ length (data_list x_line))%nat content →
  ∃ combo,
    reduce_segment cutoff_fastest cutoff_lightest content = Some combo
    ∧ Z.of_nat (length combo) ≤ cutoff_fastest + cutoff_lightest
    ∧ ∀ x_line, x_line ∈ combo → x_line ∈ content.
Proof.
  intros Hcf Hcl Hdata.
  destruct (reduce_loop_bounded cutoff_fastest cutoff_lightest content Hcf Hcl
              content [] 999999 [] 999999)
    as (f & ct & l & cc & Hrun & Hlf & Hsf & Hll & Hsl);
    [done | done | simpl; lia | set_solver | simpl; lia | set_solver |].
  unfold reduce_segment. rewrite Hrun. cbn [mbind option_bind fst snd].
  eexists. split; [done|].
  destruct (combine_lists_bounded l f) as (Hlen & Hsub).
  split; [lia|]. intros x Hx. apply Hsub in Hx. set_solver.
Qed.

Lemma reducer_keeps_at_most_the_cutoffs_witness :
  ∃ combo,
    reduce_segment 1 1 [line_1; line_2; line_3] = Some combo
    ∧ Z.of_nat (length combo) ≤ 1 + 1
    ∧ ∀ x_line, x_line ∈ combo → x_line ∈ [line_1; line_2; line_3].
Proof.
  apply (reducer_keeps_at_most_the_cutoffs 1 1 [line_1; line_2; line_3]); [lia | lia |].
  repeat constructor; simpl; lia.
Defined.

Lemma combine_lists_same (lightest fastest : list pathdata_line) :
  lightest ⊆ fastest → combine_lists fastest lightest = fastest.
Proof.
  unfold combine_lists. induction lightest as [|x lightest IH]; intros Hsub; simpl; [done|].
  rewrite decide_True by set_solver. apply IH. set_solver.
Qed.

Lemma reduce_loop_keeps_all (cutoff_fastest cutoff_lightest : Z) (lines : list pathdata_line) :
  ∀ done_lines,
    Z.of_nat (length (done_lines ++ lines)) < cutoff_fastest →
    Z.of_nat (length (done_lines ++ lines)) < cutoff_lightest →
    Forall (λ x_line, ∃ t c, data_list x_line !! 0%nat = Some t
                             ∧ data_list x_line !! 1%nat = Some c
                             ∧ t < 999999 ∧ c < 999999) lines →
    for_each (reduce_step cutoff_fastest cutoff_lightest) lines
      ((done_lines, 999999), (done_lines, 999999))
    = Some ((done_lines ++ lines, 999999), (done_lines ++ lines, 999999)).
Proof.
  induction lines as [|x lines IH]; intros done_lines Hf Hl Hdata.
  - by rewrite app_nil_r.
  - apply Forall_cons in Hdata as [(t & c & Ht & Hc & Hlt & Hlc) Hdata].
    cbn [for_each]. rewrite (reduce_step_eq _ _ _ _ t c Ht Hc).
    cbn [mbind option_bind fst snd]. unfold keep_line.
    rewrite !length_app in Hf, Hl. simpl in Hf, Hl.
    rewrite (bool_decide_eq_true_2 (t < 999999)) by done.
    rewrite (bool_decide_eq_true_2 (c < 999999)) by done.
    rewrite !bool_decide_eq_false_2 by lia.
    cbn [mbind option_bind].
    rewrite (IH (done_lines ++ [x])); rewrite <- ?app_assoc; simpl; [done | | | done].
    + rewrite length_app. simpl. lia.
    + rewrite length_app. simpl. lia.
Qed.

(** X6.  Cutoffs above the number of lines drop nothing.  When both cutoffs
    exceed the number of lines of the file and every line has a time and a
    consumable weight below the initial cutoff value 999999, no list ever
    fills up, nothing is popped, and the reducer keeps all the lines, once
    each and in file order. *)
Theorem reducer_keeps_all_below_large_cutoffs (cutoff_fastest cutoff_lightest : Z)
    (content : list pathdata_line) :
  Z.of_nat (length content) < cutoff_fastest →
  Z.of_nat (length content) < cutoff_lightest →
  Forall (λ x_line, ∃ t c, data_list x_line !! 0%nat = Some t
                           ∧ data_list x_line !! 1%nat = Some c
                           ∧ t < 999999 ∧ c < 999999) content →
  reduce_segment cutoff_fastest cutoff_lightest content = Some content.
Proof.
  intros Hf Hl Hdata. unfold reduce_segment.
  rewrite (reduce_loop_keeps_all cutoff_fastest cutoff_lightest content []) by done.
  cbn [mbind option_bind fst snd app]. f_equal. by apply combine_lists_same.
Qed.

Lemma reducer_keeps_all_below_large_cutoffs_witness :
  reduce_segment 4 5 [line_1; line_2; line_3] = Some [line_1; line_2; line_3].
Proof.
  apply (reducer_keeps_all_below_large_cutoffs 4 5 [line_1; line_2; line_3]);
    [simpl; lia | simpl; lia |].
  repeat constructor; eexists _, _; (split; [reflexivity|]); (split; [reflexivity|]); lia.
Defined.

(** ** The scheduling loop: which workers are started, and how many *)

Lemma remove_first_subseteq {A : Type} `{EqDecision A} (x : A) (l : list A) :
  remove_first x l ⊆ l.
Proof.
  induction l as [|y l IH]; simpl; [done|].
  destruct (decide (y = x)); set_solver.
Qed.

Lemma remove_first_perm {A : Type} `{EqDecision A} (x : A) (l : list A) :
  x ∈ l → l ≡ₚ x :: remove_first x l.
Proof.
  induction l as [|y l IH]; intros Hin; [by apply elem_of_nil in Hin|]. simpl.
  destruct (decide (y = x)) as [->|Hne]; [done|].
  apply elem_of_cons in Hin as [->|Hin]; [done|].
  rewrite (IH Hin) at 1. apply Permutation_swap.
Qed.

Lemma sched_inv_for_body (cfg : sched_config) (st0 st : sched) (my_segment : string) :
  my_segment ∈ queue st → sched_inv cfg st0 st → sched_inv cfg st0 (for_body cfg st my_segment).
Proof.
  intros Hin Hinv. unfold for_body.
  case_bool_decide as Hcap; [|exact Hinv].
  destruct Hinv as (Hq & Hs & (leaked & Hw) & Hlen).
  destruct (bool_decide (segment_from my_segment ∈ node_id cfg)) eqn:H1;
    destruct (bool_decide (segment_to my_segment ∈ node_id cfg)) eqn:H2;
    cbn [andb]; (split; [|split; [|split]]); cbn [queue started working running];
    try done; try (rewrite length_app; simpl; lia).
  - pose proof (remove_first_subseteq my_segment (queue st)). set_solver.
  - apply bool_decide_eq_true in H1, H2.
    intros k Hk. apply elem_of_app in Hk as [Hk|Hk]; [by apply Hs|].
    apply list_elem_of_singleton in Hk as ->. right. split; [by apply Hq|done].
  - exists leaked. rewrite Hw. rewrite <- !app_assoc. apply Permutation_app_head.
    apply Permutation_app_comm.
  - exists (leaked ++ [pathdata_filename cfg my_segment]). by rewrite Hw, app_assoc.
  - exists (leaked ++ [pathdata_filename cfg my_segment]). by rewrite Hw, app_assoc.
  - exists (leaked ++ [pathdata_filename cfg my_segment]). by rewrite Hw, app_assoc.
Qed.

Lemma sched_inv_step (cfg : sched_config) (st0 st st' : sched) :
  sched_step cfg st st' → sched_inv cfg st0 st → sched_inv cfg st0 st'.
Proof.
  intros Hstep Hinv.
  destruct Hstep as [st Hat Hne | st Hat Hqe Hwe | st i seg Hat Hseg | st i Hat Hend | st f Hf].
  - done.
  - done.
  - apply (sched_inv_for_body cfg st0 st seg) in Hinv; [done|].
    by apply list_elem_of_lookup_2 in Hseg.
  - done.
  - destruct Hinv as (Hq & Hs & (leaked & Hw) & Hlen).
    split; [done|]. split; [done|]. cbn [working running worker_finishes].
    assert (Hfw : f ∈ working st).
    { rewrite Hw. apply elem_of_app. by left. }
    pose proof (remove_first_perm f (working st) Hfw) as Hpw.
    pose proof (remove_first_perm f (running st) Hf) as Hpr.
    split.
    + exists leaked. apply (Permutation_cons_inv (a := f)).
      rewrite <- Hpw, Hw. rewrite Hpr at 1. done.
    + apply Permutation_length in Hpw. simpl in Hpw. lia.
Qed.

Lemma sched_inv_init (cfg : sched_config) (st0 : sched) :
  running st0 = [] → sched_inv cfg st0 st0.
Proof.
  intros Hr. split; [done|]. split; [by left|]. split; [|lia].
  exists (working st0). by rewrite Hr.
Qed.

Lemma sched_inv_reachable (cfg : sched_config) (st0 st : sched) :
  running st0 = [] → rtc (sched_step cfg) st0 st → sched_inv cfg st0 st.
Proof.
  intros Hr. revert st. apply rtc_ind_r.
  - by apply sched_inv_init.
  - intros st1 st2 _ Hstep IH. by apply (sched_inv_step cfg st0 st1 st2 Hstep).
Qed.

(** X7.  A worker process is started only for a queued key whose two end
    points are nodes.  From a start in which nothing has been started or is
    running, whatever the main process and the workers do, every key in
    [started] was taken from the initial queue and splits at its first colon
    into two members of [node_id] (the test of line 392 guards line 406). *)
Theorem workers_start_only_for_known_segments (cfg : sched_config) (st0 st : sched)
    (k : string) :
  started st0 = [] → running st0 = [] →
  rtc (sched_step cfg) st0 st →
  k ∈ started st →
  k ∈ queue st0 ∧ segment_from k ∈ node_id cfg ∧ segment_to k ∈ node_id cfg.
Proof.
  intros Hs Hr Hsteps Hk.
  destruct (sched_inv_reachable cfg st0 st Hr Hsteps) as (_ & Hst & _).
  destruct (Hst k Hk) as [Hin|Hok]; [|done].
  rewrite Hs in Hin. by apply elem_of_nil in Hin.
Qed.

Lemma workers_start_only_for_known_segments_witness :
  "start:T1"%string ∈ queue queue_with_unknown
  ∧ segment_from "start:T1" ∈ node_id small_site
  ∧ segment_to "start:T1" ∈ node_id small_site.
Proof.
  apply (workers_start_only_for_known_segments small_site queue_with_unknown after_one_pass
           "start:T1"); [reflexivity | reflexivity | exact one_pass_trace |].
  vm_compute. apply list_elem_of_here.
Defined.



Lemma for_body_without_capacity (cfg : sched_config) (st : sched) (my_segment : string) :
  n_processors cfg ≤ 1 → for_body cfg st my_segment = st.
Proof.
  intros Hn. unfold for_body. rewrite bool_decide_eq_false_2; [done|]. lia.
Qed.

(** X9.  With [n_processors] at most 1 (the machine has no more than one
    processor beyond the reserved ones) the test of line 382 never holds:
    no worker is ever started, the queue never changes, and with a queue
    that is not empty the main process never leaves [while queue or
    working]. *)
Theorem one_processor_starts_nothing (cfg : sched_config) (st0 st : sched) :
  n_processors cfg ≤ 1 →
  queue st0 ≠ [] → at_line st0 ≠ AfterLoop →
  rtc (sched_step cfg) st0 st →
  queue st = queue st0 ∧ started st = started st0 ∧ at_line st ≠ AfterLoop.
Proof.
  intros Hn Hq Hl Hsteps.
  induction Hsteps as [st|st1 st2 st3 Hstep _ IH]; [done|].
  assert (Hkeep : queue st2 = queue st1 ∧ started st2 = started st1 ∧ at_line st2 ≠ AfterLoop).
  { destruct Hstep as [st Hat Hne | st Hat Hqe Hwe | st i seg Hat Hseg | st i Hat Hend | st f Hf].
    - done.
    - done.
    - rewrite for_body_without_capacity by done. done.
    - done.
    - done. }
  destruct Hkeep as (Hq2 & Hs2 & Hl2).
  rewrite <- Hq2, <- Hs2. apply IH; [by rewrite Hq2 | done].
Qed.

Lemma one_processor_starts_nothing_witness :
  queue (set_line (set_line (set_line queue_with_unknown (InFor 0)) (InFor 1)) (InFor 2))
  = queue queue_with_unknown
  ∧ started (set_line (set_line (set_line queue_with_unknown (InFor 0)) (InFor 1)) (InFor 2))
    = started queue_with_unknown
  ∧ at_line (set_line (set_line (set_line queue_with_unknown (InFor 0)) (InFor 1)) (InFor 2))
    ≠ AfterLoop.
Proof.
  apply (one_processor_starts_nothing
           {| n_processors := 1; node_id := ["start"; "T1"]%string;
              current_directory := "C:\run" |}
           queue_with_unknown); [simpl; lia | discriminate | discriminate |].
  eapply rtc_l; [apply step_enter; [reflexivity | left; discriminate]|].
  eapply rtc_l; [apply (step_body _ _ 0%nat "start:X9"); reflexivity|].
  eapply rtc_l; [apply (step_body _ _ 1%nat "start:T1"); reflexivity|].
  apply rtc_refl.
Defined.

(** ** [perm]: scenarios with an empty leg or with one leg *)

Lemma fresh_loc_ne (w : world) (l : loc) (o : pyobj) :
  heap w !! l = Some o → fresh (dom (heap w)) ≠ l.
Proof.
  intros Hl Heq. apply (is_fresh (dom (heap w))). rewrite Heq.
  apply elem_of_dom. by exists o.
Qed.

Lemma is_empty_list_nonempty (w : world) (l : loc) :
  nonempty_list_at w l → is_empty_list l w = (w, Some false).
Proof.
  intros (o & Hl & H1 & H2). unfold is_empty_list, py_bind, read_object. rewrite Hl.
  destruct o as [[|x items]|[|x items]]; done.
Qed.

Lemma any_empty_finds (w : world) (before after : list loc) (leg : loc) :
  (∀ l, l ∈ before → nonempty_list_at w l) →
  heap w !! leg = Some (ListOfStr []) ∨ heap w !! leg = Some (ListOfLists []) →
  any_empty (before ++ leg :: after) w = (w, Some true).
Proof.
  intros Hbefore Hleg. induction before as [|l before IH]; simpl.
  - unfold is_empty_list, read_object, py_bind. by destruct Hleg as [-> | ->].
  - unfold py_bind at 1. rewrite is_empty_list_nonempty by set_solver.
    apply IH. set_solver.
Qed.

(** X10.  A scenario with an empty leg gives no mission.  When one of the
    per-leg lists of the scenario is empty (and the lists before it are
    not), [perm] returns a new, empty list: nothing is combined, nothing is
    written to [Invalid_Paths.txt], and the budgets play no part (lines
    1283-1287). *)
Theorem perm_with_an_empty_leg_returns_nothing (w : world) (scenario : loc) (t c nc : Z)
    (before after : list loc) (leg : loc) :
  heap w !! scenario = Some (ListOfLists (before ++ leg :: after)) →
  (∀ l, l ∈ before → nonempty_list_at w l) →
  heap w !! leg = Some (ListOfStr []) →
  ∃ result,
    (perm scenario t c nc w).2 = Some result
    ∧ heap w !! result = None
    ∧ heap (perm scenario t c nc w).1 !! result = Some (ListOfLists [])
    ∧ invalid_file (perm scenario t c nc w).1 = invalid_file w.
Proof.
  intros Hsc Hbefore Hleg.
  set (l1 := fresh (dom (heap w))).
  set (w1 := {| heap := <[l1 := ListOfLists (before ++ leg :: after)]> (heap w);
                invalid_file := invalid_file w |}).
  assert (Hkeep : ∀ l o, heap w !! l = Some o → heap w1 !! l = Some o).
  { intros l o Hl. simpl. rewrite lookup_insert_ne; [done|]. by eapply fresh_loc_ne. }
  assert (Hempty : any_empty (before ++ leg :: after) w1 = (w1, Some true)).
  { apply any_empty_finds.
    - intros l Hl. destruct (Hbefore l Hl) as (o & Ho & Hne). exists o. split; [|done].
      by apply Hkeep.
    - left. by apply Hkeep. }
  assert (Hrun : perm scenario t c nc w = new_object (ListOfLists []) w1).
  { unfold perm. unfold py_bind at 1. unfold read_lists, read_object, py_bind at 1.
    rewrite Hsc. unfold py_ret at 1. unfold py_bind at 1.
    change (new_object (ListOfLists (before ++ leg :: after)) w) with (w1, Some l1).
    unfold py_bind at 1. by rewrite Hempty. }
  rewrite Hrun. unfold new_object. simpl.
  exists (fresh (dom (<[l1 := ListOfLists (before ++ leg :: after)]> (heap w)))).
  split; [done|]. split; [|split; [|done]].
  - apply not_elem_of_dom. intros Hin.
    apply (is_fresh (dom (<[l1 := ListOfLists (before ++ leg :: after)]> (heap w)))).
    eapply elem_of_weaken; [exact Hin | apply dom_insert_subseteq].
  - by rewrite lookup_insert_eq.
Qed.

Lemma perm_with_an_empty_leg_returns_nothing_witness :
  ∃ result,
    (perm 0%nat 2222 333 444
       {| heap := {[ 0%nat := ListOfLists [1%nat; 2%nat];
                     1%nat := ListOfStr [leg_1]; 2%nat := ListOfStr [] ]};
          invalid_file := [] |}).2 = Some result
    ∧ heap {| heap := {[ 0%nat := ListOfLists [1%nat; 2%nat];
                         1%nat := ListOfStr [leg_1]; 2%nat := ListOfStr [] ]};
              invalid_file := [] |} !! result = None
    ∧ heap (perm 0%nat 2222 333 444
              {| heap := {[ 0%nat := ListOfLists [1%nat; 2%nat];
                            1%nat := ListOfStr [leg_1]; 2%nat := ListOfStr [] ]};
                 invalid_file := [] |}).1 !! result = Some (ListOfLists [])
    ∧ invalid_file (perm 0%nat 2222 333 444
                      {| heap := {[ 0%nat := ListOfLists [1%nat; 2%nat];
                                    1%nat := ListOfStr [leg_1]; 2%nat := ListOfStr [] ]};
                         invalid_file := [] |}).1 = [].
Proof.
  apply (perm_with_an_empty_leg_returns_nothing
           {| heap := {[ 0%nat := ListOfLists [1%nat; 2%nat];
                         1%nat := ListOfStr [leg_1]; 2%nat := ListOfStr [] ]};
              invalid_file := [] |} 0%nat 2222 333 444 [1%nat] [] 2%nat).
  - reflexivity.
  - intros l Hl. apply list_elem_of_singleton in Hl as ->.
    exists (ListOfStr [leg_1]). split; [reflexivity|]. split; discriminate.
  - reflexivity.
Defined.

(** X11.  A scenario of one leg is returned as it is.  With a single per-leg
    list that is not empty, [perm] returns a new list holding that same
    per-leg list: the loop [while n > 1] is not entered, so the paths of
    the leg are not compared with the budgets [t], [c] and [nc] and nothing
    is written to [Invalid_Paths.txt].  If the first string of the leg is
    empty, the leg is deleted and the list returned is empty (lines
    1288-1289). *)
Theorem perm_with_one_leg_returns_the_leg (w : world) (scenario : loc) (t c nc : Z)
    (leg : loc) (s : string) (items : list string) :
  heap w !! scenario = Some (ListOfLists [leg]) →
  heap w !! leg = Some (ListOfStr (s :: items)) →
  ∃ result,
    (perm scenario t c nc w).2 = Some result
    ∧ heap w !! result = None
    ∧ heap (perm scenario t c nc w).1 !! result
      = Some (ListOfLists (if decide (s = EmptyString) then [] else [leg]))
    ∧ invalid_file (perm scenario t c nc w).1 = invalid_file w.
Proof.
  intros Hsc Hleg.
  assert (Hne : fresh (dom (heap w)) ≠ leg) by (by eapply fresh_loc_ne).
  unfold perm, read_lists, read_object, py_bind. rewrite Hsc.
  unfold py_ret, new_object. cbn [heap invalid_file].
  unfold any_empty, is_empty_list, read_object, py_bind. cbn [heap invalid_file].
  rewrite lookup_insert_ne by done. rewrite Hleg.
  unfold py_ret. unfold py_lift, from_end. simpl.
  unfold first_is_blank, read_object, py_bind. cbn [heap invalid_file].
  rewrite lookup_insert_ne by done. rewrite Hleg. unfold py_ret.
  exists (fresh (dom (heap w))).
  assert (Hfresh : heap w !! fresh (dom (heap w)) = None).
  { apply not_elem_of_dom, is_fresh. }
  assert (Hne2 : ∀ (m : gmap loc pyobj) o,
            fresh (dom (<[fresh (dom (heap w)) := o]> m)) ≠ fresh (dom (heap w))).
  { intros m o Heq.
    apply (is_fresh (dom (<[fresh (dom (heap w)) := o]> m))). rewrite Heq.
    apply elem_of_dom. rewrite lookup_insert_eq. by eexists. }
  case_bool_decide as Hs.
  - rewrite decide_True by done. unfold write_object. cbn [heap invalid_file fst snd].
    split; [done|]. split; [done|]. split; [|done].
    rewrite lookup_insert_ne by apply Hne2. by rewrite lookup_insert_eq.
  - rewrite decide_False by done. cbn [heap invalid_file fst snd].
    split; [done|]. split; [done|]. split; [|done].
    rewrite lookup_insert_ne by apply Hne2. by rewrite lookup_insert_eq.
Qed.


Lemma perm_with_one_leg_returns_the_leg_witness :
  ∃ result,
    (perm 0%nat 0 0 0
       {| heap := {[ 0%nat := ListOfLists [1%nat]; 1%nat := ListOfStr [leg_2b] ]};
          invalid_file := [] |}).2 = Some result
    ∧ heap {| heap := {[ 0%nat := ListOfLists [1%nat]; 1%nat := ListOfStr [leg_2b] ]};
              invalid_file := [] |} !! result = None
    ∧ heap (perm 0%nat 0 0 0
              {| heap := {[ 0%nat := ListOfLists [1%nat]; 1%nat := ListOfStr [leg_2b] ]};
                 invalid_file := [] |}).1 !! result
      = Some (ListOfLists (if decide (leg_2b = EmptyString) then [] else [1%nat]))
    ∧ invalid_file (perm 0%nat 0 0 0
                      {| heap := {[ 0%nat := ListOfLists [1%nat];
                                    1%nat := ListOfStr [leg_2b] ]};
                         invalid_file := [] |}).1 = [].
Proof.
  apply (perm_with_one_leg_returns_the_leg
           {| heap := {[ 0%nat := ListOfLists [1%nat]; 1%nat := ListOfStr [leg_2b] ]};
              invalid_file := [] |} 0%nat 0 0 0 1%nat leg_2b []); reflexivity.
Defined.

(** ** [perm] on two legs *)

Lemma contains_cut (c : ascii) (s : string) :
  contains c s = true → ∃ a b, s = a +:+ String c b ∧ contains c a = false.
Proof.
  induction s as [|x s IH]; [done|]. simpl.
  destruct (Ascii.eqb_spec x c) as [->|Hne].
  - intros _. by exists EmptyString, s.
  - intros Hs. destruct (IH Hs) as (a & b & -> & Ha). exists (String x a), b.
    split; [done|]. simpl. by rewrite (proj2 (Ascii.eqb_neq x c) Hne).
Qed.

Lemma combine_later (t c nc : Z) (gap2 gap1 : string) (x2 x1 : path_item) :
  item_ok x2 → item_ok x1 → contains "-" (pi_path x1) = true →
  contains ">" gap2 = false → contains ">" gap1 = false →
  length (pi_tools x1) = length (pi_tools x2) → totals_fit x2 x1 →
  combine_items t c nc (item_string gap2 x2) (item_string gap1 x1)
  = Some (combination t c nc x2 x1).
Proof.
  intros H2 H1 Hdash Hg2 Hg1 Hlen (Hft & Hfc & Hfw).
  destruct (contains_cut _ _ Hdash) as (first & rest & Hpath & Hfirst).
  destruct (combine_items_spec t c nc gap2 gap1 x2 x1 first rest) as [-> _]; try done.
  unfold combination, edge_to. rewrite Hpath.
  by rewrite slice_after_sep.
Qed.

Lemma combine_into_run (t c nc : Z) (h0 : gmap loc pyobj) (new_list : loc)
    (acc inv : list string) (item2 item1 : string) (r : bool * string) :
  combine_items t c nc item2 item1 = Some r →
  combine_into t c nc new_list item2 item1 (collecting h0 new_list acc inv)
  = (collecting h0 new_list (acc ++ valid_of [r]) (inv ++ invalid_of [r]), Some tt).
Proof.
  intros Hr. unfold combine_into, py_bind, py_lift. rewrite Hr.
  destruct r as [[|] s]; cbn [fst snd valid_of invalid_of omap list_omap].
  - unfold read_strings, read_object, py_bind, collecting. cbn [heap].
    rewrite lookup_insert_eq. unfold py_ret, write_object. cbn [heap invalid_file].
    rewrite insert_insert_eq. by rewrite app_nil_r.
  - unfold write_invalid, collecting. cbn [heap invalid_file]. by rewrite app_nil_r.
Qed.

Lemma valid_of_app (a b : list (bool * string)) : valid_of (a ++ b) = valid_of a ++ valid_of b.
Proof. apply omap_app. Qed.

Lemma invalid_of_app (a b : list (bool * string)) :
  invalid_of (a ++ b) = invalid_of a ++ invalid_of b.
Proof. apply omap_app. Qed.

Lemma inner_loop_run (t c nc : Z) (h0 : gmap loc pyobj) (new_list : loc)
    (gap2 gap1 : string) (x2 : path_item) (xs1 : list path_item) :
  item_ok x2 → contains ">" gap2 = false → contains ">" gap1 = false →
  Forall (λ x1, item_ok x1 ∧ contains "-" (pi_path x1) = true
                ∧ length (pi_tools x1) = length (pi_tools x2) ∧ totals_fit x2 x1) xs1 →
  ∀ acc inv,
    py_for (combine_into t c nc new_list (item_string gap2 x2)) (item_string gap1 <$> xs1)
      (collecting h0 new_list acc inv)
    = (collecting h0 new_list (acc ++ valid_of (combination t c nc x2 <$> xs1))
         (inv ++ invalid_of (combination t c nc x2 <$> xs1)), Some tt).
Proof.
  intros H2 Hg2 Hg1 Hall. induction Hall as [|x1 xs1 (H1 & Hdash & Hlen & Hfit) Hrest IH];
    intros acc inv.
  - simpl. unfold py_ret. by rewrite !app_nil_r.
  - rewrite !fmap_cons. cbn [py_for]. unfold py_bind at 1.
    rewrite (combine_into_run _ _ _ _ _ _ _ _ _ (combination t c nc x2 x1))
      by (by apply combine_later).
    rewrite IH.
    change (combination t c nc x2 x1 :: (combination t c nc x2 <$> xs1))
      with ([combination t c nc x2 x1] ++ (combination t c nc x2 <$> xs1)).
    by rewrite valid_of_app, invalid_of_app, !app_assoc.
Qed.

Lemma outer_loop_run (t c nc : Z) (h0 : gmap loc pyobj) (new_list list1 : loc)
    (gap2 gap1 : string) (xs2 xs1 : list path_item) :
  list1 ≠ new_list →
  h0 !! list1 = Some (ListOfStr (item_string gap1 <$> xs1)) →
  contains ">" gap2 = false → contains ">" gap1 = false →
  Forall item_ok xs2 →
  Forall (λ x1, item_ok x1 ∧ contains "-" (pi_path x1) = true) xs1 →
  (∀ x2 x1, x2 ∈ xs2 → x1 ∈ xs1 →
     length (pi_tools x1) = length (pi_tools x2) ∧ totals_fit x2 x1) →
  ∀ acc inv,
    py_for (λ item2, py_bind (read_strings list1)
                       (λ items1, py_for (combine_into t c nc new_list item2) items1))
      (item_string gap2 <$> xs2) (collecting h0 new_list acc inv)
    = (collecting h0 new_list (acc ++ valid_of (combinations t c nc xs2 xs1))
         (inv ++ invalid_of (combinations t c nc xs2 xs1)), Some tt).
Proof.
  intros Hne Hl1 Hg2 Hg1 Hall2 Hall1 Hlen.
  induction Hall2 as [|x2 xs2 H2 Hrest IH]; intros acc inv.
  - simpl. unfold py_ret. by rewrite !app_nil_r.
  - rewrite fmap_cons. cbn [py_for]. unfold py_bind at 1.
    unfold py_bind at 1. unfold read_strings at 1. unfold py_bind at 1, read_object at 1.
    unfold collecting at 1. cbn [heap]. rewrite lookup_insert_ne by done. rewrite Hl1.
    unfold py_ret at 1.
    fold (collecting h0 new_list acc inv).
    rewrite (inner_loop_run t c nc h0 new_list gap2 gap1 x2 xs1); [|done..|].
    2:{ apply Forall_forall. intros x1 Hx1. rewrite Forall_forall in Hall1.
        destruct (Hall1 x1 Hx1) as [? ?]. split; [done|]. split; [done|].
        apply Hlen; [by left|done]. }
    rewrite IH by (intros; apply Hlen; [by right|done]).
    unfold combinations. rewrite bind_cons.
    by rewrite valid_of_app, invalid_of_app, !app_assoc.
Qed.

Lemma item_string_nonempty (gap : string) (x : path_item) : item_string gap x ≠ EmptyString.
Proof. done. Qed.


Lemma read_lists_run (l : loc) (w : world) (items : list loc) :
  heap w !! l = Some (ListOfLists items) → read_lists l w = (w, Some items).
Proof. intros H. unfold read_lists, py_bind, read_object. by rewrite H. Qed.

Lemma read_strings_run (l : loc) (w : world) (items : list string) :
  heap w !! l = Some (ListOfStr items) → read_strings l w = (w, Some items).
Proof. intros H. unfold read_strings, py_bind, read_object. by rewrite H. Qed.

Lemma any_empty_none (w : world) (segments : list loc) :
  (∀ l, l ∈ segments → nonempty_list_at w l) → any_empty segments w = (w, Some false).
Proof.
  induction segments as [|l r IH]; intros Hall; [done|]. cbn [any_empty].
  unfold py_bind at 1. rewrite is_empty_list_nonempty by (apply Hall; by left).
  apply IH. intros l' Hl'. apply Hall. by right.
Qed.

Lemma first_is_blank_run (l : loc) (w : world) (s : string) (items : list string) :
  heap w !! l = Some (ListOfStr (s :: items)) →
  first_is_blank l w = (w, Some (bool_decide (s = EmptyString))).
Proof. intros H. unfold first_is_blank, py_bind, read_object. by rewrite H. Qed.

(** X29.  [perm] on two legs returns the valid combinations.  For a scenario
    of two legs whose lists hold path strings (in the format of
    [list2string] or of [perm]), with numbers that are not negative and sums
    of totals below [2 ^ 53] (so that the floats [perm] adds are exact),
    later paths that continue after their first node and as many tool
    weights in every string, [perm] returns a new list with one per-leg
    list: the
    combinations of every string of the earlier leg with every string of
    the later leg whose summed time, consumables and total weight are
    within [t], [c] and [nc], in the order of the earlier leg first.  The
    other combinations are appended to [Invalid_Paths.txt], in the same
    order. *)
Theorem perm_of_two_legs_keeps_the_valid_combinations (w : world) (scenario leg2 leg1 : loc) (t c nc : Z)
    (gap2 gap1 : string) (xs2 xs1 : list path_item) :
  heap w !! scenario = Some (ListOfLists [leg2; leg1]) →
  heap w !! leg2 = Some (ListOfStr (item_string gap2 <$> xs2)) →
  heap w !! leg1 = Some (ListOfStr (item_string gap1 <$> xs1)) →
  xs2 ≠ [] → xs1 ≠ [] →
  contains ">" gap2 = false → contains ">" gap1 = false →
  Forall item_ok xs2 →
  Forall (λ x1, item_ok x1 ∧ contains "-" (pi_path x1) = true) xs1 →
  (∀ x2 x1, x2 ∈ xs2 → x1 ∈ xs1 →
     length (pi_tools x1) = length (pi_tools x2) ∧ totals_fit x2 x1) →
  ∃ result combined,
    (perm scenario t c nc w).2 = Some result
    ∧ heap (perm scenario t c nc w).1 !! result = Some (ListOfLists [combined])
    ∧ heap (perm scenario t c nc w).1 !! combined
      = Some (ListOfStr (valid_of (combinations t c nc xs2 xs1)))
    ∧ invalid_file (perm scenario t c nc w).1
      = invalid_file w ++ invalid_of (combinations t c nc xs2 xs1).
Proof.
  intros Hsc Hl2 Hl1 Hne2 Hne1 Hg2 Hg1 Hall2 Hall1 Hlen.
  set (result := fresh (dom (heap w))).
  set (h1 := <[result := ListOfLists [leg2; leg1]]> (heap w)).
  set (w1 := {| heap := h1; invalid_file := invalid_file w |}).
  set (new_list := fresh (dom h1)).
  assert (Hr2 : result ≠ leg2) by (by eapply fresh_loc_ne).
  assert (Hr1 : result ≠ leg1) by (by eapply fresh_loc_ne).
  assert (Hnr : new_list ≠ result).
  { intros Heq. apply (is_fresh (dom h1)). fold new_list. rewrite Heq.
    apply elem_of_dom. unfold h1. rewrite lookup_insert_eq. by eexists. }
  assert (H1l2 : h1 !! leg2 = Some (ListOfStr (item_string gap2 <$> xs2))).
  { unfold h1. by rewrite lookup_insert_ne. }
  assert (H1l1 : h1 !! leg1 = Some (ListOfStr (item_string gap1 <$> xs1))).
  { unfold h1. by rewrite lookup_insert_ne. }
  assert (Hn2 : new_list ≠ leg2).
  { intros Heq. apply (is_fresh (dom h1)). fold new_list. rewrite Heq.
    apply elem_of_dom. by eexists. }
  assert (Hn1 : new_list ≠ leg1).
  { intros Heq. apply (is_fresh (dom h1)). fold new_list. rewrite Heq.
    apply elem_of_dom. by eexists. }
  assert (Hrun : perm scenario t c nc w
                 = py_bind (perm_loop 2 t c nc result new_list 2) (λ _, py_ret result)
                     (collecting h1 new_list [] (invalid_file w))).
  { unfold perm. unfold py_bind at 1. rewrite (read_lists_run _ _ _ Hsc).
    unfold py_bind at 1.
    change (new_object (ListOfLists [leg2; leg1]) w) with (w1, Some result).
    unfold py_bind at 1. rewrite any_empty_none.
    2:{ intros l Hl. apply elem_of_cons in Hl as [->|Hl];
          [|apply list_elem_of_singleton in Hl as ->]; eexists; (split; [done|]).
        - destruct xs2; [done|]. split; discriminate.
        - destruct xs1; [done|]. split; discriminate. }
    unfold py_bind at 1. unfold py_lift at 1, from_end at 1. cbn [length].
    rewrite bool_decide_eq_true_2 by lia. cbn [lookup list_lookup Nat.sub].
    destruct xs1 as [|x1 xs1']; [done|].
    unfold py_bind at 1. rewrite (first_is_blank_run leg1 w1 (item_string gap1 x1)
                                    (item_string gap1 <$> xs1')) by done.
    rewrite (bool_decide_eq_false_2 (item_string gap1 x1 = EmptyString)) by done.
    unfold py_bind at 1. unfold py_ret at 1. unfold py_bind at 1.
    change (new_object (ListOfStr []) w1)
      with (collecting h1 new_list [] (invalid_file w), Some new_list).
    reflexivity. }
  rewrite Hrun. clear Hrun.
  set (inv := invalid_file w).
  set (combos := combinations t c nc xs2 xs1).
  set (W1 := collecting h1 new_list (valid_of combos) (inv ++ invalid_of combos)).
  set (copy := fresh (dom (heap W1))).
  set (Wf := {| heap := <[new_list := ListOfStr []]>
                          (<[result := ListOfLists [copy]]>
                             (<[copy := ListOfStr (valid_of combos)]> (heap W1)));
                invalid_file := inv ++ invalid_of combos |}).
  assert (Hres0 : ∀ acc i, heap (collecting h1 new_list acc i) !! result
                           = Some (ListOfLists [leg2; leg1])).
  { intros acc i. unfold collecting. cbn [heap]. rewrite lookup_insert_ne by done.
    unfold h1. apply lookup_insert_eq. }
  assert (Hround : perm_round t c nc result new_list (collecting h1 new_list [] inv)
                   = (Wf, Some 1%nat)).
  { unfold perm_round.
    unfold py_bind at 1. rewrite (read_lists_run result _ [leg2; leg1]) by apply Hres0.
    unfold py_bind at 1. unfold py_lift at 1, from_end at 1. cbn [length].
    rewrite bool_decide_eq_true_2 by lia. cbn [lookup list_lookup Nat.sub].
    unfold py_bind at 1. unfold py_lift at 1, from_end at 1. cbn [length].
    rewrite bool_decide_eq_true_2 by lia. cbn [lookup list_lookup Nat.sub].
    unfold py_bind at 1.
    rewrite (read_strings_run leg2 _ (item_string gap2 <$> xs2))
      by (unfold collecting; cbn [heap]; by rewrite lookup_insert_ne).
    unfold py_bind at 1.
    rewrite (outer_loop_run t c nc h1 new_list leg1 gap2 gap1 xs2 xs1) by done.
    cbn [app]. fold combos. fold W1.
    unfold py_bind at 1. rewrite (read_lists_run result W1 [leg2; leg1]) by apply Hres0.
    cbn [length]. rewrite bool_decide_eq_true_2 by lia.
    unfold py_bind at 1. unfold py_bind at 1.
    rewrite (read_strings_run new_list W1 (valid_of combos))
      by (unfold W1, collecting; cbn [heap]; apply lookup_insert_eq).
    unfold py_bind at 1.
    change (new_object (ListOfStr (valid_of combos)) W1)
      with ({| heap := <[copy := ListOfStr (valid_of combos)]> (heap W1);
               invalid_file := invalid_file W1 |}, Some copy).
    unfold py_bind at 1. unfold write_object at 1. cbn [heap invalid_file].
    unfold write_object at 1. cbn [heap invalid_file Nat.sub].
    cbn [list_insert insert removelast].
    unfold py_bind at 1.
    rewrite (read_lists_run result _ [copy]).
    2:{ cbn [heap]. rewrite lookup_insert_ne by done. apply lookup_insert_eq. }
    reflexivity. }
  assert (Hloop : perm_loop 2 t c nc result new_list 2 (collecting h1 new_list [] inv)
                  = (Wf, Some tt)).
  { cbn [perm_loop]. rewrite bool_decide_eq_true_2 by lia.
    unfold py_bind at 1. rewrite Hround.
    rewrite bool_decide_eq_false_2 by lia. reflexivity. }
  assert (Hall : py_bind (perm_loop 2 t c nc result new_list 2) (λ _, py_ret result)
                   (collecting h1 new_list [] inv) = (Wf, Some result)).
  { unfold py_bind. by rewrite Hloop. }
  rewrite Hall. cbn [fst snd].
  exists result, copy.
  assert (Hcr : copy ≠ result).
  { intros Heq. apply (is_fresh (dom (heap W1))). fold copy. rewrite Heq.
    apply elem_of_dom. unfold W1. rewrite Hres0. by eexists. }
  assert (Hcn : copy ≠ new_list).
  { intros Heq. apply (is_fresh (dom (heap W1))). fold copy. rewrite Heq.
    apply elem_of_dom. unfold W1, collecting. cbn [heap]. rewrite lookup_insert_eq.
    by eexists. }
  split; [done|]. unfold Wf. cbn [heap invalid_file].
  split; [|split; [|done]].
  - rewrite lookup_insert_ne by done. apply lookup_insert_eq.
  - rewrite lookup_insert_ne by done. rewrite lookup_insert_ne by done.
    apply lookup_insert_eq.
Qed.

Lemma perm_of_two_legs_keeps_the_valid_combinations_witness :
  ∃ result combined,
    (perm 0%nat 2222 333 444 two_leg_world).2 = Some result
    ∧ heap (perm 0%nat 2222 333 444 two_leg_world).1 !! result = Some (ListOfLists [combined])
    ∧ heap (perm 0%nat 2222 333 444 two_leg_world).1 !! combined
      = Some (ListOfStr (valid_of (combinations 2222 333 444 [item_start_T1]
                                     [item_T1_T2; item_T1_N1_T2])))
    ∧ invalid_file (perm 0%nat 2222 333 444 two_leg_world).1
      = invalid_file two_leg_world
        ++ invalid_of (combinations 2222 333 444 [item_start_T1]
                         [item_T1_T2; item_T1_N1_T2]).
Proof.
  apply (perm_of_two_legs_keeps_the_valid_combinations two_leg_world 0%nat 1%nat 2%nat
           2222 333 444 ", " ", " [item_start_T1] [item_T1_T2; item_T1_N1_T2]);
    try reflexivity; try discriminate.
  - repeat constructor; simpl; try lia; try discriminate.
  - repeat constructor; simpl; try lia; try discriminate.
  - intros x2 x1 H2 H1.
    apply list_elem_of_singleton in H2 as ->.
    apply elem_of_cons in H1 as [->|H1]; [by vm_compute|].
    apply list_elem_of_singleton in H1 as ->. by vm_compute.
Defined.

(** ** The logic parser: operands that are empty *)

Lemma add_nodes_empty (nodes : list string) :
  EmptyString ∈ nodes → ∀ acc, for_each add_node nodes acc = None.
Proof.
  induction nodes as [|node r IH]; intros Hin acc; [by apply elem_of_nil in Hin|].
  cbn [for_each]. apply elem_of_cons in Hin as [<-|Hin]; [done|].
  destruct (add_node acc node); [|done]. cbn [mbind option_bind]. by apply IH.
Qed.

Lemma operator_free_no (c : ascii) (ids : list string) :
  c = "+"%char ∨ c = "_"%char ∨ c = ","%char →
  Forall operator_free ids → Forall (λ s, contains c s = false) ids.
Proof.
  intros Hc Hall. eapply Forall_impl; [exact Hall|].
  intros s (Hp & Hu & Hk). by destruct Hc as [->|[->| ->]].
Qed.

(** X12.  An empty operand makes [parse_mission] raise.  For two or more
    operands free of the operator characters, one of them empty (as in
    [A+], [_B] or [A,,B]), the parser raises on the operands joined by any
    of the three operators: each branch reads the last character of every
    operand ([node[-1]], [step[-1]] at lines 1018, 1028 and 1036), and the
    empty string has none. *)
Theorem parse_mission_raises_on_empty_operand (ids : list string) :
  Forall operator_free ids → (2 ≤ length ids)%nat → EmptyString ∈ ids →
  parse_mission (join "+" ids) = None
  ∧ parse_mission (join "_" ids) = None
  ∧ parse_mission (join "," ids) = None.
Proof.
  intros Hall Hlen Hin.
  assert (Hne : ids ≠ []) by (intros ->; simpl in Hlen; lia).
  split; [|split]; unfold parse_mission.
  - rewrite contains_join_sep by done.
    rewrite split_join; [| apply operator_free_no; auto | done].
    rewrite (mapM_None_2 _ (itertools_permutations ids)); [done|].
    apply Exists_exists. exists ids. split.
    + by apply itertools_permutations_spec.
    + by apply add_nodes_empty.
  - rewrite (contains_join_other "+" "_"); [| apply operator_free_no; auto | done].
    rewrite contains_join_sep by done.
    rewrite split_join; [| apply operator_free_no; auto | done].
    by rewrite add_nodes_empty.
  - rewrite (contains_join_other "+" ","); [| apply operator_free_no; auto | done].
    rewrite (contains_join_other "_" ","); [| apply operator_free_no; auto | done].
    rewrite contains_join_sep by done.
    rewrite split_join; [| apply operator_free_no; auto | done].
    rewrite (mapM_None_2 _ ids); [done|].
    apply Exists_exists. exists EmptyString. done.
Qed.

Lemma parse_mission_raises_on_empty_operand_witness :
  parse_mission "A+" = None ∧ parse_mission "A_" = None ∧ parse_mission "A," = None.
Proof.
  apply (parse_mission_raises_on_empty_operand ["A"; ""]%string).
  - repeat constructor.
  - simpl. lia.
  - right. left.
Defined.
(** ** Travel time: edges that do not descend *)

Lemma Qfloor_nonneg (x : Q) : (0 <= x)%Q → 0 ≤ Qfloor x.
Proof.
  intros Hx. change 0 with (Qfloor 0). by apply Qfloor_resp_le.
Qed.

(** Rounding keeps the sign it is given. *)
Lemma binary_round_aux_sign (s : bool) (m e : Z) (l : location) :
  match binary_round_aux 53 1024 s m e l with
  | S754_zero s' | S754_infinity s' | S754_finite s' _ _ => s' = s
  | S754_nan => True
  end.
Proof.
  unfold binary_round_aux.
  destruct (shr_fexp 53 1024 m e l) as [mrs' e'].
  destruct (shr_fexp 53 1024 _ e' loc_Exact) as [mrs'' e''].
  destruct (shr_m mrs''); [done| |done].
  by destruct (e'' <=? 1024 - 53).
Qed.

Lemma rounded_not_negative (m e : Z) (l : location) :
  not_negative (binary_round_aux 53 1024 false m e l).
Proof.
  pose proof (binary_round_aux_sign false m e l) as H.
  destruct (binary_round_aux 53 1024 false m e l); simpl in *; by subst.
Qed.

Lemma int_true_div_not_negative (a b : Z) (q : spec_float) :
  0 ≤ a → 0 < b → int_true_div a b = Some q → not_negative q.
Proof.
  intros Ha Hb. unfold int_true_div. rewrite bool_decide_eq_false_2 by lia.
  assert (Hq : not_negative (float_div (int_as_float a) (int_as_float b))).
  { destruct a as [|p|p]; [|clear Ha|lia]; (destruct b as [|r|r]; [lia| |lia]).
    - done.
    - unfold float_div. cbn [int_as_float SFdiv xorb].
      destruct (SFdiv_core_binary 53 1024 (Z.pos p) 0 (Z.pos r) 0) as [[mz ez] lz].
      apply rounded_not_negative. }
  destruct (float_div (int_as_float a) (int_as_float b)); intros Heq; try done;
    injection Heq as <-; done.
Qed.

Lemma nearest_float_not_negative (q : Q) : (0 <= q)%Q → not_negative (nearest_float q).
Proof.
  intros Hq. unfold nearest_float.
  assert (Hn : 0 ≤ Qnum q).
  { unfold Qle in Hq. simpl in Hq. lia. }
  destruct (Qnum q) as [|p|p]; [done| |lia].
  unfold float_div. cbn [int_as_float SFdiv xorb].
  destruct (SFdiv_core_binary 53 1024 (Z.pos p) 0 (Z.pos (Qden q)) 0) as [[mz ez] lz].
  apply rounded_not_negative.
Qed.

Lemma float_of_int_not_negative (n : Z) (x : spec_float) :
  0 ≤ n → float_of_int n = Some x → not_negative x.
Proof.
  intros Hn. unfold float_of_int.
  assert (Hx : not_negative (int_to_float n false)).
  { unfold int_to_float. destruct n as [|p|p]; [done| |lia].
    cbn [binary_normalize]. unfold binary_round.
    destruct (shl_align p 0 _) as [mz ez]. apply rounded_not_negative. }
  destruct (int_to_float n false); intros Heq; try done; injection Heq as <-; done.
Qed.

Lemma float_mul_not_negative (x y : spec_float) :
  not_negative x → not_negative y → not_negative (float_mul x y).
Proof.
  intros Hx Hy. unfold float_mul.
  destruct x as [sx|[|]| |[|] mx ex]; try done;
    destruct y as [sy|[|]| |[|] my ey]; try done;
    cbn [SFmul xorb]; try (by destruct sx); try (by destruct sy);
    try (by destruct sx, sy).
  apply rounded_not_negative.
Qed.

(** Zero times anything is a zero or a NaN. *)
Lemma float_mul_zero (y : spec_float) : not_negative (float_mul (S754_zero false) y).
Proof. unfold float_mul. by destruct y. Qed.

Lemma float_add_not_negative (x y : spec_float) :
  not_negative x → not_negative y → not_negative (float_add x y).
Proof.
  intros Hx Hy. unfold float_add.
  destruct x as [sx|[|]| |[|] mx ex]; try done;
    destruct y as [sy|[|]| |[|] my ey]; try done;
    cbn [SFadd]; try (by destruct sx); try (by destruct sy);
    try (by destruct sx, sy).
  cbn [cond_Zopp]. 
  destruct (shl_align mx ex (Z.min ex ey)) as [m1 e1].
  destruct (shl_align my ey (Z.min ex ey)) as [m2 e2]. cbn [fst].
  change (Z.pos m1 + Z.pos m2) with (Z.pos (m1 + m2)).
  cbn [binary_normalize]. unfold binary_round.
  destruct (shl_align (m1 + m2) _ _) as [mz ez]. apply rounded_not_negative.
Qed.

Lemma not_negative_value (x : spec_float) (v : Q) :
  not_negative x → float_value x = Some v → (0 <= v)%Q.
Proof.
  destruct x as [s|s| |[|] m e]; try done.
  - intros _ [= <-]. done.
  - intros _ [= <-]. cbn [cond_Zopp].
    apply Qmult_le_0_compat; [done|]. by apply Qpower_0_le.
Qed.

(** X13.  On an edge that does not descend the reported travel time is not
    negative, and it is the floor of the sum the report computes.  For an
    edge other than [start-PA] that is in both tables, with a rounded
    distance and a rounded rise that are not negative, a positive speed and
    an ascent factor that is not negative, every float of lines 695-699 (the
    quotient, the surcharge, the two sums) is not negative: whenever their
    sum [x] is finite, the report shows the floor of [x], which is 0 at
    least, because [int()] truncates a number that is not negative
    downwards. *)
Theorem move_time_on_rising_edge_is_floor (ABN delta_H : gmap string Q) (cfg : setup)
    (last_node node : string) (distance delta_h : Q) (move_dist d : Z)
    (fd q : spec_float) (v : Q) :
  String.eqb (last_node +:+ "-" +:+ node) "start-PA" = false →
  ABN !! (last_node +:+ "-" +:+ node) = Some distance →
  delta_H !! (last_node +:+ "-" +:+ node) = Some delta_h →
  float_round (nearest_float distance) = Some move_dist →
  float_round (nearest_float delta_h) = Some d →
  0 ≤ move_dist → 0 ≤ d → 0 < adv_speed cfg → (0 <= ascend_fatigue cfg)%Q →
  float_of_int d = Some fd →
  int_true_div move_dist (adv_speed cfg) = Some q →
  float_value
    (float_add
       (float_add q (float_mul fd (nearest_float (if bool_decide (0 < d)
                                                  then ascend_fatigue cfg
                                                  else descend_fatigue cfg))))
       (nearest_float (51 # 1000))) = Some v →
  move_time ABN delta_H cfg last_node node = Some (Qfloor v) ∧ 0 ≤ Qfloor v.
Proof.
  intros Hkey Hd Hh Hdist Hrise Hmd Hd0 Hspeed Hasc Hfd Hq Hv.
  assert (Hpos : (0 <= v)%Q).
  { refine (not_negative_value _ v _ Hv).
    apply float_add_not_negative; [|by apply nearest_float_not_negative].
    apply float_add_not_negative;
      [by apply (int_true_div_not_negative move_dist (adv_speed cfg))|].
    case_bool_decide as Hrising.
    - apply float_mul_not_negative; [by apply (float_of_int_not_negative d)|].
      by apply nearest_float_not_negative.
    - assert (d = 0) as -> by lia. vm_compute in Hfd. injection Hfd as <-.
      apply float_mul_zero. }
  split; [|by apply Qfloor_nonneg].
  rewrite (move_time_edge ABN delta_H cfg last_node node distance delta_h move_dist d fd q)
    by done.
  unfold float_int. rewrite Hv. cbn [fmap option_fmap option_map].
  by rewrite py_int_floor_ceiling, (proj2 (Qle_bool_iff 0 v) Hpos).
Qed.

Lemma move_time_on_rising_edge_is_floor_witness :
  ∃ v : Q,
    move_time scenario_a_ABN scenario_a_delta_H default_setup "start" "T1" = Some (Qfloor v)
    ∧ 0 ≤ Qfloor v.
Proof.
  eexists.
  eapply (move_time_on_rising_edge_is_floor scenario_a_ABN scenario_a_delta_H default_setup
            "start" "T1" 11%Q 0%Q 11 0).
  - reflexivity.
  - reflexivity.
  - reflexivity.
  - vm_compute. reflexivity.
  - vm_compute. reflexivity.
  - lia.
  - lia.
  - reflexivity.
  - vm_compute. discriminate.
  - vm_compute. reflexivity.
  - vm_compute. reflexivity.
  - vm_compute. reflexivity.
Defined.
